(** * HarperDB Node client: request-execution layer

    A shallow embedding of [client.ts] (class [HarperDBClient]: cache store,
    retry interceptor, [executeQuery]) and of the bulk, [select] and
    [parallel] operations of [harperdb.ts] (class [HarperDB]), followed by
    the properties stated about them.

    Conventions of the embedding.
    - A JavaScript string is a [string] of code units U+0000..U+00FF.
    - A JavaScript number is an integer [Z] (the bodies, sizes, counters and
      millisecond clock readings handled here are integers).
    - [undefined] is [None] in an [option]; a thrown exception is the
      [None]/[Rejected]/[Throw] branch of the result type of the function.
    - A JavaScript [Map] and a plain object are association lists in
      enumeration order, without repeated keys.
    - An [async] function is split at its [await]: the part that runs before
      the request is sent and the part that runs once it settles. A clock
      reading is constant inside such a synchronous part. *)

From Stdlib Require Import List String Ascii ZArith NArith Bool Lia Arith.
From Stdlib Require Import Permutation Sorted Decimal DecimalString.
From Stdlib Require DecimalZ DecimalN.
Import ListNotations.

Local Open Scope string_scope.
Local Open Scope Z_scope.

(* ================================================================== *)
(** * Part I. The JavaScript values the client manipulates            *)
(* ================================================================== *)

Module JS.

(** ** JSON values *)

Unset Elimination Schemes.
Inductive JSON : Type :=
| JNull
| JBool (b : bool)
| JNum (n : Z)
| JStr (s : string)
| JArr (items : list JSON)
| JObj (props : list (string * JSON)).
Set Elimination Schemes.

(** Induction principle that reaches the elements of arrays and the values
    of objects. *)
Fixpoint JSON_ind (P : JSON -> Prop)
    (Hnull : P JNull) (Hbool : forall b, P (JBool b))
    (Hnum : forall n, P (JNum n)) (Hstr : forall s, P (JStr s))
    (Harr : forall l, Forall P l -> P (JArr l))
    (Hobj : forall m, Forall (fun kv => P (snd kv)) m -> P (JObj m))
    (v : JSON) {struct v} : P v :=
  let rec := JSON_ind P Hnull Hbool Hnum Hstr Harr Hobj in
  match v with
  | JNull => Hnull
  | JBool b => Hbool b
  | JNum n => Hnum n
  | JStr s => Hstr s
  | JArr l =>
      Harr l ((fix go (l : list JSON) : Forall P l :=
                 match l with
                 | [] => Forall_nil _
                 | x :: r => Forall_cons x (rec x) (go r)
                 end) l)
  | JObj m =>
      Hobj m ((fix go (m : list (string * JSON)) :
                 Forall (fun kv => P (snd kv)) m :=
                 match m with
                 | [] => Forall_nil _
                 | kv :: r =>
                     Forall_cons (P := fun kv => P (snd kv)) kv
                       (rec (snd kv)) (go r)
                 end) m)
  end.

(** A value that may be [undefined]. *)
Definition Value := option JSON.
Definition undefined : Value := None.

(** ** Truthiness, [||] and [??] *)

(** [ToBoolean] on strings: only the empty string is falsy. *)
Definition truthy_string (s : string) : bool :=
  match s with EmptyString => false | String _ _ => true end.

(** [ToBoolean]: [undefined], [null], [false], [0] and [""] are falsy. *)
Definition truthy (v : Value) : bool :=
  match v with
  | None => false
  | Some JNull => false
  | Some (JBool b) => b
  | Some (JNum n) => negb (n =? 0)
  | Some (JStr s) => truthy_string s
  | Some (JArr _) => true
  | Some (JObj _) => true
  end.

(** [a || b] *)
Definition js_or (a b : Value) : Value := if truthy a then a else b.

(** [a ?? b] *)
Definition js_nullish (a b : Value) : Value :=
  match a with
  | None => b
  | Some JNull => b
  | Some _ => a
  end.

(** [s || d] for an optional string. *)
Definition str_or (s : option string) (d : string) : string :=
  match s with
  | Some x => if truthy_string x then x else d
  | None => d
  end.

(** [n || d] for an optional number. *)
Definition num_or (n : option Z) (d : Z) : Z :=
  match n with
  | Some x => if x =? 0 then d else x
  | None => d
  end.

(** ** Decimal rendering of integers: [String(n)] *)

Definition string_of_Z (n : Z) : string :=
  NilZero.string_of_int (Z.to_int n).

Definition string_of_nat (n : nat) : string :=
  NilZero.string_of_uint (Nat.to_uint n).

(** ** Property keys and their enumeration order *)

(** An array index is a canonical numeric string naming an integer in
    [0, 2^32 - 2]; such keys are enumerated first, in ascending numeric
    order, before all other keys, which come in insertion order. *)
Definition array_index (k : string) : option N :=
  match NilZero.uint_of_string k with
  | Some d =>
      let n := N.of_uint d in
      if (NilZero.string_of_uint (N.to_uint n) =? k)%string
         && (n <=? 4294967294)%N
      then Some n else None
  | None => None
  end.

(** [o[k]] on the property list of an object. *)
Fixpoint obj_get (k : string) (m : list (string * JSON)) : Value :=
  match m with
  | [] => None
  | (k', v) :: r => if (k =? k')%string then Some v else obj_get k r
  end.

Definition obj_has (k : string) (m : list (string * JSON)) : bool :=
  match obj_get k m with Some _ => true | None => false end.

(** Overwrite the value of a key that is present, keeping its place. *)
Fixpoint obj_replace (k : string) (v : JSON) (m : list (string * JSON)) :=
  match m with
  | [] => []
  | (k', v') :: r =>
      if (k =? k')%string then (k', v) :: r else (k', v') :: obj_replace k v r
  end.

(** Place a new array-index key [k = n] after the smaller indices. *)
Fixpoint insert_index (n : N) (k : string) (v : JSON)
    (m : list (string * JSON)) :=
  match m with
  | [] => [(k, v)]
  | (k', v') :: r =>
      match array_index k' with
      | Some n' =>
          if (n' <? n)%N then (k', v') :: insert_index n k v r
          else (k, v) :: m
      | None => (k, v) :: m
      end
  end.

(** [o[k] = v] on an ordinary object. *)
Definition obj_set (k : string) (v : JSON) (m : list (string * JSON)) :=
  if obj_has k m then obj_replace k v m
  else match array_index k with
       | Some n => insert_index n k v m
       | None => (m ++ [(k, v)])%list
       end.

(** [Object.keys(o)] *)
Definition obj_keys (m : list (string * JSON)) : list string := map fst m.

(** The own enumerable properties of an array: its elements under the keys
    ["0"], ["1"], ... *)
Fixpoint index_props (i : nat) (l : list JSON) : list (string * JSON) :=
  match l with
  | [] => []
  | x :: r => (string_of_nat i, x) :: index_props (S i) r
  end.

(** The own enumerable properties of a string: its code units. *)
Fixpoint char_props (i : nat) (s : string) : list (string * JSON) :=
  match s with
  | EmptyString => []
  | String c r => (string_of_nat i, JStr (String c EmptyString))
                  :: char_props (S i) r
  end.

(** The properties copied by an object spread [{...v}]. *)
Definition own_props (v : JSON) : list (string * JSON) :=
  match v with
  | JObj m => m
  | JArr l => index_props 0 l
  | JStr s => char_props 0 s
  | _ => []
  end.

(** [{...base, ...v}]: every own property of [v] is assigned in turn. *)
Definition spread_into (base : list (string * JSON)) (v : JSON) :=
  fold_left (fun o kv => obj_set (fst kv) (snd kv) o) (own_props v) base.

(** [v.k] for a name [k] that is neither an index nor ["length"]: defined
    on objects only. The names read in this program are [body], [table],
    [schema], [data], [message] and [error]. Reading a property of [null]
    or [undefined] throws and is guarded at each use. *)
Definition prop (v : JSON) (k : string) : Value :=
  match v with
  | JObj m => obj_get k m
  | _ => None
  end.

(** Optional chaining [v?.k]. *)
Definition opt_prop (v : Value) (k : string) : Value :=
  match v with
  | Some x => prop x k
  | None => None
  end.

(** ** [Array.prototype.sort()] with the default comparator on strings *)

Fixpoint insert_sorted (k : string) (l : list string) : list string :=
  match l with
  | [] => [k]
  | x :: r => if String.leb k x then k :: l else x :: insert_sorted k r
  end.

(** Code-unit order; the result is the one sorted arrangement of the keys. *)
Fixpoint sort_strings (l : list string) : list string :=
  match l with
  | [] => []
  | k :: r => insert_sorted k (sort_strings r)
  end.

(** ** [String.prototype.toLowerCase] on U+0000..U+00FF *)

Definition lower_char (c : ascii) : ascii :=
  let n := N_of_ascii c in
  if ((65 <=? n) && (n <=? 90))%N then ascii_of_N (n + 32)
  else if ((192 <=? n) && (n <=? 222) && negb (n =? 215))%N
       then ascii_of_N (n + 32)
  else c.

Fixpoint toLowerCase (s : string) : string :=
  match s with
  | EmptyString => EmptyString
  | String c r => String (lower_char c) (toLowerCase r)
  end.

(** ** [JSON.stringify] *)

Definition dquote : ascii := ascii_of_N 34.
Definition bslash : ascii := ascii_of_N 92.

Definition hex_digit (n : N) : ascii :=
  match String.get (N.to_nat n) "0123456789abcdef" with
  | Some c => c
  | None => "0"%char
  end.

(** One code unit inside a quoted string: the quote, the backslash and the
    control characters are escaped, everything else is copied. *)
Definition escape_char (c : ascii) : string :=
  let n := N_of_ascii c in
  if (n =? 34)%N then String bslash (String dquote "")
  else if (n =? 92)%N then String bslash (String bslash "")
  else if (n =? 8)%N then String bslash "b"
  else if (n =? 12)%N then String bslash "f"
  else if (n =? 10)%N then String bslash "n"
  else if (n =? 13)%N then String bslash "r"
  else if (n =? 9)%N then String bslash "t"
  else if (n <? 32)%N then
    String bslash
      (String "u" (String "0" (String "0"
         (String (hex_digit (n / 16)) (String (hex_digit (n mod 16)) "")))))
  else String c "".

Fixpoint escape (s : string) : string :=
  match s with
  | EmptyString => EmptyString
  | String c r => escape_char c ++ escape r
  end.

Definition quote (s : string) : string :=
  String dquote (escape s ++ String dquote "").

Fixpoint JSON_stringify (v : JSON) : string :=
  match v with
  | JNull => "null"
  | JBool true => "true"
  | JBool false => "false"
  | JNum n => string_of_Z n
  | JStr s => quote s
  | JArr l => "[" ++ String.concat "," (map JSON_stringify l) ++ "]"
  | JObj m =>
      "{" ++ String.concat ","
               (map (fun kv => quote (fst kv) ++ ":" ++ JSON_stringify (snd kv))
                    m) ++ "}"
  end.

(** ** [String(v)], as a template literal applies it *)

Fixpoint js_String (v : JSON) : string :=
  match v with
  | JNull => "null"
  | JBool true => "true"
  | JBool false => "false"
  | JNum n => string_of_Z n
  | JStr s => s
  | JArr l =>
      String.concat ","
        (map (fun x => match x with JNull => "" | _ => js_String x end) l)
  | JObj _ => "[object Object]"
  end.

(** ** [Buffer.from(s).toString('base64')] *)

(** UTF-8 bytes of one code unit below U+0100. *)
Definition utf8_char (c : ascii) : list N :=
  let n := N_of_ascii c in
  if (n <? 128)%N then [n] else [192 + n / 64; 128 + n mod 64]%N.

Fixpoint utf8 (s : string) : list N :=
  match s with
  | EmptyString => []
  | String c r => (utf8_char c ++ utf8 r)%list
  end.

Definition b64_alphabet : string :=
  "ABCDEFGHIJKLMNOPQRSTUVWXYZabcdefghijklmnopqrstuvwxyz0123456789+/".

Definition b64_char (n : N) : ascii :=
  match String.get (N.to_nat n) b64_alphabet with
  | Some c => c
  | None => "="%char
  end.

(** Three bytes give four characters; a last group of one or two bytes is
    padded with [=]. *)
Fixpoint base64 (bytes : list N) : string :=
  match bytes with
  | [] => ""
  | [a] =>
      String (b64_char (a / 4)) (String (b64_char (a mod 4 * 16)) "==")
  | [a; b] =>
      String (b64_char (a / 4))
        (String (b64_char (a mod 4 * 16 + b / 16))
           (String (b64_char (b mod 16 * 4)) "="))
  | a :: b :: c :: r =>
      String (b64_char (a / 4))
        (String (b64_char (a mod 4 * 16 + b / 16))
           (String (b64_char (b mod 16 * 4 + c / 64))
              (String (b64_char (c mod 64)) (base64 r))))
  end%N.

Definition Buffer_base64 (s : string) : string := base64 (utf8 s).

(** ** [Map<string, V>]: entries in insertion order *)

Section JsMap.
Context {V : Type}.

(** [m.get(k)] *)
Fixpoint map_get (k : string) (m : list (string * V)) : option V :=
  match m with
  | [] => None
  | (k', v) :: r => if (k =? k')%string then Some v else map_get k r
  end.

Definition map_has (k : string) (m : list (string * V)) : bool :=
  match map_get k m with Some _ => true | None => false end.

(** [m.delete(k)] *)
Fixpoint map_delete (k : string) (m : list (string * V)) :=
  match m with
  | [] => []
  | (k', v) :: r =>
      if (k =? k')%string then r else (k', v) :: map_delete k r
  end.

Fixpoint map_replace (k : string) (v : V) (m : list (string * V)) :=
  match m with
  | [] => []
  | (k', v') :: r =>
      if (k =? k')%string then (k', v) :: r
      else (k', v') :: map_replace k v r
  end.

(** [m.set(k, v)]: a present key keeps its place, a new key goes last. *)
Definition map_set (k : string) (v : V) (m : list (string * V)) :=
  if map_has k m then map_replace k v m else (m ++ [(k, v)])%list.

(** [m.size] *)
Definition map_size (m : list (string * V)) : Z := Z.of_nat (List.length m).

(** [m.keys()] *)
Definition map_keys (m : list (string * V)) : list string := map fst m.

(** [m.keys().next().value] *)
Definition map_first_key (m : list (string * V)) : option string :=
  match m with
  | [] => None
  | (k, _) :: _ => Some k
  end.
End JsMap.

End JS.

Import JS.

(* ================================================================== *)
(** * Part II. [client.ts]: class [HarperDBClient]                    *)
(* ================================================================== *)

Module Client.

(** ** Types of [types.ts] *)

(** The fields of [HarperDBConfig] read by the request-execution layer.
    The endpoint address, the credentials and the socket settings only
    parameterise the transport. *)
Record HarperDBConfig : Type := {
  schema : option string;
  timeout : option Z;
  maxRetries : option Z;
  retryDelay : option Z;
  poolSize : option Z;
  apiPath : option string;
  enableCache : option bool;
  cacheTTL : option Z;
  maxCacheSize : option Z
}.

(** The constructor: each default is computed with [||] and then
    overwritten by the trailing [...config], so a field the caller supplies
    is kept as supplied and an absent field takes its default. *)
Definition field {A} (supplied : option A) (default : A) : option A :=
  match supplied with
  | Some x => Some x
  | None => Some default
  end.

Definition new_config (config : HarperDBConfig) : HarperDBConfig := {|
  schema := field (schema config) (str_or (schema config) "dev");
  timeout := field (timeout config) (num_or (timeout config) 30000);
  maxRetries := field (maxRetries config) (num_or (maxRetries config) 3);
  retryDelay := field (retryDelay config) (num_or (retryDelay config) 1000);
  poolSize := field (poolSize config) (num_or (poolSize config) 10);
  apiPath := field (apiPath config) (str_or (apiPath config) "");
  enableCache :=
    field (enableCache config)
      (match enableCache config with Some b => b | None => false end);
  cacheTTL := field (cacheTTL config) (num_or (cacheTTL config) 5000);
  maxCacheSize :=
    field (maxCacheSize config) (num_or (maxCacheSize config) 1000)
|}.

(** [b || false] and [!b] for an optional flag. *)
Definition flag (b : option bool) : bool :=
  match b with Some x => x | None => false end.

(** [this.config.schema || ''] *)
Definition getSchema (cfg : HarperDBConfig) : string := str_or (schema cfg) "".

Record QueryOptions : Type := {
  opt_timeout : option Z;
  opt_retries : option Z;
  useCache : option bool;
  opt_cacheTTL : option Z
}.

(** A call made without an options argument. *)
Definition no_options : QueryOptions :=
  {| opt_timeout := None; opt_retries := None;
     useCache := None; opt_cacheTTL := None |}.

Record Metadata : Type := {
  executionTime : Z;
  cached : bool  (* [false] stands for an absent field *)
}.

Record HarperDBResponse : Type := {
  message : JSON;
  data : JSON;
  metadata : Metadata
}.

Record CacheEntry : Type := {
  entry_data : HarperDBResponse;
  timestamp : Z;
  ttl : Z
}.

(** [queryCache : Map<string, CacheEntry>] *)
Definition Cache := list (string * CacheEntry).

(** A thrown [Error]. *)
Record JsError : Type := { error_message : string }.

Inductive Result (A : Type) : Type :=
| Ok (a : A)
| Throw (e : JsError).
Arguments Ok {A} a.
Arguments Throw {A} e.

(** ** Cache keys *)

Definition cacheableOperations : list string :=
  ["select"; "get_by_hash"; "get_by_hashes"; "search_by_value"; "sql";
   "describe_table"; "list_tables"; "list_schemas"].

(** [list.includes(s)] *)
Definition includes (l : list string) (s : string) : bool :=
  existsb (String.eqb s) l.

(** The loop of [normalizeBody] over the sorted keys, reading the fields
    from [fields], whose object values have already been normalized. *)
Definition assemble (fields : list (string * JSON)) : list (string * JSON) :=
  fold_left
    (fun normalized key =>
       match obj_get key fields with
       | Some v => obj_set key v normalized
       | None => normalized
       end)
    (sort_strings (obj_keys fields)) [].

Fixpoint normalizeBody (body : JSON) : JSON :=
  let field v :=
    match v with
    | JObj _ => normalizeBody v
    | _ => v
    end in
  match body with
  | JObj m => JObj (assemble (map (fun kv => (fst kv, field (snd kv))) m))
  | JArr l => JObj (assemble (index_props 0 (map field l)))
  | _ => body
  end.

Definition generateCacheKey (operation : string) (body : JSON) : string :=
  if negb (includes cacheableOperations (toLowerCase operation)) then ""
  else
    Buffer_base64
      (JSON_stringify
         (JObj [("operation", JStr operation); ("body", normalizeBody body)])).

(** ** Cache store *)

Definition expired (now : Z) (entry : CacheEntry) : bool :=
  now - timestamp entry >? ttl entry.

Definition getCached (cfg : HarperDBConfig) (cache : Cache) (now : Z)
    (cacheKey : string) : option HarperDBResponse * Cache :=
  if negb (truthy_string cacheKey) || negb (flag (enableCache cfg))
  then (None, cache)
  else
    match map_get cacheKey cache with
    | None => (None, cache)
    | Some entry =>
        if expired now entry then (None, map_delete cacheKey cache)
        else (Some (entry_data entry), cache)
    end.

Definition setCache (cfg : HarperDBConfig) (cache : Cache) (now : Z)
    (cacheKey : string) (data : HarperDBResponse) (ttl : option Z) : Cache :=
  if negb (truthy_string cacheKey) || negb (flag (enableCache cfg))
  then cache
  else
    let cache1 :=
      if map_size cache >=? num_or (maxCacheSize cfg) 0 then
        match map_first_key cache with
        | Some firstKey =>
            if truthy_string firstKey then map_delete firstKey cache
            else cache
        | None => cache
        end
      else cache in
    let effectiveTTL := num_or ttl (num_or (cacheTTL cfg) 0) in
    map_set cacheKey
      {| entry_data := data; timestamp := now; ttl := effectiveTTL |}
      cache1.

Definition clearCache (cache : Cache) : Cache := [].

(** One run of the timer callback installed by [startCacheCleanup]. *)
Definition cacheCleanup (cache : Cache) (now : Z) : Cache :=
  filter (fun ke => negb (expired now (snd ke))) cache.

(** [v === s] for a string [s]. *)
Definition is_string (v : Value) (s : string) : bool :=
  match v with
  | Some (JStr x) => (x =? s)%string
  | _ => false
  end.

Section Invalidation.
(** [JSON.parse(Buffer.from(key, 'base64').toString())]; [None] when
    [JSON.parse] throws. *)
Variable decodeKey : string -> option JSON.

(** The [try] block of [invalidateTableCache] for one key: whether the
    entry is to be deleted, or [None] when the block throws. *)
Definition refers_to (table schemaName key : string) : option bool :=
  match decodeKey key with
  | None => None
  | Some JNull => None
  | Some decoded =>
      let body := js_or (prop decoded "body") (Some (JObj [])) in
      Some (is_string (opt_prop body "table") table
            && (is_string (opt_prop body "schema") schemaName
                || negb (truthy (opt_prop body "schema"))))
  end.

Definition invalidateTableCache (cfg : HarperDBConfig) (cache : Cache)
    (table : string) (schema : option string) : Cache :=
  let schemaName := str_or schema (str_or (Client.schema cfg) "") in
  fold_left
    (fun queryCache key =>
       match refers_to table schemaName key with
       | Some true => map_delete key queryCache
       | Some false => queryCache
       | None => queryCache (* ignore malformed cache keys *)
       end)
    (map_keys cache) cache.
End Invalidation.

(** ** Transport and retry interceptor *)

Record AxiosResponse : Type := {
  status : Z;
  response_data : JSON
}.

Record AxiosError : Type := {
  response : option AxiosResponse;
  code : option string;
  axios_message : string
}.

(** How one HTTP exchange ends. *)
Inductive Settled : Type :=
| Fulfilled (r : AxiosResponse)
| Rejected (e : AxiosError).

(** [(error.response?.status ?? 0) >= 500 || error.code === 'ECONNABORTED'] *)
Definition transient (e : AxiosError) : bool :=
  (match response e with Some r => status r | None => 0 end >=? 500)
  || match code e with
     | Some c => (c =? "ECONNABORTED")%string
     | None => false
     end.

(** What the caller of [axiosInstance.post] observes: how the request
    finally settles and the delays slept through before the retries. *)
Record Exchange : Type := {
  settled : Settled;
  delays : list Z
}.

(** The response interceptor. [attempt n] is how the [n]-th send of this
    request ends; [retryCount] is [config.__retryCount], carried by the
    request configuration. [fuel] bounds the re-entries; [None] means it
    ran out. *)
Fixpoint dispatch (fuel : nat) (cfg : HarperDBConfig)
    (attempt : nat -> Settled) (n : nat) (retryCount : Z) : option Exchange :=
  match attempt n with
  | Fulfilled r => Some {| settled := Fulfilled r; delays := [] |}
  | Rejected error =>
      if (retryCount <? num_or (maxRetries cfg) 0) && transient error then
        let retryCount := retryCount + 1 in
        let delay :=
          num_or (retryDelay cfg) 0 * num_or (Some retryCount) 1 in
        match fuel with
        | O => None
        | S fuel =>
            match dispatch fuel cfg attempt (S n) retryCount with
            | Some x =>
                Some {| settled := settled x; delays := delay :: delays x |}
            | None => None
            end
        end
      else Some {| settled := Rejected error; delays := [] |}
  end.

(** [axiosInstance.post(...)]: a fresh request starts with no retry count,
    which the interceptor reads as 0. *)
Definition post (cfg : HarperDBConfig) (attempt : nat -> Settled)
    : option Exchange :=
  dispatch (Z.to_nat (num_or (maxRetries cfg) 0)) cfg attempt 0 0.

(** The interceptor always answers: with one unit of fuel per permitted
    retry, [post] is defined (lemma [post_total]); [axios_post] is its
    value seen as the send function handed to [executeQuery]. *)
Definition axios_post (cfg : HarperDBConfig) (attempt : nat -> Settled)
    : Settled :=
  match post cfg attempt with
  | Some x => settled x
  | None => attempt O
  end.

(** ** [executeQuery] *)

Record Request : Type := {
  endpoint : string;
  requestBody : JSON;
  request_timeout : option Z
}.

(** The surroundings of one call: the clock when it starts, how
    [axiosInstance.post] settles for the request it sends, and the clock
    when that happens. *)
Record Call : Type := {
  started : Z;
  send : Request -> Settled;
  finished : Z
}.

(** State of a call at its [await]. *)
Inductive Begun : Type :=
| Hit (r : HarperDBResponse)
| Awaiting (req : Request) (cacheKey : string) (useCache : bool).

(** [a || b] on optional numbers. *)
Definition opt_num_or (a b : option Z) : option Z :=
  match a with
  | Some x => if x =? 0 then b else a
  | None => b
  end.

(** The request [executeQuery] posts: the operation name merged into the
    body, and the per-call timeout. *)
Definition outbound (cfg : HarperDBConfig) (operation : string) (body : JSON)
    (options : QueryOptions) : Request :=
  {| endpoint := str_or (apiPath cfg) "" ++ "/";
     requestBody := JObj (spread_into [("operation", JStr operation)] body);
     request_timeout := opt_num_or (opt_timeout options) (timeout cfg) |}.

(** What is returned on a cache hit:
    [{ ...cached, metadata: { executionTime: ..., cached: true } }]. *)
Definition from_cache (cached : HarperDBResponse) : HarperDBResponse :=
  {| message := message cached;
     data := data cached;
     metadata :=
       {| executionTime := num_or (Some (executionTime (metadata cached))) 0;
          cached := true |} |}.

(** Up to the [await]: cache lookup, then the outbound request. *)
Definition executeQuery_begin (cfg : HarperDBConfig) (cache : Cache)
    (now : Z) (operation : string) (body : JSON) (options : QueryOptions)
    : Begun * Cache :=
  let useCache :=
    match useCache options with
    | Some b => b
    | None => flag (enableCache cfg)
    end in
  let cacheKey := if useCache then generateCacheKey operation body else "" in
  let lookup :=
    if truthy_string cacheKey then getCached cfg cache now cacheKey
    else (None, cache) in
  match lookup with
  | (Some cached, cache) => (Hit (from_cache cached), cache)
  | (None, cache) =>
      (Awaiting (outbound cfg operation body options) cacheKey useCache, cache)
  end.

(** [error.response?.data?.error || error.response?.data?.message
     || error.message || 'Unknown error'] *)
Definition errorMessage (error : AxiosError) : JSON :=
  let body := option_map response_data (response error) in
  match js_or (opt_prop body "error")
          (js_or (opt_prop body "message")
             (js_or (Some (JStr (axios_message error)))
                (Some (JStr "Unknown error")))) with
  | Some v => v
  | None => JStr "Unknown error"
  end.

Definition query_failed (error : AxiosError) : JsError :=
  {| error_message := "HarperDB query failed: " ++ js_String (errorMessage error) |}.

(** The shape given to a successful response. *)
Definition responseData (payload : JSON) : JSON :=
  match payload with
  | JArr _ => payload
  | JObj m =>
      match obj_get "data" m with
      | Some d => d
      | None => payload
      end
  | _ => payload
  end.

(** The envelope built from a successful response. *)
Definition envelope (response : AxiosResponse) (executionTime : Z)
    : HarperDBResponse :=
  {| message :=
       match js_or (prop (response_data response) "message")
                   (Some (JStr "Success")) with
       | Some m => m
       | None => JStr "Success"
       end;
     data := responseData (response_data response);
     metadata := {| executionTime := executionTime; cached := false |} |}.

(** After the [await]: envelope and cache store, or the [catch]. *)
Definition executeQuery_settle (cfg : HarperDBConfig) (cache : Cache)
    (startTime now : Z) (cacheKey : string) (useCache : bool)
    (options : QueryOptions) (s : Settled)
    : Result HarperDBResponse * Cache :=
  match s with
  | Fulfilled response =>
      let result := envelope response (now - startTime) in
      (Ok result,
       if truthy_string cacheKey && useCache
       then setCache cfg cache now cacheKey result
              (opt_num_or (opt_cacheTTL options) (cacheTTL cfg))
       else cache)
  | Rejected error => (Throw (query_failed error), cache)
  end.

Record Executed : Type := {
  outcome : Result HarperDBResponse;
  cache_after : Cache;
  sent : option Request;
  returned_at : Z
}.

(** One whole call, nothing else touching the cache meanwhile. *)
Definition executeQuery (cfg : HarperDBConfig) (cache : Cache) (call : Call)
    (operation : string) (body : JSON) (options : QueryOptions) : Executed :=
  match executeQuery_begin cfg cache (started call) operation body options with
  | (Hit r, cache) =>
      {| outcome := Ok r; cache_after := cache; sent := None;
         returned_at := started call |}
  | (Awaiting req cacheKey useCache, cache) =>
      let (r, cache) :=
        executeQuery_settle cfg cache (started call) (finished call)
          cacheKey useCache options (send call req) in
      {| outcome := r; cache_after := cache; sent := Some req;
         returned_at := finished call |}
  end.

End Client.

Import Client.

(* ================================================================== *)
(** * Part III. [harperdb.ts]: class [HarperDB]                       *)
(* ================================================================== *)

Module HarperDB.

(** ** Helpers from the platform and from lodash *)

(** [_.chunk(array, size)]: [size] is clamped at 0 and a size below 1
    gives no group at all. [fuel] counts the elements still to place. *)
Fixpoint chunk_from {A} (fuel : nat) (size : nat) (l : list A)
    : list (list A) :=
  match fuel, l with
  | S fuel, _ :: _ => firstn size l :: chunk_from fuel size (skipn size l)
  | _, _ => []
  end.

Definition chunk {A} (l : list A) (size : Z) : list (list A) :=
  if Z.max size 0 <? 1 then []
  else chunk_from (List.length l) (Z.to_nat size) l.

(** [array.slice(start, end)], negative positions counting from the end. *)
Definition js_slice {A} (l : list A) (start stop : Z) : list A :=
  let len := Z.of_nat (List.length l) in
  let clamp i := if i <? 0 then Z.max (len + i) 0 else Z.min i len in
  let from := clamp start in
  let to := clamp stop in
  firstn (Z.to_nat (to - from)) (skipn (Z.to_nat from) l).

(** [array.map((x, i) => ...)] needs the positions. *)
Fixpoint indexed {A} (i : Z) (l : list A) : list (Z * A) :=
  match l with
  | [] => []
  | x :: r => (i, x) :: indexed (i + 1) r
  end.

(** ** Result types of [types.ts] *)

Record QueryMetadata : Type := {
  q_executionTime : Z;
  recordsAffected : Value
}.

Record QueryResult : Type := {
  q_data : JSON;
  q_metadata : QueryMetadata
}.

Record BulkError : Type := {
  index : Z;
  error : string
}.

Record BulkOperationResult : Type := {
  successful : Z;
  failed : Z;
  errors : option (list BulkError);
  bulk_executionTime : Z
}.

(** The options of the bulk operations: [QueryOptions] extended with
    [hashAttribute], [batchSize] and [concurrency]. *)
Record BulkOptions : Type := {
  query_options : QueryOptions;
  hashAttribute : option string;
  batchSize : option Z;
  concurrency : option Z
}.

Definition no_bulk_options : BulkOptions :=
  {| query_options := no_options; hashAttribute := None;
     batchSize := None; concurrency := None |}.

(** ** Payload shared by the write operations *)

(** [const schema = options?.hashAttribute ? undefined : this.getSchema()]
    followed by [schema || this.getSchema()]. *)
Definition write_schema (cfg : HarperDBConfig) (hashAttribute : option string)
    : string :=
  let schema :=
    if truthy_string (str_or hashAttribute "") then None
    else Some (getSchema cfg) in
  str_or schema (getSchema cfg).

(** [{ schema, table, <field>: items, ...(hashAttribute && { hash_attribute }) }] *)
Definition write_body (cfg : HarperDBConfig) (table field : string)
    (items : list JSON) (hashAttribute : option string) : JSON :=
  JObj
    (spread_into
       [("schema", JStr (write_schema cfg hashAttribute));
        ("table", JStr table);
        (field, JArr items)]
       (if truthy_string (str_or hashAttribute "")
        then JObj [("hash_attribute", JStr (str_or hashAttribute ""))]
        else JNull)).

(** Running totals of a bulk job, with the cache. *)
Record Tally : Type := {
  t_successful : Z;
  t_failed : Z;
  t_errors : list BulkError;
  t_cache : Cache
}.

(** [batch.forEach((_, idx) => errors.push({ index: startIdx + idx, error }))] *)
Definition batch_errors {A} (startIdx : Z) (batch : list A) (msg : string)
    : list BulkError :=
  map (fun ix => {| index := startIdx + fst ix; error := msg |})
      (indexed 0 batch).

Definition bulk_result (t : Tally) (startTime now : Z) : BulkOperationResult :=
  {| successful := t_successful t;
     failed := t_failed t;
     errors := match t_errors t with [] => None | _ => Some (t_errors t) end;
     bulk_executionTime := now - startTime |}.

Section Operations.
Variable decodeKey : string -> option JSON.
Variable cfg : HarperDBConfig.

(** The surroundings of the call made for each group, by group number. *)
Variable calls : nat -> Call.

(** *** [insertMany], [updateMany], [deleteMany] *)

(** One turn of the [for] loop: the [try] block and its [catch]. *)
Definition sequential_step (operation field table : string)
    (options : BulkOptions) (batchSize : Z) (batches : Z) (t : Tally)
    (group : Z * list JSON) : Tally :=
  let (batchIndex, batch) := group in
  let x :=
    executeQuery cfg (t_cache t) (calls (Z.to_nat batchIndex)) operation
      (write_body cfg table field batch (hashAttribute options))
      (query_options options) in
  match outcome x with
  | Ok _ =>
      {| t_successful := t_successful t + Z.of_nat (List.length batch);
         t_failed := t_failed t;
         t_errors := t_errors t;
         t_cache :=
           if batchIndex =? batches - 1
           then invalidateTableCache decodeKey cfg (cache_after x) table
                  (Some (write_schema cfg (hashAttribute options)))
           else cache_after x |}
  | Throw e =>
      {| t_successful := t_successful t;
         t_failed := t_failed t + Z.of_nat (List.length batch);
         t_errors :=
           (t_errors t
            ++ batch_errors (batchIndex * batchSize) batch
                 (str_or (Some (error_message e)) "Unknown error"))%list;
         t_cache := cache_after x |}
  end.

Definition bulk_sequential (operation field : string) (cache : Cache)
    (startTime now : Z) (table : string) (items : list JSON)
    (options : BulkOptions) : BulkOperationResult * Cache :=
  let batchSize := num_or (batchSize options) 1000 in
  let batches := chunk items batchSize in
  let t :=
    fold_left
      (sequential_step operation field table options batchSize
         (Z.of_nat (List.length batches)))
      (indexed 0 batches)
      {| t_successful := 0; t_failed := 0; t_errors := [];
         t_cache := cache |} in
  (bulk_result t startTime now, t_cache t).

Definition insertMany := bulk_sequential "insert" "records".
Definition updateMany := bulk_sequential "update" "records".
Definition deleteMany := bulk_sequential "delete" "hash_values".

(** *** [insertManyParallel], [upsertMany] *)

(** Groups of a wave in the order in which their requests settle:
    by settling time, simultaneous ones in dispatch order. *)
Fixpoint settle_insert (g : Z * list JSON) (l : list (Z * list JSON)) :=
  match l with
  | [] => [g]
  | h :: r =>
      if finished (calls (Z.to_nat (fst g)))
           <=? finished (calls (Z.to_nat (fst h)))
      then g :: l else h :: settle_insert g r
  end.

Definition settle_order (wave : list (Z * list JSON)) :=
  fold_right settle_insert [] wave.

(** The [async] callback given to [batchGroup.map], at the moment its
    request settles. The operation is a write, outside
    [cacheableOperations], so the part of [executeQuery] before the
    [await] neither reads nor changes the cache (lemma
    [write_begin_ignores_cache]) and the call is taken whole. *)
Definition parallel_step (operation field table : string)
    (options : BulkOptions) (batchSize : Z) (t : Tally)
    (group : Z * list JSON) : Tally :=
  let (batchNumber, batch) := group in
  let x :=
    executeQuery cfg (t_cache t) (calls (Z.to_nat batchNumber)) operation
      (write_body cfg table field batch (hashAttribute options))
      (query_options options) in
  match outcome x with
  | Ok _ =>
      {| t_successful := t_successful t + Z.of_nat (List.length batch);
         t_failed := t_failed t;
         t_errors := t_errors t;
         t_cache := cache_after x |}
  | Throw e =>
      {| t_successful := t_successful t;
         t_failed := t_failed t + Z.of_nat (List.length batch);
         t_errors :=
           (t_errors t
            ++ batch_errors (batchNumber * batchSize) batch
                 (str_or (Some (error_message e)) "Unknown error"))%list;
         t_cache := cache_after x |}
  end.

(** The loop [for (let i = 0; i < batches.length; i += concurrency)];
    each turn awaits one wave. [None]: the loop is still running when
    [fuel] turns have been made. *)
Fixpoint waves (fuel : nat) (operation field table : string)
    (options : BulkOptions) (batchSize concurrency : Z)
    (batches : list (list JSON)) (i : Z) (t : Tally) : option Tally :=
  if i <? Z.of_nat (List.length batches) then
    match fuel with
    | O => None
    | S fuel =>
        let batchGroup := js_slice batches i (i + concurrency) in
        let t :=
          fold_left (parallel_step operation field table options batchSize)
            (settle_order (indexed i batchGroup)) t in
        waves fuel operation field table options batchSize concurrency
          batches (i + concurrency) t
    end
  else Some t.

Definition bulk_parallel (operation field : string) (invalidate : bool)
    (cache : Cache) (startTime now : Z) (table : string)
    (items : list JSON) (options : BulkOptions)
    : option (BulkOperationResult * Cache) :=
  let batchSize := num_or (batchSize options) 1000 in
  let concurrency :=
    num_or (concurrency options) (num_or (poolSize cfg) 10) in
  let batches := chunk items batchSize in
  match waves (List.length batches) operation field table options
          batchSize concurrency batches 0
          {| t_successful := 0; t_failed := 0; t_errors := [];
             t_cache := cache |} with
  | Some t =>
      let cache :=
        if invalidate
        then invalidateTableCache decodeKey cfg (t_cache t) table
               (Some (write_schema cfg (hashAttribute options)))
        else t_cache t in
      Some (bulk_result t startTime now, cache)
  | None => None
  end.

(** [insertManyParallel] never calls [invalidateTableCache];
    [upsertMany] calls it once after the last wave. *)
Definition insertManyParallel := bulk_parallel "insert" "records" false.
Definition upsertMany := bulk_parallel "upsert" "records" true.

(** *** [insert] and its siblings [update], [upsert] *)

Definition write_one (operation : string) (cache : Cache) (call : Call)
    (table : string) (record : JSON) (options : BulkOptions)
    : Result QueryResult * Cache :=
  let x :=
    executeQuery cfg cache call operation
      (write_body cfg table "records" [record] (hashAttribute options))
      (query_options options) in
  match outcome x with
  | Ok response =>
      (Ok {| q_data := data response;
             q_metadata :=
               {| q_executionTime := returned_at x - started call;
                  recordsAffected := Some (JNum 1) |} |},
       invalidateTableCache decodeKey cfg (cache_after x) table
         (Some (write_schema cfg (hashAttribute options))))
  | Throw e => (Throw e, cache_after x)
  end.

Definition insert := write_one "insert".
Definition update := write_one "update".
Definition upsert := write_one "upsert".

(** *** [select] and [sql] *)

Record SelectOptions : Type := {
  s_query : QueryOptions;
  limit : option Z;
  offset : option Z;
  s_where : option (list (string * JSON));
  orderBy : option string;
  orderDirection : option string;
  s_sql : option string
}.

Definition no_select_options : SelectOptions :=
  {| s_query := no_options; limit := None; offset := None; s_where := None;
     orderBy := None; orderDirection := None; s_sql := None |}.

(** [x || []] *)
Definition or_empty (x : JSON) : JSON :=
  if truthy (Some x) then x else JArr [].

(** [Array.isArray(x) ? x.length : 0] *)
Definition array_length (x : JSON) : Z :=
  match x with
  | JArr l => Z.of_nat (List.length l)
  | _ => 0
  end.

(** [x.length] *)
Definition js_length (x : JSON) : Value :=
  match x with
  | JArr l => Some (JNum (Z.of_nat (List.length l)))
  | JStr s => Some (JNum (Z.of_nat (String.length s)))
  | JObj m => obj_get "length" m
  | _ => None
  end.

(** The rows of a response with their count, as [sql] and the first and
    last branches of [select] return them. *)
Definition rows (response : HarperDBResponse) (startTime now : Z)
    : QueryResult :=
  {| q_data := or_empty (data response);
     q_metadata :=
       {| q_executionTime := now - startTime;
          recordsAffected := Some (JNum (array_length (data response))) |} |}.

Definition sql (cache : Cache) (call : Call) (sqlQuery : string)
    (options : QueryOptions) : Result QueryResult * Cache :=
  let x :=
    executeQuery cfg cache call "sql" (JObj [("sql", JStr sqlQuery)])
      options in
  match outcome x with
  | Ok response =>
      (Ok (rows response (started call) (returned_at x)), cache_after x)
  | Throw e => (Throw e, cache_after x)
  end.

(** [data.sort((a, b) => ...)] of the [where] branch, for the field
    [orderBy] and the direction: the platform's sort under the
    comparator of the source. It throws when [data] has no [sort] method
    or the comparator reads a field of [null]. *)
Variable sort_rows : string -> bool -> JSON -> Result JSON.

Definition is_desc (d : option string) : bool :=
  match d with
  | Some x => (x =? "desc")%string
  | None => false
  end.

(** The statement built by the last branch of [select]. *)
Definition select_statement (table : string) (options : SelectOptions)
    : string :=
  let sql := "SELECT * FROM " ++ getSchema cfg ++ "." ++ table in
  let sql :=
    if negb (num_or (limit options) 0 =? 0)
    then sql ++ " LIMIT " ++ string_of_Z (num_or (limit options) 0)
    else sql in
  let sql :=
    if negb (num_or (offset options) 0 =? 0)
    then sql ++ " OFFSET " ++ string_of_Z (num_or (offset options) 0)
    else sql in
  if truthy_string (str_or (orderBy options) "")
  then sql ++ " ORDER BY " ++ str_or (orderBy options) "" ++ " "
       ++ (if is_desc (orderDirection options) then "DESC" else "ASC")
  else sql.

Definition select (cache : Cache) (call : Call) (table : string)
    (options : SelectOptions) : Result QueryResult * Cache :=
  let startTime := started call in
  let schema := getSchema cfg in
  if truthy_string (str_or (s_sql options) "") then
    let x :=
      executeQuery cfg cache call "sql"
        (JObj [("sql", JStr (str_or (s_sql options) ""))])
        (s_query options) in
    match outcome x with
    | Ok response =>
        (Ok (rows response startTime (returned_at x)), cache_after x)
    | Throw e => (Throw e, cache_after x)
    end
  else
    match s_where options with
    | Some condition =>
        let x :=
          executeQuery cfg cache call "search_by_value"
            (JObj
               (spread_into
                  ([("schema", JStr schema); ("table", JStr table)]
                   ++ match condition with
                      | (k, v) :: _ =>
                          [("search_attribute", JStr k);
                           ("search_value", v)]
                      | [] => []
                      end
                   ++ [("get_attributes", JArr [JStr "*"])])%list
                  (if negb (num_or (limit options) 0 =? 0)
                   then JObj [("limit", JNum (num_or (limit options) 0))]
                   else JNull)))
            (s_query options) in
        match outcome x with
        | Ok response =>
            let data := or_empty (data response) in
            let sorted :=
              if truthy_string (str_or (orderBy options) "")
              then sort_rows (str_or (orderBy options) "")
                     (is_desc (orderDirection options)) data
              else Ok data in
            match sorted with
            | Ok data =>
                (Ok {| q_data := data;
                       q_metadata :=
                         {| q_executionTime := returned_at x - startTime;
                            recordsAffected := js_length data |} |},
                 cache_after x)
            | Throw e => (Throw e, cache_after x)
            end
        | Throw e => (Throw e, cache_after x)
        end
    | None =>
        let x :=
          executeQuery cfg cache call "sql"
            (JObj [("sql", JStr (select_statement table options))])
            (s_query options) in
        match outcome x with
        | Ok response =>
            (Ok (rows response startTime (returned_at x)), cache_after x)
        | Throw _ =>
            (Ok {| q_data := JArr [];
                   q_metadata :=
                     {| q_executionTime := returned_at x - startTime;
                        recordsAffected := Some (JNum 0) |} |},
             cache_after x)
        end
    end.

End Operations.

(** ** [parallel] *)

Record ParallelQueryOptions : Type := {
  p_concurrency : option Z;
  failFast : option bool
}.

Record ParallelQuery : Type := {
  type : string;
  table : option string;
  payload : Value;            (* the field [data] *)
  statement : option string;  (* the field [sql] *)
  options : option QueryOptions
}.

Record ParallelQueryResult : Type := {
  results : list QueryResult;
  p_executionTime : Z;
  p_successful : Z;
  p_failed : Z
}.

(** The method called by each branch of the [switch], with its arguments. *)
Inductive Invocation : Type :=
| call_select (table : option string) (options : option QueryOptions)
| call_insert (table : option string) (data : Value)
    (options : option QueryOptions)
| call_update (table : option string) (data : Value)
    (options : option QueryOptions)
| call_upsert (table : option string) (data : Value)
    (options : option QueryOptions)
| call_delete (table : option string) (data : Value)
    (options : option QueryOptions)
| call_sql (statement : option string) (options : option QueryOptions).

(** A promise once settled: when, and how. *)
Record Promise (A : Type) : Type := {
  settled_at : Z;
  settlement : Result A
}.
Arguments settled_at {A} p.
Arguments settlement {A} p.

(** The rejection that comes first in time, the lower position winning
    between simultaneous ones. *)
Fixpoint first_rejection {A} (ps : list (Promise A)) : option (Z * JsError) :=
  match ps with
  | [] => None
  | p :: r =>
      match settlement p, first_rejection r with
      | Throw e, Some (t, e') =>
          if t <? settled_at p then Some (t, e') else Some (settled_at p, e)
      | Throw e, None => Some (settled_at p, e)
      | Ok _, later => later
      end
  end.

Fixpoint fulfilled {A} (ps : list (Promise A)) : list A :=
  match ps with
  | [] => []
  | p :: r =>
      match settlement p with
      | Ok a => a :: fulfilled r
      | Throw _ => fulfilled r
      end
  end.

(** [await Promise.all(ps)] *)
Definition Promise_all {A} (ps : list (Promise A)) : Result (list A) :=
  match first_rejection ps with
  | Some (_, e) => Throw e
  | None => Ok (fulfilled ps)
  end.

(** What a promise of [queryPromises] resolves to: the result of the
    operation, or the placeholder [{ data: null, error: message }]. *)
Inductive Item : Type :=
| Done (r : QueryResult)
| Placeholder (message : string).

(** A [QueryResult] seen as a plain object. *)
Definition QueryResult_object (r : QueryResult) : JSON :=
  JObj [("data", q_data r);
        ("metadata",
         JObj (("executionTime", JNum (q_executionTime (q_metadata r)))
               :: match recordsAffected (q_metadata r) with
                  | Some n => [("recordsAffected", n)]
                  | None => []
                  end))].

(** [{ data: r.data ?? r, metadata: { executionTime: 0 } }] *)
Definition present (r : Item) : QueryResult :=
  {| q_data :=
       match r with
       | Done q =>
           match q_data q with
           | JNull => QueryResult_object q
           | d => d
           end
       | Placeholder message =>
           JObj [("data", JNull); ("error", JStr message)]
       end;
     q_metadata := {| q_executionTime := 0; recordsAffected := None |} |}.

(** [(r) => r.error === undefined] *)
Definition without_error (r : Item) : bool :=
  match r with
  | Done _ => true
  | Placeholder _ => false
  end.

Section Parallel.
Variable cfg : HarperDBConfig.

(** How the promise returned by the method called for the query at a
    given position settles. *)
Variable invoke : nat -> Invocation -> Promise QueryResult.

(** The [switch] in the body of [queries.map]: the promise of the method
    called for the query, rejected at once for an unknown type. *)
Definition launch (startTime : Z) (iq : Z * ParallelQuery)
    : Promise QueryResult :=
  let (i, query) := iq in
  let n := Z.to_nat i in
  if (type query =? "select")%string then
    invoke n (call_select (table query) (options query))
  else if (type query =? "insert")%string then
    invoke n (call_insert (table query) (payload query) (options query))
  else if (type query =? "update")%string then
    invoke n (call_update (table query) (payload query) (options query))
  else if (type query =? "upsert")%string then
    invoke n (call_upsert (table query) (payload query) (options query))
  else if (type query =? "delete")%string then
    invoke n (call_delete (table query) (payload query) (options query))
  else if (type query =? "sql")%string then
    invoke n (call_sql (statement query) (options query))
  else
    {| settled_at := startTime;
       settlement :=
         Throw {| error_message := "Unknown query type: " ++ type query |} |}.

(** [promise.catch((error) => { if (failFast) throw error;
     return { data: null, error: error.message } })] *)
Definition catch (failFast : bool) (promise : Promise QueryResult)
    : Promise Item :=
  {| settled_at := settled_at promise;
     settlement :=
       match settlement promise with
       | Ok r => Ok (Done r)
       | Throw error =>
           if failFast then Throw error
           else Ok (Placeholder (error_message error))
       end |}.

Definition queryPromise (failFast : bool) (startTime : Z)
    (iq : Z * ParallelQuery) : Promise Item :=
  catch failFast (launch startTime iq).

Definition parallel (queries : list ParallelQuery)
    (options : ParallelQueryOptions) (startTime now : Z)
    : Result ParallelQueryResult :=
  let concurrency :=
    num_or (p_concurrency options) (num_or (poolSize cfg) 10) in
  let failFast := flag (failFast options) in
  let queryPromises :=
    map (queryPromise failFast startTime) (indexed 0 queries) in
  match Promise_all queryPromises with
  | Throw e => Throw e
  | Ok results =>
      let successful :=
        Z.of_nat (List.length (filter without_error results)) in
      let failed := Z.of_nat (List.length results) - successful in
      Ok {| results := map present results;
            p_executionTime := now - startTime;
            p_successful := successful;
            p_failed := failed |}
  end.

End Parallel.

End HarperDB.

Import HarperDB.

(* ================================================================== *)
(** * Part IV. A reference key decoder                                *)
(* ================================================================== *)

(** [invalidateTableCache] reads a key back with
    [JSON.parse(Buffer.from(key, 'base64').toString())]. The client is
    parameterised by that decoder. [Reference.decodeKey] is one such
    decoder, exact on the keys [generateCacheKey] produces: it inverts
    [Buffer_base64] and [JSON_stringify] (lemma [decodeKey_stringify]). *)

Module Reference.

(** *** Base64 *)

Fixpoint index_of (c : ascii) (s : string) (i : N) : option N :=
  match s with
  | EmptyString => None
  | String x r => if (x =? c)%char then Some i else index_of c r (i + 1)%N
  end.

Definition b64_value (c : ascii) : option N := index_of c b64_alphabet 0%N.

Definition is_pad (c : ascii) : bool := (c =? "=")%char.

Fixpoint base64_decode (s : string) : option (list N) :=
  match s with
  | EmptyString => Some []
  | String c1 (String c2 (String c3 (String c4 r))) =>
      match b64_value c1, b64_value c2 with
      | Some v1, Some v2 =>
          let a := (v1 * 4 + v2 / 16)%N in
          if is_pad c3 then
            if is_pad c4 && (v2 mod 16 =? 0)%N
               && match r with EmptyString => true | _ => false end
            then Some [a] else None
          else
            match b64_value c3 with
            | Some v3 =>
                let b := (v2 mod 16 * 16 + v3 / 4)%N in
                if is_pad c4 then
                  if (v3 mod 4 =? 0)%N
                     && match r with EmptyString => true | _ => false end
                  then Some [a; b] else None
                else
                  match b64_value c4, base64_decode r with
                  | Some v4, Some rest =>
                      Some (a :: b :: (v3 mod 4 * 64 + v4)%N :: rest)
                  | _, _ => None
                  end
            | None => None
            end
      | _, _ => None
      end
  | _ => None
  end.

(** *** UTF-8, for code units below U+0100 *)

Fixpoint utf8_decode (bytes : list N) : option string :=
  match bytes with
  | [] => Some ""
  | b :: r =>
      if (b <? 128)%N then
        option_map (String (ascii_of_N b)) (utf8_decode r)
      else
        match r with
        | b' :: r' =>
            if ((194 <=? b) && (b <=? 195) && (128 <=? b') && (b' <? 192))%N
            then option_map (String (ascii_of_N ((b - 192) * 64 + (b' - 128))))
                   (utf8_decode r')
            else None
        | [] => None
        end
  end.

(** *** JSON text *)

Definition hex_value (c : ascii) : option N :=
  index_of c "0123456789abcdef" 0%N.

Definition is_digit (c : ascii) : bool :=
  let n := N_of_ascii c in ((48 <=? n) && (n <=? 57))%N.

(** The text of a string literal after its opening quote: the string, and
    what follows the closing quote. *)
Fixpoint parse_string (s : string) : option (string * string) :=
  match s with
  | EmptyString => None
  | String c r =>
      if (c =? dquote)%char then Some ("", r)
      else if (c =? bslash)%char then
        match r with
        | String e r1 =>
            let simple (x : N) :=
              match parse_string r1 with
              | Some (t, rest) => Some (String (ascii_of_N x) t, rest)
              | None => None
              end in
            if (e =? dquote)%char then simple 34%N
            else if (e =? bslash)%char then simple 92%N
            else if (e =? "b")%char then simple 8%N
            else if (e =? "f")%char then simple 12%N
            else if (e =? "n")%char then simple 10%N
            else if (e =? "r")%char then simple 13%N
            else if (e =? "t")%char then simple 9%N
            else if (e =? "u")%char then
              match r1 with
              | String "0" (String "0" (String h (String l r2))) =>
                  match hex_value h, hex_value l, parse_string r2 with
                  | Some x, Some y, Some (t, rest) =>
                      if (x * 16 + y <? 32)%N
                      then Some (String (ascii_of_N (x * 16 + y)) t, rest)
                      else None
                  | _, _, _ => None
                  end
              | _ => None
              end
            else None
        | EmptyString => None
        end
      else if (N_of_ascii c <? 32)%N then None
      else
        match parse_string r with
        | Some (t, rest) => Some (String c t, rest)
        | None => None
        end
  end.

(** The longest run of digits at the head of a text, and the rest. *)
Fixpoint span_digits (s : string) : string * string :=
  match s with
  | String c r =>
      if is_digit c then
        let (d, rest) := span_digits r in (String c d, rest)
      else ("", s)
  | EmptyString => ("", "")
  end.

Definition parse_number (s : string) : option (Z * string) :=
  match s with
  | String "-" r =>
      let (d, rest) := span_digits r in
      match NilZero.uint_of_string d with
      | Some u => Some (Z.of_int (Neg u), rest)
      | None => None
      end
  | _ =>
      let (d, rest) := span_digits s in
      match NilZero.uint_of_string d with
      | Some u => Some (Z.of_int (Pos u), rest)
      | None => None
      end
  end.

(** What follows [word] in a text that starts with it. *)
Fixpoint expect (word : string) (s : string) : option string :=
  match word, s with
  | EmptyString, _ => Some s
  | String a w, String b r => if (a =? b)%char then expect w r else None
  | String _ _, EmptyString => None
  end.

(** A value at the head of a text, and what follows it. [fuel] bounds the
    number of values and list tails read on the way. *)
Fixpoint parse_value (fuel : nat) (s : string) : option (JSON * string) :=
  match fuel with
  | O => None
  | S fuel =>
      match s with
      | String "n" _ => option_map (pair JNull) (expect "null" s)
      | String "t" _ => option_map (pair (JBool true)) (expect "true" s)
      | String "f" _ => option_map (pair (JBool false)) (expect "false" s)
      | String "[" (String "]" r) => Some (JArr [], r)
      | String "[" r =>
          match parse_elements fuel r with
          | Some (l, rest) => Some (JArr l, rest)
          | None => None
          end
      | String "{" (String "}" r) => Some (JObj [], r)
      | String "{" r =>
          match parse_members fuel r with
          | Some (m, rest) => Some (JObj m, rest)
          | None => None
          end
      | String c r =>
          if (c =? dquote)%char then
            match parse_string r with
            | Some (t, rest) => Some (JStr t, rest)
            | None => None
            end
          else
            match parse_number s with
            | Some (n, rest) => Some (JNum n, rest)
            | None => None
            end
      | EmptyString => None
      end
  end
with parse_elements (fuel : nat) (s : string) : option (list JSON * string) :=
  match fuel with
  | O => None
  | S fuel =>
      match parse_value fuel s with
      | Some (v, String "," r) =>
          match parse_elements fuel r with
          | Some (l, rest) => Some (v :: l, rest)
          | None => None
          end
      | Some (v, String "]" r) => Some ([v], r)
      | _ => None
      end
  end
with parse_members (fuel : nat) (s : string)
    : option (list (string * JSON) * string) :=
  match fuel with
  | O => None
  | S fuel =>
      match s with
      | String c r =>
          if (c =? dquote)%char then
            match parse_string r with
            | Some (k, String ":" r1) =>
                match parse_value fuel r1 with
                | Some (v, String "," r2) =>
                    match parse_members fuel r2 with
                    | Some (m, rest) => Some ((k, v) :: m, rest)
                    | None => None
                    end
                | Some (v, String "}" r2) => Some ([(k, v)], r2)
                | _ => None
                end
            | _ => None
            end
          else None
      | EmptyString => None
      end
  end.

Definition JSON_parse (s : string) : option JSON :=
  match parse_value (S (String.length s)) s with
  | Some (v, EmptyString) => Some v
  | _ => None
  end.

Definition decodeKey (key : string) : option JSON :=
  match base64_decode key with
  | Some bytes =>
      match utf8_decode bytes with
      | Some text => JSON_parse text
      | None => None
      end
  | None => None
  end.

End Reference.

(* ================================================================== *)
(** * Part V. Vocabulary of the properties                            *)
(* ================================================================== *)

Module Spec.

(** A store as the client can hold it: a [Map] has no repeated key, and
    [setCache] never stores under the empty key. *)
Definition cache_wf (cache : Cache) : Prop :=
  NoDup (map_keys cache) /\ Forall (fun k => k <> "") (map_keys cache).

(** One [put]: the arguments of a call to [setCache] and the clock. *)
Record Put : Type := {
  put_at : Z;
  put_key : string;
  put_data : HarperDBResponse;
  put_ttl : option Z
}.

Definition puts (cfg : HarperDBConfig) (cache : Cache) (l : list Put) : Cache :=
  fold_left
    (fun c p => setCache cfg c (put_at p) (put_key p) (put_data p) (put_ttl p))
    l cache.

(** The store [setCache] inserts into, once room has been made. *)
Definition make_room (cfg : HarperDBConfig) (cache : Cache) : Cache :=
  if map_size cache >=? num_or (maxCacheSize cfg) 0 then
    match map_first_key cache with
    | Some firstKey =>
        if truthy_string firstKey then map_delete firstKey cache else cache
    | None => cache
    end
  else cache.

(** [schema || this.config.schema || '']: the schema an invalidation is
    scoped to. *)
Definition scope (cfg : HarperDBConfig) (schema : option string) : string :=
  str_or schema (str_or (Client.schema cfg) "").

(** The decoded request body of a key names [table] and either specifies
    the schema [schemaName] or specifies none (its [schema] field is
    missing or empty). *)
Definition targets (decodeKey : string -> option JSON)
    (table schemaName key : string) : Prop :=
  exists decoded body,
    decodeKey key = Some decoded /\
    prop decoded "body" = Some body /\
    prop body "table" = Some (JStr table) /\
    (prop body "schema" = Some (JStr schemaName)
     \/ truthy (prop body "schema") = false).

(** Whether the loop of [invalidateTableCache] deletes the entry of [key]. *)
Definition deletes (decodeKey : string -> option JSON)
    (table schemaName key : string) : bool :=
  match refers_to decodeKey table schemaName key with
  | Some b => b
  | None => false
  end.

(** A failure of the 4xx class: the server answered, with a status in
    400..499; the request did not time out. *)
Definition client_error (e : AxiosError) : Prop :=
  (exists r, response e = Some r /\ 400 <= status r <= 499)
  /\ code e <> Some "ECONNABORTED".

(** A transient failure: a status of the 5xx class (any status from 500
    up), or a timed-out or aborted connection. *)
Definition transient_failure (e : AxiosError) : Prop :=
  (exists r, response e = Some r /\ 500 <= status r)
  \/ code e = Some "ECONNABORTED".

(** The delay slept through before the [n]-th retry. *)
Definition backoff (cfg : HarperDBConfig) (n : nat) : Z :=
  num_or (retryDelay cfg) 0 * Z.of_nat n.





(** The value a field contributes to the normalized body. *)
Definition normalizeField (v : JSON) : JSON :=
  match v with
  | JObj _ => normalizeBody v
  | _ => v
  end.

(** A byte sequence. *)
Definition octets (l : list N) : Prop := Forall (fun b => (b < 256)%N) l.

(** A text that does not start with a digit: what may follow a number. *)
Definition no_digit_head (s : string) : Prop :=
  match s with
  | EmptyString => True
  | String c _ => Reference.is_digit c = false
  end.

(** The fuel [Reference.parse_value] needs to read a value back. *)
Fixpoint weight (v : JSON) : nat :=
  match v with
  | JArr l => S (fold_right (fun x a => S (weight x) + a)%nat O l)
  | JObj m => S (fold_right (fun kv a => S (weight (snd kv)) + a)%nat O m)
  | _ => 1%nat
  end.

(** The text of [v], followed by anything that does not start with a
    digit, reads back as [v], given enough fuel. *)
Definition reads_back (v : JSON) : Prop :=
  forall fuel rest,
    (weight v <= fuel)%nat -> no_digit_head rest ->
    Reference.parse_value fuel (JSON_stringify v ++ rest) = Some (v, rest).

(** An operation whose responses may be cached. *)
Definition eligible (operation : string) : Prop :=
  includes cacheableOperations (toLowerCase operation) = true.

(** An entry that a lookup at [now] still returns. *)
Definition fresh (now : Z) (entry : CacheEntry) : Prop :=
  now <= timestamp entry + ttl entry.

(** The entry [executeQuery] stores for a successful response. *)
Definition stored (cfg : HarperDBConfig) (call : Call) (options : QueryOptions)
    (response : AxiosResponse) : CacheEntry :=
  {| entry_data := envelope response (finished call - started call);
     timestamp := finished call;
     ttl := num_or (opt_num_or (opt_cacheTTL options) (cacheTTL cfg))
              (num_or (cacheTTL cfg) 0) |}.

(** What the caller gets when the request has been sent. *)
Definition from_network (call : Call) (s : Settled) : Result HarperDBResponse :=
  match s with
  | Fulfilled response =>
      Ok (envelope response (finished call - started call))
  | Rejected error => Throw (query_failed error)
  end.

(** The operations of a [parallel] call, as their promises settle. *)
Definition launched (invoke : nat -> Invocation -> Promise QueryResult)
    (queries : list ParallelQuery) (startTime : Z)
    : list (Promise QueryResult) :=
  map (launch invoke startTime) (indexed 0 queries).

Definition succeeded {A} (p : Promise A) : bool :=
  match settlement p with Ok _ => true | Throw _ => false end.

Definition rejected {A} (p : Promise A) : bool := negb (succeeded p).

(** The entry of the result list for an operation. *)
Definition reported (p : Promise QueryResult) : QueryResult :=
  match settlement p with
  | Ok r => present (Done r)
  | Throw e => present (Placeholder (error_message e))
  end.

(** The request sent for one group of a bulk write. *)
Definition group_request (cfg : HarperDBConfig)
    (operation field table : string) (options : BulkOptions)
    (batch : list JSON) : Request :=
  outbound cfg operation
    (write_body cfg table field batch (hashAttribute options))
    (query_options options).

(** How the group numbered [b] fares: [None] when its request succeeds,
    the message of the error [executeQuery] throws when it fails. *)
Definition verdict (cfg : HarperDBConfig) (calls : nat -> Call)
    (operation field table : string) (options : BulkOptions)
    (group : Z * list JSON) : option string :=
  match send (calls (Z.to_nat (fst group)))
          (group_request cfg operation field table options (snd group)) with
  | Fulfilled _ => None
  | Rejected e => Some (error_message (query_failed e))
  end.

(** The group an input position falls in, for a given group size. *)
Definition group_at (items : list JSON) (size : Z) (i : Z) : Z * list JSON :=
  (i / size,
   firstn (Z.to_nat size) (skipn (Z.to_nat (i / size * size)) items)).

(** The error list of a bulk result, empty when the field is absent. *)
Definition error_list (r : BulkOperationResult) : list BulkError :=
  match errors r with
  | Some l => l
  | None => []
  end.

(** A bulk write: an operation that is never cached. *)
Definition write_operation (operation : string) : Prop :=
  includes cacheableOperations (toLowerCase operation) = false.

(** The counters of a tally, and what one settled group adds to them. *)
Definition counts (t : Tally) : Z * Z * list BulkError :=
  (t_successful t, t_failed t, t_errors t).

Definition size (group : Z * list JSON) : Z :=
  Z.of_nat (List.length (snd group)).

Definition group_errors (batchSize : Z) (fate : Z * list JSON -> option string)
    (group : Z * list JSON) : list BulkError :=
  match fate group with
  | None => []
  | Some msg => batch_errors (fst group * batchSize) (snd group) msg
  end.

Definition count_group (batchSize : Z)
    (fate : Z * list JSON -> option string)
    (c : Z * Z * list BulkError) (group : Z * list JSON)
    : Z * Z * list BulkError :=
  let '(s, f, e) := c in
  match fate group with
  | None => (s + size group, f, e)
  | Some msg => (s, f + size group, (e ++ group_errors batchSize fate group)%list)
  end.

(** Sum of a measure over groups. *)
Definition total (f : Z * list JSON -> Z) (groups : list (Z * list JSON)) : Z :=
  fold_right (fun g a => f g + a) 0 groups.

Definition size_if (p : Z * list JSON -> bool) (group : Z * list JSON) : Z :=
  if p group then size group else 0.

Definition failed_group (fate : Z * list JSON -> option string)
    (group : Z * list JSON) : bool :=
  match fate group with Some _ => true | None => false end.

(** A bulk result that accounts for every input record: the two counters
    add up to the number of records, [failed] counts the error entries,
    [successful] is the total size of the groups whose request succeeded,
    and the error list holds exactly one entry per record of a failed
    group, with the position of the record in the input and the message
    of the error of its group. *)
Definition accounted (items : list JSON) (batchSize : Z)
    (fate : Z * list JSON -> option string) (r : BulkOperationResult) : Prop :=
  successful r + failed r = Z.of_nat (List.length items)
  /\ successful r
     = total (size_if (fun g => negb (failed_group fate g)))
         (indexed 0 (chunk items batchSize))
  /\ failed r = Z.of_nat (List.length (error_list r))
  /\ (forall i msg,
        In {| index := i; error := msg |} (error_list r)
        <-> 0 <= i < Z.of_nat (List.length items)
            /\ fate (group_at items batchSize i) = Some msg)
  /\ (errors r = None <-> error_list r = []).

(** The group size and the wave width in force for a call. *)
Definition group_size (options : BulkOptions) : Z :=
  num_or (batchSize options) 1000.

Definition wave_width (cfg : HarperDBConfig) (options : BulkOptions) : Z :=
  num_or (concurrency options) (num_or (poolSize cfg) 10).

Definition settled_of (x : option Exchange) : option Settled :=
  option_map settled x.

Definition delays_of (x : option Exchange) : option (list Z) :=
  option_map delays x.

(** Sample data for the worked instances. *)

Definition sample_config : HarperDBConfig :=
  new_config
    {| schema := Some "dev"; timeout := None; maxRetries := None;
       retryDelay := None; poolSize := None; apiPath := None;
       enableCache := Some true; cacheTTL := None; maxCacheSize := Some 2 |}.

Definition sample_response (n : Z) : HarperDBResponse :=
  {| message := JStr "Success";
     data := JArr [JNum n];
     metadata := {| executionTime := 7; cached := false |} |}.

Definition sample_entry (n at_ for_ : Z) : CacheEntry :=
  {| entry_data := sample_response n; timestamp := at_; ttl := for_ |}.

Definition http_error (code_ : Z) : AxiosError :=
  {| response := Some {| status := code_; response_data := JNull |};
     code := Some (if code_ <? 500 then "ERR_BAD_REQUEST"
                   else "ERR_BAD_RESPONSE");
     axios_message := "Request failed with status code " ++ string_of_Z code_ |}.

Definition timeout_error : AxiosError :=
  {| response := None; code := Some "ECONNABORTED";
     axios_message := "timeout of 30000ms exceeded" |}.

Definition http_ok (payload : JSON) : AxiosResponse :=
  {| status := 200; response_data := payload |}.

Definition with_cache (b : option bool) : QueryOptions :=
  {| opt_timeout := None; opt_retries := None; useCache := b;
     opt_cacheTTL := None |}.

(** A call started at [t0] whose request settles at [t1] as [s]. *)
Definition sample_call (t0 t1 : Z) (s : Settled) : Call :=
  {| started := t0; send := fun _ => s; finished := t1 |}.

Definition config_without_cache : HarperDBConfig :=
  new_config
    {| schema := Some "dev"; timeout := None; maxRetries := None;
       retryDelay := None; poolSize := None; apiPath := None;
       enableCache := Some false; cacheTTL := None; maxCacheSize := None |}.

Definition select_one : JSON := JObj [("sql", JStr "SELECT 1")].

(** Every request succeeds, except those of the groups listed in [bad],
    which are answered 503. *)
Definition calls_failing (bad : list nat) (group : nat) : Call :=
  sample_call 10 (20 + Z.of_nat group)
    (if existsb (Nat.eqb group) bad then Rejected (http_error 503)
     else Fulfilled (http_ok (JObj [("message", JStr "ok")]))).

Definition with_batches (size width : option Z) : BulkOptions :=
  {| query_options := no_options; hashAttribute := None;
     batchSize := size; concurrency := width |}.

Definition record (n : nat) : JSON := JObj [("id", JNum (Z.of_nat n))].

(** A cached search on the table [orders] of the schema [dev]. *)
Definition orders_search : JSON :=
  JObj [("schema", JStr "dev"); ("table", JStr "orders");
        ("search_attribute", JStr "status"); ("search_value", JStr "open");
        ("get_attributes", JArr [JStr "*"])].

Definition orders_key : string :=
  Eval vm_compute in generateCacheKey "search_by_value" orders_search.

(** Cached reads: three on [orders] (schema [dev], no schema, schema
    [prod]), one on [users], and an entry under a key that does not
    decode. *)
Definition read_of (table : string) (schema : option string) : JSON :=
  JObj (match schema with
        | Some s => [("schema", JStr s)]
        | None => []
        end ++ [("table", JStr table)])%list.

Definition sample_cache : Cache :=
  Eval vm_compute in
    [(generateCacheKey "search_by_value" (read_of "orders" (Some "dev")),
      sample_entry 1 0 5000);
     (generateCacheKey "search_by_value" (read_of "orders" None),
      sample_entry 2 0 5000);
     (generateCacheKey "search_by_value" (read_of "orders" (Some "prod")),
      sample_entry 3 0 5000);
     (generateCacheKey "describe_table" (read_of "users" (Some "dev")),
      sample_entry 4 0 5000);
     ("not base64 text", sample_entry 5 0 5000)].

(** Three operations, the second of which fails. *)
Definition three_queries : list ParallelQuery :=
  [{| type := "select"; table := Some "users"; payload := None;
      statement := None; options := None |};
   {| type := "insert"; table := Some "logs";
      payload := Some (JObj [("message", JStr "Query executed")]);
      statement := None; options := None |};
   {| type := "sql"; table := None; payload := None;
      statement := Some "SELECT 1"; options := None |}].

Definition second_fails (n : nat) (_ : Invocation) : Promise QueryResult :=
  {| settled_at := 10 + Z.of_nat n;
     settlement :=
       if (n =? 1)%nat
       then Throw {| error_message := "HarperDB query failed: boom" |}
       else Ok {| q_data := JArr [JNum (Z.of_nat n)];
                  q_metadata := {| q_executionTime := 3;
                                   recordsAffected := Some (JNum 1) |} |} |}.






End Spec.

Import Spec.

(* ================================================================== *)
(** * Part VI. Further methods, the query builder, further vocabulary *)
(* ================================================================== *)


Module Methods.

Section Methods.
Variable decodeKey : string -> option JSON.
Variable cfg : HarperDBConfig.

(** ** [delete] *)

(** [response.data || { deleted_hashes: [hashValue] }] *)
Definition deleted (response : HarperDBResponse) (hashValue : string) : JSON :=
  if truthy (Some (data response)) then data response
  else JObj [("deleted_hashes", JArr [JStr hashValue])].

Definition delete (cache : Cache) (call : Call) (table hashValue : string)
    (options : BulkOptions) : Result QueryResult * Cache :=
  let x :=
    executeQuery cfg cache call "delete"
      (write_body cfg table "hash_values" [JStr hashValue]
         (hashAttribute options))
      (query_options options) in
  match outcome x with
  | Ok response =>
      (Ok {| q_data := deleted response hashValue;
             q_metadata :=
               {| q_executionTime := returned_at x - started call;
                  recordsAffected := Some (JNum 1) |} |},
       invalidateTableCache decodeKey cfg (cache_after x) table
         (Some (write_schema cfg (hashAttribute options))))
  | Throw e => (Throw e, cache_after x)
  end.

(** ** Reads by hash and by value *)

(** [{ schema, table, hash_values, get_attributes: ['*'] }] *)
Definition hash_body (table : string) (hashValues : list string) : JSON :=
  JObj [("schema", JStr (getSchema cfg)); ("table", JStr table);
        ("hash_values", JArr (map JStr hashValues));
        ("get_attributes", JArr [JStr "*"])].

(** [Array.isArray(d) && d.length > 0 ? d[0] : null] *)
Definition first_or_null (d : JSON) : JSON :=
  match d with
  | JArr (row :: _) => row
  | _ => JNull
  end.

Definition getByHash (cache : Cache) (call : Call) (table hashValue : string)
    (options : QueryOptions) : Result QueryResult * Cache :=
  let x :=
    executeQuery cfg cache call "search_by_hash"
      (hash_body table [hashValue]) options in
  match outcome x with
  | Ok response =>
      let data := first_or_null (data response) in
      (Ok {| q_data := data;
             q_metadata :=
               {| q_executionTime := returned_at x - started call;
                  recordsAffected :=
                    Some (JNum (if truthy (Some data) then 1 else 0)) |} |},
       cache_after x)
  | Throw e => (Throw e, cache_after x)
  end.

Definition getByHashes (cache : Cache) (call : Call) (table : string)
    (hashValues : list string) (options : QueryOptions)
    : Result QueryResult * Cache :=
  match hashValues with
  | [] =>
      (Ok {| q_data := JArr [];
             q_metadata :=
               {| q_executionTime := 0;
                  recordsAffected := Some (JNum 0) |} |},
       cache)
  | _ :: _ =>
      let x :=
        executeQuery cfg cache call "search_by_hash"
          (hash_body table hashValues) options in
      match outcome x with
      | Ok response =>
          (Ok (rows response (started call) (returned_at x)), cache_after x)
      | Throw e => (Throw e, cache_after x)
      end
  end.

(** [getAttributes: string[] = ['*']] *)
Definition attributes_or_all (getAttributes : option (list string))
    : list string :=
  match getAttributes with
  | Some l => l
  | None => ["*"]
  end.

Definition searchByValue (cache : Cache) (call : Call)
    (table searchAttribute : string) (searchValue : JSON)
    (getAttributes : option (list string)) (options : QueryOptions)
    : Result QueryResult * Cache :=
  let x :=
    executeQuery cfg cache call "search_by_value"
      (JObj [("schema", JStr (getSchema cfg)); ("table", JStr table);
             ("search_attribute", JStr searchAttribute);
             ("search_value", searchValue);
             ("get_attributes",
              JArr (map JStr (attributes_or_all getAttributes)))])
      options in
  match outcome x with
  | Ok response =>
      (Ok (rows response (started call) (returned_at x)), cache_after x)
  | Throw e => (Throw e, cache_after x)
  end.

(** ** Descriptive and administrative requests *)

(** The body shared by the methods that send one request and return
    [{ data: response.data, metadata: { executionTime } }]. *)
Definition request (operation : string) (body : JSON) (cache : Cache)
    (call : Call) (options : QueryOptions) : Result QueryResult * Cache :=
  let x := executeQuery cfg cache call operation body options in
  match outcome x with
  | Ok response =>
      (Ok {| q_data := data response;
             q_metadata :=
               {| q_executionTime := returned_at x - started call;
                  recordsAffected := None |} |},
       cache_after x)
  | Throw e => (Throw e, cache_after x)
  end.

(** The same with [data: response.data || []]. *)
Definition listing (operation : string) (body : JSON) (cache : Cache)
    (call : Call) (options : QueryOptions) : Result QueryResult * Cache :=
  let x := executeQuery cfg cache call operation body options in
  match outcome x with
  | Ok response =>
      (Ok {| q_data := or_empty (data response);
             q_metadata :=
               {| q_executionTime := returned_at x - started call;
                  recordsAffected := None |} |},
       cache_after x)
  | Throw e => (Throw e, cache_after x)
  end.

Definition describeTable (cache : Cache) (call : Call) (table : string)
    (options : QueryOptions) :=
  request "describe_table"
    (JObj [("schema", JStr (getSchema cfg)); ("table", JStr table)])
    cache call options.

Definition dropTable (cache : Cache) (call : Call) (table : string)
    (options : QueryOptions) :=
  request "drop_table"
    (JObj [("schema", JStr (getSchema cfg)); ("table", JStr table)])
    cache call options.

(** [hashAttribute: string = 'id'] *)
Definition createTable (cache : Cache) (call : Call) (table : string)
    (hashAttribute : option string) (options : QueryOptions) :=
  request "create_table"
    (JObj [("schema", JStr (getSchema cfg)); ("table", JStr table);
           ("hash_attribute",
            JStr (match hashAttribute with Some h => h | None => "id" end))])
    cache call options.

Definition createSchema (cache : Cache) (call : Call) (schema : string)
    (options : QueryOptions) :=
  request "create_schema" (JObj [("schema", JStr schema)]) cache call options.

Definition dropSchema (cache : Cache) (call : Call) (schema : string)
    (options : QueryOptions) :=
  request "drop_schema" (JObj [("schema", JStr schema)]) cache call options.

Definition listSchemas (cache : Cache) (call : Call) (options : QueryOptions) :=
  listing "list_schemas" (JObj []) cache call options.

Definition listTables (cache : Cache) (call : Call) (schema : option string)
    (options : QueryOptions) :=
  listing "list_tables"
    (JObj [("schema", JStr (str_or schema (getSchema cfg)))])
    cache call options.

Definition systemInformation (cache : Cache) (call : Call)
    (options : QueryOptions) :=
  request "system_information" (JObj []) cache call options.

(** ** Probes *)

(** [healthCheck]: [systemInformation] awaited inside a [try]; the status
    says how it ended, the timestamp is the clock at that moment. *)
Definition healthCheck (cache : Cache) (call : Call) (options : QueryOptions)
    : Result QueryResult * Cache :=
  let x := executeQuery cfg cache call "system_information" (JObj []) options in
  let status :=
    match fst (systemInformation cache call options) with
    | Ok _ => "healthy"
    | Throw _ => "unhealthy"
    end in
  (Ok {| q_data := JObj [("status", JStr status);
                         ("timestamp", JNum (returned_at x))];
         q_metadata :=
           {| q_executionTime := returned_at x - started call;
              recordsAffected := None |} |},
   snd (systemInformation cache call options)).

Definition testConnection (cache : Cache) (call : Call)
    (options : QueryOptions) : Result bool * Cache :=
  match systemInformation cache call options with
  | (Ok _, cache') => (Ok true, cache')
  | (Throw _, cache') => (Ok false, cache')
  end.

(** The [schema] argument of [tableExists] is not used. *)
Definition tableExists (cache : Cache) (call : Call) (table : string)
    (schema : option string) (options : QueryOptions) : Result bool * Cache :=
  match describeTable cache call table options with
  | (Ok _, cache') => (Ok true, cache')
  | (Throw _, cache') => (Ok false, cache')
  end.

(** [Array.isArray(d) && d.includes(s)] for a string [s] *)
Definition includes_string (d : JSON) (s : string) : bool :=
  match d with
  | JArr l =>
      existsb (fun v => match v with
                        | JStr x => (x =? s)%string
                        | _ => false
                        end) l
  | _ => false
  end.

Definition schemaExists (cache : Cache) (call : Call) (schema : string)
    (options : QueryOptions) : Result bool * Cache :=
  match listSchemas cache call options with
  | (Ok schemas, cache') =>
      (Ok (includes_string (q_data schemas) schema), cache')
  | (Throw _, cache') => (Ok false, cache')
  end.

(** [exists]: [result.data !== null && result.data !== undefined] *)
Definition exists_ (cache : Cache) (call : Call) (table hashValue : string)
    (options : QueryOptions) : Result bool * Cache :=
  match getByHash cache call table hashValue options with
  | (Ok result, cache') =>
      (Ok (match q_data result with JNull => false | _ => true end), cache')
  | (Throw _, cache') => (Ok false, cache')
  end.

(** ** [count], [findOne], [findMany], [search] *)

Variable sort_rows : string -> bool -> JSON -> Result JSON.

(** The [options] of a call that passes [QueryOptions] where
    [SelectOptions] are expected. *)
Definition as_select (options : QueryOptions) : SelectOptions :=
  {| s_query := options; limit := None; offset := None; s_where := None;
     orderBy := None; orderDirection := None; s_sql := None |}.

(** [{ data: n, metadata: { executionTime } }] *)
Definition counted (n : JSON) (executionTime : Z) : QueryResult :=
  {| q_data := n;
     q_metadata := {| q_executionTime := executionTime;
                      recordsAffected := None |} |}.

(** [count]: [first] surrounds the first request made, [second] the one
    made by the [catch] block when the first has failed. The [schema]
    argument only feeds [schemaName], which is not used. *)
Definition count (cache : Cache) (first second : Call) (table : string)
    (condition : option (list (string * JSON))) (schema : option string)
    (options : QueryOptions) : Result QueryResult * Cache :=
  let startTime := started first in
  match condition with
  | Some ((searchAttr, searchVal) :: _) =>
      match searchByValue cache first table searchAttr searchVal
              (Some ["*"]) options with
      | (Ok result, cache') =>
          (Ok (counted (JNum (array_length (q_data result)))
                 (q_executionTime (q_metadata result))),
           cache')
      | (Throw e, cache') => (Throw e, cache')
      end
  | _ =>
      match describeTable cache first table options with
      | (Ok desc, cache') =>
          let recordCount :=
            match js_or (prop (q_data desc) "record_count")
                    (Some (JNum 0)) with
            | Some n => n
            | None => JNum 0
            end in
          (Ok (counted recordCount (q_executionTime (q_metadata desc))),
           cache')
      | (Throw _, cache') =>
          match select cfg sort_rows cache' second table
                  (as_select options) with
          | (Ok result, cache'') =>
              (Ok (counted (JNum (array_length (q_data result)))
                     (q_executionTime (q_metadata result)
                      + (started second - startTime))),
               cache'')
          | (Throw e, cache'') => (Throw e, cache'')
          end
      end
  end.

(** [{ ...options, where: condition, limit: 1 }] *)
Definition one_where (condition : list (string * JSON))
    (options : SelectOptions) : SelectOptions :=
  {| s_query := s_query options; limit := Some 1; offset := offset options;
     s_where := Some condition; orderBy := orderBy options;
     orderDirection := orderDirection options; s_sql := s_sql options |}.

(** [{ ...options, where: condition }] *)
Definition all_where (condition : list (string * JSON))
    (options : SelectOptions) : SelectOptions :=
  {| s_query := s_query options; limit := limit options;
     offset := offset options; s_where := Some condition;
     orderBy := orderBy options; orderDirection := orderDirection options;
     s_sql := s_sql options |}.

Definition findOne (cache : Cache) (call : Call) (table : string)
    (condition : list (string * JSON)) (options : SelectOptions)
    : Result QueryResult * Cache :=
  match select cfg sort_rows cache call table (one_where condition options) with
  | (Ok result, cache') =>
      (Ok {| q_data := first_or_null (q_data result);
             q_metadata :=
               {| q_executionTime := q_executionTime (q_metadata result);
                  recordsAffected :=
                    Some (JNum (if truthy (Some (q_data result))
                                then 1 else 0)) |} |},
       cache')
  | (Throw e, cache') => (Throw e, cache')
  end.

Definition findMany (cache : Cache) (call : Call) (table : string)
    (condition : list (string * JSON)) (options : SelectOptions)
    : Result QueryResult * Cache :=
  select cfg sort_rows cache call table (all_where condition options).

End Methods.

(** ** [transaction], [batch], [promiseAll] *)

(** The operations handed to [transaction] are functions that start an
    asynchronous computation. [transaction] awaits each before calling the
    next, so an operation is a function of the state [S] it finds (the
    database, the client) to how it settles and the state it leaves. *)
Section Transaction.
Variable S : Type.

(** [Date.now()] in a state. *)
Variable clock : S -> Z.





End Transaction.

(** [{ success: true, data }] or [{ success: false, error }] *)
Record Outcome : Type := {
  success : bool;
  o_data : Value;
  o_error : option string
}.

(** What [Promise.allSettled] reports for a promise, as mapped by
    [batch] and [promiseAll]. *)
Definition settled_outcome (p : Promise JSON) : Outcome :=
  match settlement p with
  | Ok value => {| success := true; o_data := Some value; o_error := None |}
  | Throw reason =>
      {| success := false; o_data := None;
         o_error :=
           Some (str_or (Some (error_message reason)) "Unknown error") |}
  end.

Definition fulfilled_outcome (value : JSON) : Outcome :=
  {| success := true; o_data := Some value; o_error := None |}.

(** [promiseAll]: the promises are already running when it is called. *)
Definition promiseAll (promises : list (Promise JSON)) (failFast : option bool)
    : Result (list Outcome) :=
  if flag failFast then
    match Promise_all promises with
    | Ok results => Ok (map fulfilled_outcome results)
    | Throw error =>
        Throw {| error_message :=
                   "Promise.all failed: " ++ error_message error |}
    end
  else Ok (map settled_outcome promises).

Record BatchOptions : Type := {
  b_concurrency : option Z;
  b_failFast : option bool
}.

(** How a call to [batch] ends, and the positions of the operations it
    has called by then. *)
Record BatchRun : Type := {
  batch_result : Result (list Outcome);
  called : list Z
}.

(** The loop [for (let i = 0; i < operations.length; i += concurrency)].
    An operation is given by the promise that calling it returns.
    [None]: the loop is still running after [fuel] turns. *)
Fixpoint batch_loop (fuel : nat) (operations : list (Promise JSON))
    (concurrency : Z) (failFast : bool) (i : Z) (results : list Outcome)
    (called : list Z) : option BatchRun :=
  if i <? Z.of_nat (List.length operations) then
    match fuel with
    | O => None
    | S fuel =>
        let batch := js_slice (indexed 0 operations) i (i + concurrency) in
        let batchPromises := map snd batch in
        let called := (called ++ map fst batch)%list in
        if failFast then
          match Promise_all batchPromises with
          | Ok batchResults =>
              batch_loop fuel operations concurrency failFast
                (i + concurrency)
                (results ++ map fulfilled_outcome batchResults)%list called
          | Throw error =>
              Some {| batch_result := Throw error; called := called |}
          end
        else
          batch_loop fuel operations concurrency failFast (i + concurrency)
            (results ++ map settled_outcome batchPromises)%list called
    end
  else Some {| batch_result := Ok results; called := called |}.

Definition batch (cfg : HarperDBConfig) (operations : list (Promise JSON))
    (options : BatchOptions) : option BatchRun :=
  let concurrency :=
    num_or (b_concurrency options) (num_or (poolSize cfg) 10) in
  let failFast := flag (b_failFast options) in
  batch_loop (List.length operations) operations concurrency failFast 0 [] [].

(** ** [clearTable] *)

Section Clearing.
Variable decodeKey : string -> option JSON.
Variable cfg : HarperDBConfig.
Variable sort_rows : string -> bool -> JSON -> Result JSON.

(** The [TypeError] the platform throws when a property of [null] is
    read. *)
Variable null_read : JsError.





End Clearing.

End Methods.

(** ** [query-builder.ts]: class [QueryBuilder] *)

Module QueryBuilder.

(** The builder: its table and the options gathered so far. The client
    it holds is the one [execute] is run against. Each method assigns one
    or two fields of [this.options] and returns [this]. *)
Record QueryBuilder : Type := {
  table : string;
  options : SelectOptions
}.

(** [new QueryBuilder(harperDB, table)]: [options] starts as [{}]. *)
Definition new (table : string) : QueryBuilder :=
  {| table := table; options := no_select_options |}.

Definition where_ (condition : list (string * JSON)) (b : QueryBuilder)
    : QueryBuilder :=
  let o := options b in
  {| table := table b;
     options :=
       {| s_query := s_query o;
          HarperDB.limit := HarperDB.limit o;
          HarperDB.offset := HarperDB.offset o;
          s_where := Some condition;
          HarperDB.orderBy := HarperDB.orderBy o;
          orderDirection := orderDirection o;
          s_sql := s_sql o |} |}.

Definition limit (count : Z) (b : QueryBuilder) : QueryBuilder :=
  let o := options b in
  {| table := table b;
     options :=
       {| s_query := s_query o;
          HarperDB.limit := Some count;
          HarperDB.offset := HarperDB.offset o;
          s_where := s_where o;
          HarperDB.orderBy := HarperDB.orderBy o;
          orderDirection := orderDirection o;
          s_sql := s_sql o |} |}.

Definition offset (count : Z) (b : QueryBuilder) : QueryBuilder :=
  let o := options b in
  {| table := table b;
     options :=
       {| s_query := s_query o;
          HarperDB.limit := HarperDB.limit o;
          HarperDB.offset := Some count;
          s_where := s_where o;
          HarperDB.orderBy := HarperDB.orderBy o;
          orderDirection := orderDirection o;
          s_sql := s_sql o |} |}.

(** [orderBy(field, direction = 'asc')] *)
Definition orderBy (field : string) (direction : option string)
    (b : QueryBuilder) : QueryBuilder :=
  let o := options b in
  {| table := table b;
     options :=
       {| s_query := s_query o;
          HarperDB.limit := HarperDB.limit o;
          HarperDB.offset := HarperDB.offset o;
          s_where := s_where o;
          HarperDB.orderBy := Some field;
          orderDirection :=
            Some (match direction with Some d => d | None => "asc" end);
          s_sql := s_sql o |} |}.

Definition execute (cfg : HarperDBConfig)
    (sort_rows : string -> bool -> JSON -> Result JSON) (cache : Cache)
    (call : Call) (b : QueryBuilder) : Result QueryResult * Cache :=
  select cfg sort_rows cache call (table b) (options b).

End QueryBuilder.

(** ** Sessions of the executor *)

Module Terms.

(** One call to [executeQuery], with its surroundings. *)
Record Query : Type := {
  query_call : Call;
  query_operation : string;
  query_body : JSON;
  query_options : QueryOptions
}.

Definition run_query (cfg : HarperDBConfig) (cache : Cache) (q : Query)
    : Executed :=
  executeQuery cfg cache (query_call q) (query_operation q) (query_body q)
    (query_options q).

(** The store after the calls of [l], each awaited before the next. *)
Definition session (cfg : HarperDBConfig) (cache : Cache) (l : list Query)
    : Cache :=
  fold_left (fun c q => cache_after (run_query cfg c q)) l cache.

(** Caching is in force for a call: the configuration enables it and the
    options of the call do not switch it off. *)
Definition caching (cfg : HarperDBConfig) (options : QueryOptions) : Prop :=
  flag (enableCache cfg) = true /\ useCache options <> Some false.

(** The [n]-th of a series of distinct raw queries, sent at [t0] and
    answered 50 ms later. *)
Definition sample_query (n t0 : Z) : Query :=
  {| query_call :=
       sample_call t0 (t0 + 50) (Fulfilled (http_ok (JArr [JNum n])));
     query_operation := "sql";
     query_body := JObj [("sql", JStr ("SELECT " ++ string_of_Z n))];
     query_options := no_options |}.

(** The sum of the delays slept through. *)
Definition total_delay (l : list Z) : Z := fold_right Z.add 0 l.

(** A key decoder that reads the keys of [generateCacheKey] back, as
    [JSON.parse(Buffer.from(key, 'base64').toString())] does. *)
Definition reads_keys (decodeKey : string -> option JSON) : Prop :=
  forall operation body,
    eligible operation ->
    decodeKey (generateCacheKey operation body)
    = Some (JObj [("operation", JStr operation);
                  ("body", normalizeBody body)]).

(** The body of a read names [table] in the schema of the client, or in
    no schema. *)
Definition names_table (cfg : HarperDBConfig) (table : string)
    (m : list (string * JSON)) : Prop :=
  obj_get "table" m = Some (JStr table)
  /\ (obj_get "schema" m = Some (JStr (getSchema cfg))
      \/ truthy (obj_get "schema" m) = false).

(** What a method makes of the reply to its one request. *)
Definition reply_of {A} (s : Settled) (call : Call)
    (make : HarperDBResponse -> A) : Result A :=
  match from_network call s with
  | Ok response => Ok (make response)
  | Throw e => Throw e
  end.

(** The platform's sort, as far as its result goes: [Array.prototype.sort]
    returns the array it was called on. *)
Definition returns_array (sort_rows : string -> bool -> JSON -> Result JSON)
    : Prop :=
  forall field descending data sorted,
    sort_rows field descending data = Ok sorted -> exists l, sorted = JArr l.

(** A sort that leaves the rows as they are, for the worked instances. *)
Definition unsorted (field : string) (descending : bool) (data : JSON)
    : Result JSON :=
  match data with
  | JArr _ => Ok data
  | _ => Throw {| error_message := "data.sort is not a function" |}
  end.

(** The [options] with a [where] condition and a few settings. *)
Definition filtered (condition : list (string * JSON)) (limit offset : option Z)
    : SelectOptions :=
  {| s_query := no_options; HarperDB.limit := limit;
     HarperDB.offset := offset; s_where := Some condition;
     orderBy := None; orderDirection := None; s_sql := None |}.



(** An operation on a counter: it adds [n] and returns the sum, or
    fails and leaves the counter as it is. *)
Definition add (n : Z) (s : Z) : Result JSON * Z := (Ok (JNum (s + n)), s + n).


(** A promise that settles at [t]. *)
Definition resolved (t : Z) (v : JSON) : Promise JSON :=
  {| settled_at := t; settlement := Ok v |}.

Definition failing (t : Z) (message : string) : Promise JSON :=
  {| settled_at := t; settlement := Throw {| error_message := message |} |}.

(** A call made on a builder. *)
Inductive Step : Type :=
| set_where (condition : list (string * JSON))
| set_limit (count : Z)
| set_offset (count : Z)
| set_orderBy (field : string) (direction : option string).

Definition apply_step (b : QueryBuilder.QueryBuilder) (s : Step)
    : QueryBuilder.QueryBuilder :=
  match s with
  | set_where condition => QueryBuilder.where_ condition b
  | set_limit count => QueryBuilder.limit count b
  | set_offset count => QueryBuilder.offset count b
  | set_orderBy field direction => QueryBuilder.orderBy field direction b
  end.

(** The builder after a chain of calls on [new QueryBuilder(db, table)]. *)
Definition chain (table : string) (steps : list Step)
    : QueryBuilder.QueryBuilder :=
  fold_left apply_step steps (QueryBuilder.new table).

(** The value given by the last call of [steps] that [pick] selects,
    [init] when there is none. *)
Definition latest {A} (pick : Step -> option A) (steps : list Step)
    (init : option A) : option A :=
  fold_left (fun acc s => match pick s with
                          | Some a => Some a
                          | None => acc
                          end) steps init.

Definition where_of (s : Step) : option (list (string * JSON)) :=
  match s with set_where c => Some c | _ => None end.

Definition limit_of (s : Step) : option Z :=
  match s with set_limit n => Some n | _ => None end.

Definition offset_of (s : Step) : option Z :=
  match s with set_offset n => Some n | _ => None end.

Definition field_of (s : Step) : option string :=
  match s with set_orderBy f _ => Some f | _ => None end.

Definition direction_of (s : Step) : option string :=
  match s with
  | set_orderBy _ d => Some (match d with Some x => x | None => "asc" end)
  | _ => None
  end.

(** The last group of a bulk write. *)
Definition last_group (items : list JSON) (size : Z) : Z * list JSON :=
  last (indexed 0 (chunk items size)) (0, []).

(** A configuration that leaves every optional setting out. *)
Definition bare_config : HarperDBConfig :=
  {| schema := None; timeout := None; maxRetries := None;
     retryDelay := None; poolSize := None; apiPath := None;
     enableCache := None; cacheTTL := None; maxCacheSize := None |}.

(** A transport that fails with a timeout [k] times and then answers. *)
Definition flaky (k : nat) (n : nat) : Settled :=
  if (n <? k)%nat then Rejected timeout_error
  else Fulfilled (http_ok (JArr [JNum 1])).

End Terms.

(* ================================================================== *)
(** * Part VII. Properties                                            *)
(* ================================================================== *)

(** ** The map underneath the cache *)

Section MapFacts.
Context {V : Type}.
Implicit Types (m : list (string * V)) (k : string) (v : V).

Lemma map_has_In k m : map_has k m = true <-> In k (map_keys m).
Proof.
  unfold map_has. induction m as [|[k' v'] r IH]; simpl.
  - split; [discriminate | tauto].
  - destruct (String.eqb_spec k k') as [->|Hne].
    + split; auto.
    + rewrite IH. split; [auto | intros [H|H]; [congruence | exact H]].
Qed.

Lemma map_get_None k m : map_get k m = None <-> ~ In k (map_keys m).
Proof.
  rewrite <- map_has_In. unfold map_has.
  destruct (map_get k m); split; congruence.
Qed.

Lemma map_get_In k v m : map_get k m = Some v -> In (k, v) m.
Proof.
  induction m as [|[k' v'] r IH]; simpl; [discriminate|].
  destruct (String.eqb_spec k k') as [->|Hne].
  - intros [= ->]. now left.
  - intros H. right. auto.
Qed.

Lemma In_map_get k v m :
  NoDup (map_keys m) -> In (k, v) m -> map_get k m = Some v.
Proof.
  induction m as [|[k' v'] r IH]; simpl; [tauto|].
  intros Hnd [H|H].
  - injection H as -> ->. now rewrite String.eqb_refl.
  - inversion Hnd as [|? ? Hnotin Hnd']; subst.
    destruct (String.eqb_spec k k') as [->|Hne].
    + exfalso. apply Hnotin. change (In (fst (k', v)) (map fst r)).
      now apply in_map.
    + auto.
Qed.

Lemma map_delete_absent k m : ~ In k (map_keys m) -> map_delete k m = m.
Proof.
  induction m as [|[k' v'] r IH]; simpl; [reflexivity|].
  intros H. destruct (String.eqb_spec k k') as [->|Hne].
  - exfalso. apply H. now left.
  - f_equal. apply IH. tauto.
Qed.

Lemma map_delete_filter k m :
  NoDup (map_keys m) ->
  map_delete k m = filter (fun kv => negb (fst kv =? k)%string) m.
Proof.
  induction m as [|[k' v'] r IH]; simpl; [reflexivity|].
  intros Hnd. inversion Hnd as [|? ? Hnotin Hnd']; subst.
  rewrite (String.eqb_sym k' k).
  destruct (String.eqb_spec k k') as [->|Hne]; simpl.
  - rewrite <- IH by assumption. symmetry. now apply map_delete_absent.
  - f_equal. auto.
Qed.

Lemma map_keys_delete_incl k m x :
  In x (map_keys (map_delete k m)) -> In x (map_keys m).
Proof.
  induction m as [|[k' v'] r IH]; simpl; [tauto|].
  destruct (String.eqb_spec k k'); simpl; tauto.
Qed.

Lemma map_delete_NoDup k m :
  NoDup (map_keys m) -> NoDup (map_keys (map_delete k m)).
Proof.
  induction m as [|[k' v'] r IH]; simpl; [auto|].
  intros Hnd. inversion Hnd as [|? ? Hnotin Hnd']; subst.
  destruct (String.eqb_spec k k'); simpl; [assumption|].
  constructor; [|auto].
  intros Hin. apply Hnotin. eapply map_keys_delete_incl; eauto.
Qed.

Lemma map_delete_length k m :
  List.length (map_delete k m) =
  if map_has k m then pred (List.length m) else List.length m.
Proof.
  unfold map_has. induction m as [|[k' v'] r IH]; simpl; [reflexivity|].
  destruct (String.eqb_spec k k'); simpl; [reflexivity|].
  rewrite IH. destruct (map_get k r) eqn:E; [|reflexivity].
  destruct r; [discriminate | reflexivity].
Qed.

Lemma map_get_delete k k' m :
  NoDup (map_keys m) ->
  map_get k (map_delete k' m) = if (k =? k')%string then None else map_get k m.
Proof.
  induction m as [|[k0 v0] r IH]; simpl; intros Hnd.
  - now destruct (k =? k')%string.
  - inversion Hnd as [|? ? Hnotin Hnd']; subst.
    destruct (String.eqb_spec k' k0) as [->|Hne].
    + destruct (String.eqb_spec k k0) as [->|Hne'].
      * now apply map_get_None.
      * reflexivity.
    + simpl. destruct (String.eqb_spec k k0) as [->|Hne'].
      * destruct (String.eqb_spec k0 k'); congruence.
      * auto.
Qed.

Lemma map_keys_replace k v m : map_keys (map_replace k v m) = map_keys m.
Proof.
  induction m as [|[k' v'] r IH]; simpl; [reflexivity|].
  destruct (String.eqb_spec k k'); simpl; congruence.
Qed.

Lemma map_keys_set k v m :
  map_keys (map_set k v m) =
  if map_has k m then map_keys m else (map_keys m ++ [k])%list.
Proof.
  unfold map_set. destruct (map_has k m).
  - apply map_keys_replace.
  - unfold map_keys. now rewrite map_app.
Qed.

Lemma map_set_length k v m :
  List.length (map_set k v m) =
  if map_has k m then List.length m else S (List.length m).
Proof.
  rewrite <- !(length_map fst). change (map fst) with (@map_keys V).
  rewrite map_keys_set. destruct (map_has k m); [reflexivity|].
  rewrite length_app. simpl. lia.
Qed.

Lemma map_set_NoDup k v m :
  NoDup (map_keys m) -> NoDup (map_keys (map_set k v m)).
Proof.
  intros Hnd. rewrite map_keys_set.
  destruct (map_has k m) eqn:E; [assumption|].
  apply NoDup_app; [assumption | repeat constructor; simpl; tauto |].
  intros x Hx [<-|[]]. apply map_has_In in Hx. congruence.
Qed.

Lemma map_get_replace k k' v m :
  map_get k (map_replace k' v m) =
  if (k =? k')%string
  then (if map_has k' m then Some v else None)
  else map_get k m.
Proof.
  unfold map_has. induction m as [|[k0 v0] r IH]; simpl.
  - now destruct (k =? k')%string.
  - destruct (String.eqb_spec k' k0) as [->|Hne]; simpl.
    + destruct (String.eqb_spec k k0); reflexivity.
    + destruct (String.eqb_spec k k0) as [->|Hne'].
      * destruct (String.eqb_spec k0 k'); congruence.
      * apply IH.
Qed.

Lemma map_get_app k m m' :
  map_get k (m ++ m')%list =
  match map_get k m with Some v => Some v | None => map_get k m' end.
Proof.
  induction m as [|[k0 v0] r IH]; simpl; [reflexivity|].
  destruct (k =? k0)%string; auto.
Qed.

Lemma map_get_set k k' v m :
  map_get k (map_set k' v m) =
  if (k =? k')%string then Some v else map_get k m.
Proof.
  unfold map_set. destruct (map_has k' m) eqn:E.
  - rewrite map_get_replace, E. reflexivity.
  - rewrite map_get_app. simpl.
    destruct (String.eqb_spec k k') as [->|Hne].
    + unfold map_has in E. destruct (map_get k' m); [discriminate|reflexivity].
    + now destruct (map_get k m).
Qed.

End MapFacts.

(** ** Cache store: lookups and TTL *)

Lemma truthy_string_nonempty s : truthy_string s = true <-> s <> "".
Proof. destruct s; simpl; split; congruence. Qed.

Lemma truthy_string_empty s : truthy_string s = false <-> s = "".
Proof. destruct s; simpl; split; congruence. Qed.

Lemma expired_iff now entry :
  expired now entry = true <-> timestamp entry + ttl entry < now.
Proof. unfold expired. rewrite Z.gtb_ltb, Z.ltb_lt. lia. Qed.

Lemma not_expired_iff now entry :
  expired now entry = false <-> now <= timestamp entry + ttl entry.
Proof. unfold expired. rewrite Z.gtb_ltb, Z.ltb_ge. lia. Qed.

Lemma getCached_absent cfg cache now cacheKey :
  cacheKey = "" \/ flag (enableCache cfg) = false
  \/ map_get cacheKey cache = None ->
  getCached cfg cache now cacheKey = (None, cache).
Proof.
  unfold getCached. intros [->|[H|H]].
  - reflexivity.
  - rewrite H. simpl. now rewrite orb_true_r.
  - rewrite H. now destruct (_ || _).
Qed.

Lemma getCached_fresh cfg cache now cacheKey entry :
  cacheKey <> "" -> flag (enableCache cfg) = true ->
  map_get cacheKey cache = Some entry ->
  now <= timestamp entry + ttl entry ->
  getCached cfg cache now cacheKey = (Some (entry_data entry), cache).
Proof.
  intros Hkey Hon Hget H. unfold getCached.
  apply truthy_string_nonempty in Hkey. rewrite Hkey, Hon, Hget. simpl.
  apply not_expired_iff in H. now rewrite H.
Qed.

Lemma getCached_stale cfg cache now cacheKey entry :
  cacheKey <> "" -> flag (enableCache cfg) = true ->
  map_get cacheKey cache = Some entry ->
  timestamp entry + ttl entry < now ->
  getCached cfg cache now cacheKey = (None, map_delete cacheKey cache).
Proof.
  intros Hkey Hon Hget H. unfold getCached.
  apply truthy_string_nonempty in Hkey. rewrite Hkey, Hon, Hget. simpl.
  apply expired_iff in H. now rewrite H.
Qed.

(** C3, as amended. A lookup answers absent, and leaves the store alone,
    when the key is empty, caching is disabled or the key has no entry.
    Otherwise an entry stored at [timestamp] with [ttl] is returned by
    every lookup made at a time [now <= timestamp + ttl], the store being
    left as it is; a lookup made at a time [now > timestamp + ttl] answers
    absent and deletes the entry, which is then no longer in the store. *)
Theorem getCached_ttl (cfg : HarperDBConfig) (cache : Cache) (now : Z)
    (cacheKey : string) :
  (cacheKey = "" \/ flag (enableCache cfg) = false
   \/ map_get cacheKey cache = None ->
   getCached cfg cache now cacheKey = (None, cache))
  /\
  (forall entry,
     cacheKey <> "" -> flag (enableCache cfg) = true ->
     NoDup (map_keys cache) ->
     map_get cacheKey cache = Some entry ->
     (now <= timestamp entry + ttl entry ->
      getCached cfg cache now cacheKey = (Some (entry_data entry), cache))
     /\
     (timestamp entry + ttl entry < now ->
      getCached cfg cache now cacheKey = (None, map_delete cacheKey cache)
      /\ map_get cacheKey (map_delete cacheKey cache) = None)).
Proof.
  split.
  - apply getCached_absent.
  - intros entry Hkey Hon Hnd Hget. split; intros H.
    + now apply (getCached_fresh _ _ _ _ entry).
    + split.
      * now apply (getCached_stale _ _ _ _ entry).
      * rewrite map_get_delete by assumption. now rewrite String.eqb_refl.
Qed.

Lemma getCached_ttl_witness :
  getCached sample_config [("k", sample_entry 1 1000 5000)] 5999 "k"
  = (Some (sample_response 1), [("k", sample_entry 1 1000 5000)])
  /\ getCached sample_config [("k", sample_entry 1 1000 5000)] 6001 "k"
     = (None, map_delete "k" [("k", sample_entry 1 1000 5000)])
  /\ getCached sample_config [("k", sample_entry 1 1000 5000)] 5999 "other"
     = (None, [("k", sample_entry 1 1000 5000)]).
Proof.
  assert (Hnd : NoDup (map_keys [("k", sample_entry 1 1000 5000)])).
  { repeat constructor. simpl. tauto. }
  assert (Hk : "k" <> "") by discriminate.
  split; [|split].
  - destruct (getCached_ttl sample_config
                [("k", sample_entry 1 1000 5000)] 5999 "k") as [_ H].
    destruct (H (sample_entry 1 1000 5000) Hk eq_refl Hnd eq_refl)
      as [Hfresh _].
    apply Hfresh. simpl. lia.
  - destruct (getCached_ttl sample_config
                [("k", sample_entry 1 1000 5000)] 6001 "k") as [_ H].
    destruct (H (sample_entry 1 1000 5000) Hk eq_refl Hnd eq_refl)
      as [_ Hstale].
    apply Hstale. simpl. lia.
  - destruct (getCached_ttl sample_config
                [("k", sample_entry 1 1000 5000)] 5999 "other") as [H _].
    apply H. right. right. reflexivity.
Defined.

(** C3 as stated fails at the instant [T + ttl] itself: the entry stored
    at 1000 with a ttl of 5000 is still returned by the lookup at 6000. *)
Lemma getCached_at_expiry_instant :
  1000 + 5000 <= 6000
  /\ getCached sample_config [("k", sample_entry 1 1000 5000)] 6000 "k"
     = (Some (sample_response 1), [("k", sample_entry 1 1000 5000)]).
Proof. split; [lia | reflexivity]. Qed.

(** ** Cache store: capacity *)

Lemma cache_wf_nil : cache_wf [].
Proof. split; constructor. Qed.

Lemma cache_wf_delete k cache : cache_wf cache -> cache_wf (map_delete k cache).
Proof.
  intros [Hnd Hne]. split.
  - now apply map_delete_NoDup.
  - rewrite Forall_forall in *. intros x Hx. apply Hne.
    eapply map_keys_delete_incl; eauto.
Qed.

Lemma cache_wf_set k v cache :
  k <> "" -> cache_wf cache -> cache_wf (map_set k v cache).
Proof.
  intros Hk [Hnd Hne]. split.
  - now apply map_set_NoDup.
  - rewrite map_keys_set. destruct (map_has k cache); [assumption|].
    apply Forall_app. split; [assumption | now repeat constructor].
Qed.

Lemma setCache_unfold cfg cache now key data ttl :
  key <> "" -> flag (enableCache cfg) = true ->
  setCache cfg cache now key data ttl
  = map_set key
      {| entry_data := data; timestamp := now;
         ttl := num_or ttl (num_or (cacheTTL cfg) 0) |}
      (make_room cfg cache).
Proof.
  intros Hk Hon. apply truthy_string_nonempty in Hk.
  unfold setCache, make_room. now rewrite Hk, Hon.
Qed.

Lemma setCache_noop cfg cache now key data ttl :
  key = "" \/ flag (enableCache cfg) = false ->
  setCache cfg cache now key data ttl = cache.
Proof.
  unfold setCache. intros [->|H]; [reflexivity|].
  rewrite H. simpl. now rewrite orb_true_r.
Qed.

Lemma make_room_wf cfg cache : cache_wf cache -> cache_wf (make_room cfg cache).
Proof.
  intros H. unfold make_room.
  destruct (_ >=? _); [|assumption].
  destruct (map_first_key cache); [|assumption].
  destruct (truthy_string s); [|assumption].
  now apply cache_wf_delete.
Qed.

Lemma setCache_wf cfg cache now key data ttl :
  cache_wf cache -> cache_wf (setCache cfg cache now key data ttl).
Proof.
  intros H.
  destruct (string_dec key "") as [->|Hk].
  { now rewrite setCache_noop by now left. }
  destruct (flag (enableCache cfg)) eqn:Hon.
  - rewrite setCache_unfold by assumption.
    apply cache_wf_set; [assumption|]. now apply make_room_wf.
  - now rewrite setCache_noop by now right.
Qed.

Lemma puts_wf cfg l : forall cache, cache_wf cache -> cache_wf (puts cfg cache l).
Proof.
  induction l as [|p l IH]; simpl; intros cache H; [assumption|].
  apply IH. now apply setCache_wf.
Qed.

Lemma make_room_size cfg cache capacity :
  num_or (maxCacheSize cfg) 0 = capacity -> 1 <= capacity ->
  cache_wf cache -> map_size cache <= capacity ->
  map_size (make_room cfg cache) <= capacity - 1
  \/ (map_size (make_room cfg cache) < capacity /\ make_room cfg cache = cache).
Proof.
  intros Hcap Hpos [Hnd Hne] Hsize. unfold make_room. rewrite Hcap.
  destruct (Z.geb_spec (map_size cache) capacity) as [Hge|Hlt].
  - left. destruct cache as [|[k0 e0] rest].
    + unfold map_size in *. simpl in *. lia.
    + simpl. inversion Hne as [|? ? Hk0 _]; subst.
      apply truthy_string_nonempty in Hk0. rewrite Hk0.
      simpl. rewrite String.eqb_refl. unfold map_size in *. simpl in *. lia.
  - right. split; [lia | reflexivity].
Qed.

Lemma setCache_size cfg cache capacity now key data ttl :
  num_or (maxCacheSize cfg) 0 = capacity -> 1 <= capacity ->
  cache_wf cache -> map_size cache <= capacity ->
  map_size (setCache cfg cache now key data ttl) <= capacity.
Proof.
  intros Hcap Hpos Hwf Hsize.
  destruct (string_dec key "") as [->|Hk].
  { now rewrite setCache_noop by now left. }
  destruct (flag (enableCache cfg)) eqn:Hon.
  2:{ now rewrite setCache_noop by now right. }
  rewrite setCache_unfold by assumption.
  unfold map_size. rewrite map_set_length.
  pose proof (make_room_size cfg cache capacity Hcap Hpos Hwf Hsize) as H.
  unfold map_size in *.
  destruct (map_has key (make_room cfg cache)); lia.
Qed.

Lemma puts_size cfg capacity l :
  num_or (maxCacheSize cfg) 0 = capacity -> 1 <= capacity ->
  forall cache, cache_wf cache -> map_size cache <= capacity ->
  map_size (puts cfg cache l) <= capacity.
Proof.
  intros Hcap Hpos. induction l as [|p l IH]; simpl; intros cache Hwf Hs.
  - assumption.
  - apply IH; [now apply setCache_wf | now apply setCache_size].
Qed.

(** C7, as amended. With a configured capacity of at least 1, no sequence
    of puts starting from the empty store ever holds more entries than the
    capacity; and a put of a non-empty key, caching enabled, into a store
    that holds exactly [capacity] entries deletes the first entry of the
    store, the oldest inserted, and nothing else: what results is the
    rest of the store with the new entry set in it. *)
Theorem setCache_capacity (cfg : HarperDBConfig) (capacity : Z) :
  num_or (maxCacheSize cfg) 0 = capacity -> 1 <= capacity ->
  (forall l, map_size (puts cfg [] l) <= capacity)
  /\
  (forall cache now key data ttl,
     cache_wf cache -> map_size cache = capacity ->
     key <> "" -> flag (enableCache cfg) = true ->
     exists oldest entry rest,
       cache = (oldest, entry) :: rest
       /\ setCache cfg cache now key data ttl
          = map_set key
              {| entry_data := data; timestamp := now;
                 ttl := num_or ttl (num_or (cacheTTL cfg) 0) |}
              rest
       /\ map_size (setCache cfg cache now key data ttl) <= capacity).
Proof.
  intros Hcap Hpos. split.
  - intros l. apply puts_size; auto using cache_wf_nil.
    unfold map_size. simpl. lia.
  - intros cache now key data ttl Hwf Hsize Hk Hon.
    destruct cache as [|[k0 e0] rest].
    { unfold map_size in Hsize. simpl in Hsize. lia. }
    exists k0, e0, rest. split; [reflexivity|]. split.
    + rewrite setCache_unfold by assumption. f_equal.
      unfold make_room. rewrite Hcap, Hsize.
      destruct (Z.geb_spec capacity capacity); [|lia].
      simpl. destruct Hwf as [_ Hne]. inversion Hne as [|? ? Hk0 _]; subst.
      apply truthy_string_nonempty in Hk0. rewrite Hk0.
      now rewrite String.eqb_refl.
    + apply setCache_size; auto. lia.
Qed.

Lemma setCache_capacity_witness :
  map_size
    (puts sample_config []
       [{| put_at := 1; put_key := "a"; put_data := sample_response 1;
           put_ttl := None |};
        {| put_at := 2; put_key := "b"; put_data := sample_response 2;
           put_ttl := None |};
        {| put_at := 3; put_key := "c"; put_data := sample_response 3;
           put_ttl := None |}]) <= 2
  /\ exists oldest entry rest,
       [("a", sample_entry 1 1 5000); ("b", sample_entry 2 2 5000)]
       = (oldest, entry) :: rest
       /\ setCache sample_config
            [("a", sample_entry 1 1 5000); ("b", sample_entry 2 2 5000)]
            3 "c" (sample_response 3) None
          = map_set "c"
              {| entry_data := sample_response 3; timestamp := 3;
                 ttl := num_or None (num_or (cacheTTL sample_config) 0) |}
              rest
       /\ map_size
            (setCache sample_config
               [("a", sample_entry 1 1 5000); ("b", sample_entry 2 2 5000)]
               3 "c" (sample_response 3) None) <= 2.
Proof.
  assert (Hcap : num_or (maxCacheSize sample_config) 0 = 2) by reflexivity.
  assert (Hpos : 1 <= 2) by lia.
  destruct (setCache_capacity sample_config 2 Hcap Hpos) as [Hall Hput].
  split; [apply Hall|].
  apply Hput; [| reflexivity | discriminate | reflexivity].
  split; simpl.
  - repeat constructor; simpl; intuition discriminate.
  - repeat constructor; discriminate.
Defined.

(** C7 as stated fails for a configured capacity of 0: the first put
    leaves one entry in the store. *)
Lemma setCache_capacity_zero :
  let cfg :=
    new_config
      {| schema := None; timeout := None; maxRetries := None;
         retryDelay := None; poolSize := None; apiPath := None;
         enableCache := Some true; cacheTTL := None;
         maxCacheSize := Some 0 |} in
  num_or (maxCacheSize cfg) 0 = 0
  /\ map_size
       (puts cfg []
          [{| put_at := 1; put_key := "a"; put_data := sample_response 1;
              put_ttl := None |}]) = 1.
Proof. split; reflexivity. Qed.

(** ** Cache store: invalidation *)

Lemma filter_filter_and {A} (p q : A -> bool) (l : list A) :
  filter p (filter q l) = filter (fun x => p x && q x) l.
Proof.
  induction l as [|x l IH]; simpl; [reflexivity|].
  destruct (q x); simpl.
  - rewrite andb_true_r. destruct (p x); simpl; congruence.
  - now rewrite andb_false_r.
Qed.

Lemma filter_all {A} (p : A -> bool) (l : list A) :
  (forall x, In x l -> p x = true) -> filter p l = l.
Proof.
  induction l as [|x l IH]; simpl; intros H; [reflexivity|].
  rewrite (H x) by now left. f_equal. apply IH. auto.
Qed.

Lemma filter_keys_NoDup {V} (p : string * V -> bool) (m : list (string * V)) :
  NoDup (map_keys m) -> NoDup (map_keys (filter p m)).
Proof.
  induction m as [|[k v] r IH]; simpl; intros H; [constructor|].
  inversion H as [|? ? Hnotin Hnd]; subst.
  destruct (p (k, v)); simpl; [|auto].
  constructor; [|auto].
  intros Hin. apply Hnotin. unfold map_keys in *.
  apply in_map_iff in Hin. destruct Hin as [[k' v'] [Hk Hin]].
  apply filter_In in Hin. simpl in Hk. subst.
  apply in_map_iff. exists (k, v'). tauto.
Qed.

(** Deleting, key after key, the entries selected by [hit] is filtering. *)
Lemma delete_loop_filter {V} (hit : string -> bool) (l : list string) :
  forall m : list (string * V),
    NoDup (map_keys m) ->
    fold_left (fun c key => if hit key then map_delete key c else c) l m
    = filter (fun kv => negb (existsb (String.eqb (fst kv)) l && hit (fst kv)))
        m.
Proof.
  induction l as [|k l IH]; intros m Hnd; simpl.
  - symmetry. apply filter_all. reflexivity.
  - destruct (hit k) eqn:Hk.
    + rewrite IH by now apply map_delete_NoDup.
      rewrite map_delete_filter by assumption.
      rewrite filter_filter_and. apply filter_ext. intros [k' v']. simpl.
      destruct (String.eqb_spec k' k) as [->|Hne]; simpl.
      * rewrite Hk. now rewrite andb_false_r.
      * now rewrite andb_true_r.
    + rewrite IH by assumption. apply filter_ext. intros [k' v']. simpl.
      destruct (String.eqb_spec k' k) as [->|Hne]; simpl; [|reflexivity].
      rewrite Hk. now rewrite andb_false_r.
Qed.

Section InvalidationFacts.
Variable decodeKey : string -> option JSON.

Lemma invalidateTableCache_filter cfg cache table schema :
  NoDup (map_keys cache) ->
  invalidateTableCache decodeKey cfg cache table schema
  = filter (fun ke => negb (deletes decodeKey table (scope cfg schema) (fst ke)))
      cache.
Proof.
  intros Hnd. unfold invalidateTableCache.
  change (str_or schema (str_or (Client.schema cfg) "")) with (scope cfg schema).
  transitivity
    (fold_left
       (fun c key =>
          if deletes decodeKey table (scope cfg schema) key
          then map_delete key c else c)
       (map_keys cache) cache).
  - generalize (map_keys cache) as l. intros l. revert cache Hnd.
    induction l as [|k l IH]; intros cache Hnd; simpl; [reflexivity|].
    unfold deletes at 2.
    destruct (refers_to decodeKey table (scope cfg schema) k) as [[|]|];
      apply IH; auto using map_delete_NoDup.
  - rewrite delete_loop_filter by assumption.
    apply filter_ext_in. intros [k v] Hin. simpl.
    replace (existsb (String.eqb k) (map_keys cache)) with true; [reflexivity|].
    symmetry. apply existsb_exists. exists k. split.
    + unfold map_keys. change k with (fst (k, v)). now apply in_map.
    + apply String.eqb_refl.
Qed.

Lemma is_string_iff v s : is_string v s = true <-> v = Some (JStr s).
Proof.
  unfold is_string. destruct v as [[]|]; try (split; congruence).
  destruct (String.eqb_spec s0 s); split; congruence.
Qed.

Lemma deletes_iff table schemaName key :
  deletes decodeKey table schemaName key = true
  <-> targets decodeKey table schemaName key.
Proof.
  unfold deletes, refers_to, targets.
  destruct (decodeKey key) as [decoded|].
  2:{ split; [discriminate | intros (? & ? & ? & _); discriminate]. }
  assert (Hbody : forall b,
             prop decoded "body" = Some b ->
             (is_string (prop b "table") table
              && (is_string (prop b "schema") schemaName
                  || negb (truthy (prop b "schema"))) = true
              <-> prop b "table" = Some (JStr table) /\
                  (prop b "schema" = Some (JStr schemaName)
                   \/ truthy (prop b "schema") = false))).
  { intros b _. rewrite andb_true_iff, orb_true_iff, negb_true_iff.
    now rewrite !is_string_iff. }
  assert (Hgen :
            is_string (opt_prop (js_or (prop decoded "body") (Some (JObj [])))
                         "table") table
            && (is_string
                  (opt_prop (js_or (prop decoded "body") (Some (JObj [])))
                     "schema") schemaName
                || negb (truthy
                           (opt_prop
                              (js_or (prop decoded "body") (Some (JObj [])))
                              "schema"))) = true
            <-> exists body,
                prop decoded "body" = Some body /\
                prop body "table" = Some (JStr table) /\
                (prop body "schema" = Some (JStr schemaName)
                 \/ truthy (prop body "schema") = false)).
  { unfold js_or. destruct (prop decoded "body") as [b|] eqn:Eb.
    - destruct (truthy (Some b)) eqn:Et.
      + simpl opt_prop. rewrite (Hbody b eq_refl). split.
        * intros H. exists b. tauto.
        * intros (b' & [= <-] & H). exact H.
      + simpl. split; [discriminate|].
        intros (b' & [= <-] & Ht & _).
        destruct b; simpl in *; try discriminate.
    - simpl. split; [discriminate | intros (? & ? & _); discriminate]. }
  destruct decoded;
    (split;
         [ intros H; apply Hgen in H; destruct H as (bd & H1 & H2);
           eexists; exists bd; split; [reflexivity | tauto]
         | intros (d & bd & Hd & H); injection Hd as <-;
           apply Hgen; exists bd; exact H ]).
Qed.

(** C6. [invalidateTableCache] removes exactly the entries whose decoded
    body names the table under the schema in scope (or under no schema);
    every other entry stays, with its value and in its place; and the call
    returns for every store and every key decoder, keys that do not
    decode included. *)
Theorem invalidateTableCache_exact (cfg : HarperDBConfig) (cache : Cache)
    (table : string) (schema : option string) :
  NoDup (map_keys cache) ->
  (forall key entry,
     In (key, entry) (invalidateTableCache decodeKey cfg cache table schema)
     <-> In (key, entry) cache
         /\ ~ targets decodeKey table (scope cfg schema) key)
  /\ (forall key,
        ~ targets decodeKey table (scope cfg schema) key ->
        map_get key (invalidateTableCache decodeKey cfg cache table schema)
        = map_get key cache)
  /\ (forall key,
        targets decodeKey table (scope cfg schema) key ->
        map_get key (invalidateTableCache decodeKey cfg cache table schema)
        = None)
  /\ exists keep,
       invalidateTableCache decodeKey cfg cache table schema
       = filter keep cache.
Proof.
  intros Hnd. rewrite invalidateTableCache_filter by assumption.
  set (keep := fun ke : string * CacheEntry =>
                 negb (deletes decodeKey table (scope cfg schema) (fst ke))).
  assert (Hkeep : forall k e,
             keep (k, e) = true <-> ~ targets decodeKey table (scope cfg schema) k).
  { intros k e. unfold keep. simpl. rewrite negb_true_iff.
    rewrite <- deletes_iff.
    destruct (deletes decodeKey table (scope cfg schema) k);
      split; congruence. }
  split; [|split; [|split]].
  - intros key entry. rewrite filter_In. now rewrite Hkeep.
  - intros key Hno.
    destruct (map_get key cache) as [e|] eqn:Hget.
    + apply In_map_get; [now apply filter_keys_NoDup|].
      apply filter_In. split; [now apply map_get_In|]. now apply Hkeep.
    + apply map_get_None. apply map_get_None in Hget.
      intros Hin. apply Hget. unfold map_keys in *.
      apply in_map_iff in Hin. destruct Hin as [[k v] [Hk Hin]].
      apply filter_In in Hin. apply in_map_iff. exists (k, v). tauto.
  - intros key Hyes. apply map_get_None. intros Hin.
    unfold map_keys in Hin. apply in_map_iff in Hin.
    destruct Hin as [[k v] [Hk Hin]]. simpl in Hk. subst k.
    apply filter_In in Hin. destruct Hin as [_ Hk].
    apply Hkeep in Hk. contradiction.
  - exists keep. reflexivity.
Qed.

End InvalidationFacts.

(** ** Retry interceptor *)

Lemma transient_iff e : transient e = true <-> transient_failure e.
Proof.
  unfold transient, transient_failure. rewrite orb_true_iff. split.
  - intros [H|H].
    + left. destruct (response e) as [r|].
      * exists r. split; [reflexivity|]. apply Z.geb_le in H. lia.
      * apply Z.geb_le in H. lia.
    + right. destruct (code e) as [c|]; [|discriminate].
      apply String.eqb_eq in H. now subst.
  - intros [(r & Hr & Hs)|Hc].
    + left. rewrite Hr. apply Z.geb_le. lia.
    + right. rewrite Hc. apply String.eqb_refl.
Qed.

Lemma client_error_not_transient e : client_error e -> transient e = false.
Proof.
  intros [(r & Hr & Hs) Hc]. destruct (transient e) eqn:E; [|reflexivity].
  apply transient_iff in E. destruct E as [(r' & Hr' & Hs')|E].
  - rewrite Hr in Hr'. injection Hr' as <-. lia.
  - contradiction.
Qed.

Lemma dispatch_eq fuel cfg attempt n c :
  dispatch fuel cfg attempt n c
  = match attempt n with
    | Fulfilled r => Some {| settled := Fulfilled r; delays := [] |}
    | Rejected error =>
        if (c <? num_or (maxRetries cfg) 0) && transient error then
          match fuel with
          | O => None
          | S fuel =>
              match dispatch fuel cfg attempt (S n) (c + 1) with
              | Some x =>
                  Some {| settled := settled x;
                          delays :=
                            num_or (retryDelay cfg) 0 * num_or (Some (c + 1)) 1
                            :: delays x |}
              | None => None
              end
          end
        else Some {| settled := Rejected error; delays := [] |}
    end.
Proof. destruct fuel; reflexivity. Qed.

(** What one run of the interceptor does, from the [n]-th send on, the
    retry count being [c]: it makes [k] retries. *)
Lemma dispatch_spec cfg attempt :
  forall fuel n c,
    0 <= c -> num_or (maxRetries cfg) 0 - c <= Z.of_nat fuel ->
    exists (k : nat) (x : Exchange),
      dispatch fuel cfg attempt n c = Some x
      /\ settled x = attempt (n + k)%nat
      /\ delays x
         = map (fun j => num_or (retryDelay cfg) 0 * (c + Z.of_nat j)) (seq 1 k)
      /\ (forall i, (i < k)%nat ->
            c + Z.of_nat i < num_or (maxRetries cfg) 0
            /\ exists e, attempt (n + i)%nat = Rejected e /\ transient e = true)
      /\ match attempt (n + k)%nat with
         | Fulfilled _ => True
         | Rejected e =>
             ~ (c + Z.of_nat k < num_or (maxRetries cfg) 0
                /\ transient e = true)
         end.
Proof.
  assert (Hstopped : forall n c (x : Settled),
             attempt n = x ->
             match x with
             | Fulfilled _ => True
             | Rejected e =>
                 ~ (c < num_or (maxRetries cfg) 0 /\ transient e = true)
             end ->
             exists (k : nat) (y : Exchange),
               Some {| settled := x; delays := [] |} = Some y
               /\ settled y = attempt (n + k)%nat
               /\ delays y
                  = map (fun j => num_or (retryDelay cfg) 0 * (c + Z.of_nat j))
                      (seq 1 k)
               /\ (forall i, (i < k)%nat ->
                     c + Z.of_nat i < num_or (maxRetries cfg) 0
                     /\ exists e,
                         attempt (n + i)%nat = Rejected e /\ transient e = true)
               /\ match attempt (n + k)%nat with
                  | Fulfilled _ => True
                  | Rejected e =>
                      ~ (c + Z.of_nat k < num_or (maxRetries cfg) 0
                         /\ transient e = true)
                  end).
  { intros n c x Hx Hcond. exists O. eexists. split; [reflexivity|].
    rewrite Nat.add_0_r, Z.add_0_r, Hx. simpl.
    split; [reflexivity|]. split; [reflexivity|].
    split; [intros i Hi; lia | exact Hcond]. }
  induction fuel as [|fuel IH]; intros n c Hc Hfuel.
  - rewrite dispatch_eq. destruct (attempt n) as [r|e] eqn:Ea.
    + apply Hstopped; [exact Ea | exact I].
    + destruct (Z.ltb_spec c (num_or (maxRetries cfg) 0)); [lia|]. simpl.
      apply Hstopped; [exact Ea | lia].
  - rewrite dispatch_eq. destruct (attempt n) as [r|e] eqn:Ea.
    + apply Hstopped; [exact Ea | exact I].
    + destruct ((c <? num_or (maxRetries cfg) 0) && transient e) eqn:Hgo.
      * apply andb_true_iff in Hgo. destruct Hgo as [Hlt Htr].
        apply Z.ltb_lt in Hlt.
        destruct (IH (S n) (c + 1)) as (k & x & Hx & Hs & Hd & Hre & Hstop);
          [lia | lia |].
        exists (S k). rewrite Hx. eexists. split; [reflexivity|].
        cbn [settled delays].
        replace (n + S k)%nat with (S n + k)%nat by lia.
        split; [exact Hs|]. split; [|split].
        -- rewrite Hd.
           assert (Hn : num_or (Some (c + 1)) 1 = c + Z.of_nat 1).
           { unfold num_or. destruct (Z.eqb_spec (c + 1) 0); lia. }
           rewrite Hn. cbn [seq map]. apply (f_equal2 cons); [reflexivity|].
           rewrite <- (seq_shift k 1), map_map. apply map_ext. intros j.
           f_equal. lia.
        -- intros [|i] Hi.
           ++ rewrite Nat.add_0_r. split; [lia|]. exists e. auto.
           ++ destruct (Hre i) as [H1 H2]; [lia|].
              replace (n + S i)%nat with (S n + i)%nat by lia.
              split; [lia | exact H2].
        -- destruct (attempt (S n + k)%nat); [exact I|].
           intros [H1 H2]. apply Hstop. split; [lia | exact H2].
      * apply Hstopped; [exact Ea|]. intros [H1 H2].
        apply andb_false_iff in Hgo. destruct Hgo as [Hgo|Hgo].
        -- apply Z.ltb_ge in Hgo. lia.
        -- congruence.
Qed.

(** The interceptor always answers. *)
Lemma post_total cfg attempt : exists x, post cfg attempt = Some x.
Proof.
  destruct (dispatch_spec cfg attempt
              (Z.to_nat (num_or (maxRetries cfg) 0)) 0 0) as (k & x & H & _);
    [lia | lia |].
  exists x. exact H.
Qed.

(** C4. A request is sent again exactly when its retry counter is below
    the configured maximum and the failure is transient. For every
    transport: the interceptor answers after some number [k] of retries
    with the outcome of the last send; each of the [k] failures before it
    was transient and met with a counter below the maximum, and the last
    send either succeeded or failed with the counter at the maximum or
    with a failure that is not transient; the delay before the [n]-th
    retry is the base delay times [n]. A failure of the 4xx class on the
    first send is returned at once, no delay slept; and when every send
    fails transiently the caller gets the error of the last one, after
    exactly the configured number of retries. *)
Theorem retry_policy (cfg : HarperDBConfig) (attempt : nat -> Settled) :
  exists (k : nat) (x : Exchange),
    post cfg attempt = Some x
    /\ settled x = attempt k
    /\ delays x = map (backoff cfg) (seq 1 k)
    /\ (forall i, (i < k)%nat ->
          Z.of_nat i < num_or (maxRetries cfg) 0
          /\ exists e, attempt i = Rejected e /\ transient_failure e)
    /\ (forall e, attempt k = Rejected e ->
          ~ (Z.of_nat k < num_or (maxRetries cfg) 0 /\ transient_failure e))
    /\ (forall e, attempt O = Rejected e -> client_error e ->
          settled x = Rejected e /\ delays x = [])
    /\ (0 <= num_or (maxRetries cfg) 0 ->
        (forall i, exists e, attempt i = Rejected e /\ transient_failure e) ->
          Z.of_nat k = num_or (maxRetries cfg) 0
          /\ exists e, settled x = Rejected e /\ attempt k = Rejected e).
Proof.
  destruct (dispatch_spec cfg attempt
              (Z.to_nat (num_or (maxRetries cfg) 0)) 0 0)
    as (k & x & Hx & Hs & Hd & Hre & Hstop); [lia | lia |].
  simpl in *. exists k, x.
  split; [exact Hx|]. split; [exact Hs|]. split; [|split; [|split; [|split]]].
  - rewrite Hd. apply map_ext. intros j. reflexivity.
  - intros i Hi. destruct (Hre i Hi) as [H1 (e & He & Ht)].
    split; [exact H1|]. exists e. split; [exact He|]. now apply transient_iff.
  - intros e He [H1 H2]. rewrite He in Hstop. apply Hstop.
    split; [exact H1 | now apply transient_iff].
  - intros e He Hce.
    assert (k = O) as ->.
    { destruct k; [reflexivity|]. destruct (Hre O) as [_ (e' & He' & Ht)];
        [lia|]. simpl in He'. rewrite He in He'. injection He' as <-.
      rewrite client_error_not_transient in Ht by assumption. discriminate. }
    rewrite Hs, Hd. simpl. auto.
  - intros Hmax Hall. destruct (Hall k) as (e & He & Ht).
    rewrite He in Hstop. split.
    + assert (Hk : forall i, (i < k)%nat -> Z.of_nat i < num_or (maxRetries cfg) 0)
        by (intros i Hi; apply (Hre i Hi)).
      destruct (Z.lt_ge_cases (Z.of_nat k) (num_or (maxRetries cfg) 0)) as [Hlt|Hge].
      * exfalso. apply Hstop. split; [exact Hlt | now apply transient_iff].
      * destruct k as [|k']; [lia|].
        specialize (Hk k' ltac:(lia)). lia.
    + exists e. rewrite Hs. auto.
Qed.

(** ** Request executor *)

Lemma base64_nonempty b r : base64 (b :: r) <> "".
Proof. destruct r as [|? [|? ?]]; discriminate. Qed.

Lemma Buffer_base64_object m : Buffer_base64 (JSON_stringify (JObj m)) <> "".
Proof.
  unfold Buffer_base64. simpl JSON_stringify. simpl utf8.
  apply base64_nonempty.
Qed.

Lemma generateCacheKey_eligible operation body :
  eligible operation -> generateCacheKey operation body <> "".
Proof.
  unfold eligible, generateCacheKey. intros ->. simpl negb. cbv iota.
  apply Buffer_base64_object.
Qed.

Lemma generateCacheKey_not_eligible operation body :
  ~ eligible operation -> generateCacheKey operation body = "".
Proof.
  unfold eligible, generateCacheKey. intros H.
  destruct (includes cacheableOperations (toLowerCase operation));
    [now contradiction H | reflexivity].
Qed.

(** With [useCache: false] the call never looks at the store. *)
Lemma executeQuery_bypass cfg cache call operation body options :
  useCache options = Some false ->
  executeQuery cfg cache call operation body options
  = {| outcome :=
         from_network call (send call (outbound cfg operation body options));
       cache_after := cache;
       sent := Some (outbound cfg operation body options);
       returned_at := finished call |}.
Proof.
  intros H. unfold executeQuery, executeQuery_begin. rewrite H. simpl.
  unfold executeQuery_settle, from_network.
  now destruct (send call (outbound cfg operation body options)).
Qed.

(** With the configuration flag unset the store is never read nor written,
    whatever the call asks for. *)
Lemma executeQuery_flag_unset cfg cache call operation body options :
  flag (enableCache cfg) = false ->
  executeQuery cfg cache call operation body options
  = {| outcome :=
         from_network call (send call (outbound cfg operation body options));
       cache_after := cache;
       sent := Some (outbound cfg operation body options);
       returned_at := finished call |}.
Proof.
  intros Hoff. unfold executeQuery, executeQuery_begin.
  set (uc := match useCache options with
             | Some b => b
             | None => flag (enableCache cfg)
             end).
  set (key := if uc then generateCacheKey operation body else "").
  assert (Hlook : (if truthy_string key then getCached cfg cache (started call) key
                   else (None, cache)) = (None, cache)).
  { destruct (truthy_string key); [|reflexivity].
    apply getCached_absent. right. left. exact Hoff. }
  rewrite Hlook. unfold executeQuery_settle, from_network.
  destruct (send call (outbound cfg operation body options)); [|reflexivity].
  rewrite setCache_noop by (right; exact Hoff).
  now destruct (truthy_string key && uc).
Qed.

(** A fresh entry answers the call without any request. *)
Lemma executeQuery_hit cfg cache call operation body options entry :
  useCache options = Some true \/
  (useCache options = None /\ flag (enableCache cfg) = true) ->
  flag (enableCache cfg) = true ->
  eligible operation ->
  NoDup (map_keys cache) ->
  map_get (generateCacheKey operation body) cache = Some entry ->
  fresh (started call) entry ->
  executeQuery cfg cache call operation body options
  = {| outcome := Ok (from_cache (entry_data entry));
       cache_after := cache;
       sent := None;
       returned_at := started call |}.
Proof.
  intros Huse Hon Hel Hnd Hget Hfresh.
  pose proof (generateCacheKey_eligible operation body Hel) as Hkey.
  unfold executeQuery, executeQuery_begin.
  assert (Huc : match useCache options with
                | Some b => b
                | None => flag (enableCache cfg)
                end = true).
  { destruct Huse as [->|[-> ->]]; reflexivity. }
  rewrite Huc. apply truthy_string_nonempty in Hkey. rewrite Hkey.
  apply truthy_string_nonempty in Hkey.
  rewrite (getCached_fresh _ _ _ _ _ Hkey Hon Hget Hfresh). reflexivity.
Qed.

(** Without a fresh entry the request is sent, and a successful response
    is stored under the fingerprint. *)
Lemma executeQuery_miss cfg cache call operation body options :
  useCache options = Some true \/
  (useCache options = None /\ flag (enableCache cfg) = true) ->
  flag (enableCache cfg) = true ->
  eligible operation ->
  NoDup (map_keys cache) ->
  (map_get (generateCacheKey operation body) cache = None
   \/ exists entry,
        map_get (generateCacheKey operation body) cache = Some entry
        /\ ~ fresh (started call) entry) ->
  let x := executeQuery cfg cache call operation body options in
  sent x = Some (outbound cfg operation body options)
  /\ outcome x
     = from_network call (send call (outbound cfg operation body options))
  /\ forall response,
       send call (outbound cfg operation body options) = Fulfilled response ->
       map_get (generateCacheKey operation body) (cache_after x)
       = Some (stored cfg call options response).
Proof.
  intros Huse Hon Hel Hnd Hmiss.
  pose proof (generateCacheKey_eligible operation body Hel) as Hkey.
  unfold executeQuery, executeQuery_begin.
  assert (Huc : match useCache options with
                | Some b => b
                | None => flag (enableCache cfg)
                end = true).
  { destruct Huse as [->|[-> ->]]; reflexivity. }
  rewrite Huc.
  pose proof Hkey as Hkey'. apply truthy_string_nonempty in Hkey'.
  rewrite Hkey'.
  assert (Hlook : exists cache',
             getCached cfg cache (started call)
               (generateCacheKey operation body) = (None, cache')).
  { destruct Hmiss as [Hnone|(entry & Hget & Hstale)].
    - exists cache. apply getCached_absent. right. right. exact Hnone.
    - eexists. apply (getCached_stale _ _ _ _ entry); try assumption.
      unfold fresh in Hstale. lia. }
  destruct Hlook as (cache' & ->).
  unfold executeQuery_settle, from_network.
  destruct (send call (outbound cfg operation body options)) as [r|e];
    simpl; (split; [reflexivity|]); (split; [reflexivity|]).
  - intros response [= <-]. rewrite Hkey'. simpl.
    rewrite setCache_unfold by assumption.
    rewrite map_get_set, String.eqb_refl. reflexivity.
  - intros response [=].
Qed.

(** C1, as amended. [options.useCache = false] overrides the configuration
    flag: the request is sent, its outcome is the caller's and the store is
    left as it was, flag set or not. [options.useCache = true] does not
    override an unset flag: [getCached] and [setCache] both test the flag,
    so with the flag unset the request is sent and nothing is stored; with
    the flag set, a cache-eligible request is answered from a fresh entry
    without any request, and otherwise sent, a successful response being
    stored under its fingerprint. *)
Theorem useCache_override (cfg : HarperDBConfig) (cache : Cache) (call : Call)
    (operation : string) (body : JSON) (options : QueryOptions) :
  let x := executeQuery cfg cache call operation body options in
  let request := outbound cfg operation body options in
  let key := generateCacheKey operation body in
  (useCache options = Some false ->
   sent x = Some request
   /\ outcome x = from_network call (send call request)
   /\ cache_after x = cache)
  /\
  (useCache options = Some true -> flag (enableCache cfg) = false ->
   sent x = Some request
   /\ outcome x = from_network call (send call request)
   /\ cache_after x = cache)
  /\
  (useCache options = Some true -> flag (enableCache cfg) = true ->
   eligible operation -> NoDup (map_keys cache) ->
   (forall entry,
      map_get key cache = Some entry -> fresh (started call) entry ->
      sent x = None
      /\ outcome x = Ok (from_cache (entry_data entry))
      /\ cached (metadata (from_cache (entry_data entry))) = true
      /\ cache_after x = cache)
   /\
   ((map_get key cache = None
     \/ exists entry,
          map_get key cache = Some entry /\ ~ fresh (started call) entry) ->
    sent x = Some request
    /\ outcome x = from_network call (send call request)
    /\ forall response,
         send call request = Fulfilled response ->
         map_get key (cache_after x) = Some (stored cfg call options response))).
Proof.
  intros x request key. split; [|split].
  - intros H. subst x. rewrite executeQuery_bypass by assumption. auto.
  - intros _ H. subst x. rewrite executeQuery_flag_unset by assumption. auto.
  - intros Huse Hon Hel Hnd. split.
    + intros entry Hget Hfresh. subst x.
      rewrite (executeQuery_hit cfg cache call operation body options entry);
        auto.
    + intros Hmiss.
      apply executeQuery_miss; auto.
Qed.

Lemma useCache_override_witness :
  let ok := Fulfilled (http_ok (JArr [JNum 1])) in
  let call := sample_call 100 150 ok in
  let key := generateCacheKey "sql" select_one in
  let request := outbound sample_config "sql" select_one (with_cache (Some false)) in
  (* useCache: false, with a fresh entry in the store *)
  (sent (executeQuery sample_config [(key, sample_entry 9 90 5000)] call
           "sql" select_one (with_cache (Some false))) = Some request
   /\ cache_after (executeQuery sample_config [(key, sample_entry 9 90 5000)]
                     call "sql" select_one (with_cache (Some false)))
      = [(key, sample_entry 9 90 5000)])
  (* useCache: true, flag set, fresh entry: served from the store *)
  /\ sent (executeQuery sample_config [(key, sample_entry 9 90 5000)] call
             "sql" select_one (with_cache (Some true))) = None
  (* useCache: true, flag set, empty store: sent and stored *)
  /\ map_get key
       (cache_after (executeQuery sample_config [] call "sql" select_one
                       (with_cache (Some true))))
     = Some (stored sample_config call (with_cache (Some true))
               (http_ok (JArr [JNum 1])))
  (* useCache: true, flag unset: sent, nothing stored *)
  /\ cache_after (executeQuery config_without_cache [] call "sql" select_one
                    (with_cache (Some true))) = [].
Proof.
  intros ok call key request.
  assert (Hel : eligible "sql") by reflexivity.
  assert (Hnd : NoDup (map_keys [(key, sample_entry 9 90 5000)])).
  { repeat constructor. simpl. tauto. }
  split; [|split; [|split]].
  - destruct (useCache_override sample_config [(key, sample_entry 9 90 5000)]
                call "sql" select_one (with_cache (Some false)))
      as [H _].
    destruct (H eq_refl) as (H1 & _ & H3). split; assumption.
  - destruct (useCache_override sample_config [(key, sample_entry 9 90 5000)]
                call "sql" select_one (with_cache (Some true)))
      as (_ & _ & H).
    destruct (H eq_refl eq_refl Hel Hnd) as [Hhit _].
    apply (Hhit (sample_entry 9 90 5000)).
    + vm_compute. reflexivity.
    + unfold fresh. simpl. lia.
  - destruct (useCache_override sample_config [] call "sql" select_one
                (with_cache (Some true)))
      as (_ & _ & H).
    destruct (H eq_refl eq_refl Hel (NoDup_nil _)) as [_ Hmiss].
    destruct (Hmiss (or_introl eq_refl)) as (_ & _ & Hst).
    apply Hst. reflexivity.
  - destruct (useCache_override config_without_cache [] call "sql" select_one
                (with_cache (Some true)))
      as (_ & H & _).
    apply (H eq_refl eq_refl).
Defined.

(** C1 as stated fails when the configuration flag is unset: a call with
    [useCache: true] for the cache-eligible operation [sql] succeeds and
    stores nothing, and the same call made again is sent again. *)
Lemma useCache_true_without_flag :
  let ok := Fulfilled (http_ok (JArr [JNum 1])) in
  let first :=
    executeQuery config_without_cache [] (sample_call 100 150 ok)
      "sql" select_one (with_cache (Some true)) in
  let second :=
    executeQuery config_without_cache (cache_after first)
      (sample_call 200 250 ok) "sql" select_one (with_cache (Some true)) in
  eligible "sql"
  /\ flag (enableCache config_without_cache) = false
  /\ outcome first = Ok (envelope (http_ok (JArr [JNum 1])) 50)
  /\ cache_after first = []
  /\ sent second
     = Some (outbound config_without_cache "sql" select_one
               (with_cache (Some true))).
Proof. vm_compute. repeat split. Qed.

(** ** [select] *)

(** C10. A [select] given neither a [where] condition nor raw [sql] never
    throws: when the execution of its statement fails, with whatever
    error, it returns empty data and [recordsAffected = 0]. *)
Theorem select_swallows_failure (cfg : HarperDBConfig)
    (sort_rows : string -> bool -> JSON -> Result JSON)
    (cache : Cache) (call : Call) (table : string) (options : SelectOptions) :
  s_where options = None ->
  truthy_string (str_or (s_sql options) "") = false ->
  let x :=
    executeQuery cfg cache call "sql"
      (JObj [("sql", JStr (select_statement cfg table options))])
      (s_query options) in
  (forall e,
     outcome x = Throw e ->
     select cfg sort_rows cache call table options
     = (Ok {| q_data := JArr [];
              q_metadata :=
                {| q_executionTime := returned_at x - started call;
                   recordsAffected := Some (JNum 0) |} |},
        cache_after x))
  /\ exists r, fst (select cfg sort_rows cache call table options) = Ok r.
Proof.
  intros Hwhere Hsql x. unfold select. rewrite Hsql, Hwhere. fold x. split.
  - intros e He. rewrite He. reflexivity.
  - destruct (outcome x); eexists; reflexivity.
Qed.

Lemma select_swallows_failure_witness :
  select sample_config (fun _ _ v => Ok v) []
    (sample_call 100 150 (Rejected (http_error 500))) "dogs" no_select_options
  = (Ok {| q_data := JArr [];
           q_metadata := {| q_executionTime := 50;
                            recordsAffected := Some (JNum 0) |} |},
     []).
Proof.
  destruct (select_swallows_failure sample_config (fun _ _ v => Ok v) []
              (sample_call 100 150 (Rejected (http_error 500))) "dogs"
              no_select_options eq_refl eq_refl) as [H _].
  apply (H (query_failed (http_error 500))). reflexivity.
Defined.

(** ** [parallel] *)

Section PromiseFacts.
Context {A : Type}.
Implicit Types (ps : list (Promise A)).

Lemma first_rejection_None ps :
  first_rejection ps = None <-> forallb succeeded ps = true.
Proof.
  induction ps as [|p r IH]; simpl; [tauto|].
  unfold succeeded at 1.
  destruct (settlement p); simpl.
  - exact IH.
  - split; [|discriminate].
    destruct (first_rejection r) as [[t e']|]; [|discriminate].
    destruct (t <? settled_at p); discriminate.
Qed.

(** The rejection [Promise.all] reports belongs to a rejected promise that
    no rejected promise precedes in time. *)
Lemma first_rejection_Some ps t e :
  first_rejection ps = Some (t, e) ->
  exists i p,
    nth_error ps i = Some p /\ settlement p = Throw e /\ settled_at p = t
    /\ forall j q, nth_error ps j = Some q -> rejected q = true ->
                   t <= settled_at q.
Proof.
  revert t e. induction ps as [|p r IH]; simpl; intros t e H; [discriminate|].
  destruct (settlement p) as [a|e0] eqn:Ep.
  - destruct (IH t e H) as (i & q & Hi & Hq & Ht & Hmin).
    exists (S i), q. repeat split; auto.
    intros [|j] q' Hj Hrej; simpl in Hj.
    + injection Hj as <-. unfold rejected, succeeded in Hrej.
      rewrite Ep in Hrej. discriminate.
    + eauto.
  - destruct (first_rejection r) as [[t' e']|] eqn:Er.
    + destruct (IH t' e' eq_refl) as (i & q & Hi & Hq & Ht & Hmin).
      destruct (Z.ltb_spec t' (settled_at p)) as [Hlt|Hge];
        injection H as <- <-.
      * exists (S i), q. repeat split; auto.
        intros [|j] q' Hj Hrej; simpl in Hj.
        -- injection Hj as <-. lia.
        -- eauto.
      * exists O, p. repeat split; auto.
        intros [|j] q' Hj Hrej; simpl in Hj.
        -- injection Hj as <-. lia.
        -- specialize (Hmin j q' Hj Hrej). lia.
    + injection H as <- <-. exists O, p. repeat split; auto.
      intros [|j] q' Hj Hrej; simpl in Hj.
      * injection Hj as <-. lia.
      * apply first_rejection_None in Er.
        rewrite forallb_forall in Er.
        apply nth_error_In in Hj. apply Er in Hj.
        unfold rejected in Hrej. rewrite Hj in Hrej. discriminate.
Qed.

Lemma first_rejection_exists ps :
  existsb rejected ps = true -> exists t e, first_rejection ps = Some (t, e).
Proof.
  intros H. destruct (first_rejection ps) as [[t e]|] eqn:E; [eauto|].
  apply first_rejection_None in E.
  apply existsb_exists in H. destruct H as (p & Hin & Hp).
  rewrite forallb_forall in E. apply E in Hin.
  unfold rejected in Hp. rewrite Hin in Hp. discriminate.
Qed.

End PromiseFacts.

Lemma first_rejection_catch_true ops :
  first_rejection (map (catch true) ops) = first_rejection ops.
Proof.
  induction ops as [|p r IH]; simpl; [reflexivity|].
  rewrite IH. destruct (settlement p); reflexivity.
Qed.

Lemma first_rejection_catch_false ops :
  first_rejection (map (catch false) ops) = None.
Proof.
  induction ops as [|p r IH]; simpl; [reflexivity|].
  rewrite IH. destruct (settlement p); reflexivity.
Qed.

Lemma fulfilled_catch ff ops :
  forallb succeeded (map (catch ff) ops) = true ->
  map present (fulfilled (map (catch ff) ops)) = map reported ops
  /\ List.length (filter without_error (fulfilled (map (catch ff) ops)))
     = List.length (filter succeeded ops)
  /\ List.length (fulfilled (map (catch ff) ops)) = List.length ops.
Proof.
  induction ops as [|p r IH]; simpl; [auto|].
  unfold succeeded at 1, reported at 1, succeeded at 2. simpl.
  destruct (settlement p) as [a|e]; simpl.
  - intros H. destruct (IH H) as (H1 & H2 & H3). simpl.
    rewrite H1, H2, H3. auto.
  - destruct ff; simpl; [discriminate|].
    intros H. destruct (IH H) as (H1 & H2 & H3).
    rewrite H1, H2, H3. auto.
Qed.

Lemma all_succeeded_catch_false ops :
  forallb succeeded (map (catch false) ops) = true.
Proof. apply first_rejection_None, first_rejection_catch_false. Qed.

Lemma filter_split_length {A} (p : A -> bool) (l : list A) :
  (List.length (filter p l)
   + List.length (filter (fun x => negb (p x)) l) = List.length l)%nat.
Proof.
  induction l as [|x l IH]; simpl; [reflexivity|].
  destruct (p x); simpl; lia.
Qed.

Section ParallelFacts.
Variable cfg : HarperDBConfig.
Variable invoke : nat -> Invocation -> Promise QueryResult.

Lemma parallel_unfold queries options startTime now :
  parallel cfg invoke queries options startTime now
  = match Promise_all
            (map (catch (flag (failFast options)))
               (launched invoke queries startTime)) with
    | Throw e => Throw e
    | Ok results =>
        Ok {| results := map present results;
              p_executionTime := now - startTime;
              p_successful :=
                Z.of_nat (List.length (filter without_error results));
              p_failed :=
                Z.of_nat (List.length results)
                - Z.of_nat (List.length (filter without_error results)) |}
    end.
Proof.
  unfold parallel, launched, queryPromise. now rewrite map_map.
Qed.

(** The aggregate returned when no promise of the list rejects. *)
Lemma parallel_aggregate queries options startTime now :
  forallb succeeded
    (map (catch (flag (failFast options)))
       (launched invoke queries startTime)) = true ->
  let ops := launched invoke queries startTime in
  parallel cfg invoke queries options startTime now
  = Ok {| results := map reported ops;
          p_executionTime := now - startTime;
          p_successful := Z.of_nat (List.length (filter succeeded ops));
          p_failed := Z.of_nat (List.length (filter rejected ops)) |}.
Proof.
  intros Hall ops. rewrite parallel_unfold. fold ops in Hall |- *.
  unfold Promise_all.
  apply first_rejection_None in Hall. rewrite Hall.
  apply first_rejection_None in Hall.
  destruct (fulfilled_catch _ _ Hall) as (H1 & H2 & H3).
  rewrite H1, H2, H3. do 2 f_equal.
  pose proof (filter_split_length succeeded ops). unfold rejected. lia.
Qed.

(** C9. With [failFast = true], when some operation fails, [parallel]
    throws and returns no aggregate; the error thrown is that of a failed
    operation which no failed operation precedes in time. With
    [failFast = false] or unset, [parallel] never throws: it returns one
    entry per operation, in order, the entry of a failed operation being
    the placeholder that carries its error message, and it counts the
    operations that succeeded and those that failed. *)
Theorem parallel_policy (queries : list ParallelQuery)
    (options : ParallelQueryOptions) (startTime now : Z) :
  let ops := launched invoke queries startTime in
  (failFast options = Some true -> existsb rejected ops = true ->
   exists i p e,
     nth_error ops i = Some p /\ settlement p = Throw e
     /\ (forall j q, nth_error ops j = Some q -> rejected q = true ->
                     settled_at p <= settled_at q)
     /\ parallel cfg invoke queries options startTime now = Throw e)
  /\
  (flag (failFast options) = false ->
   exists r,
     parallel cfg invoke queries options startTime now = Ok r
     /\ results r = map reported ops
     /\ List.length (results r) = List.length queries
     /\ p_successful r = Z.of_nat (List.length (filter succeeded ops))
     /\ p_failed r = Z.of_nat (List.length (filter rejected ops))
     /\ p_successful r + p_failed r = Z.of_nat (List.length queries)
     /\ forall i p e,
          nth_error ops i = Some p -> settlement p = Throw e ->
          nth_error (results r) i
          = Some {| q_data := JObj [("data", JNull);
                                    ("error", JStr (error_message e))];
                    q_metadata := {| q_executionTime := 0;
                                     recordsAffected := None |} |}).
Proof.
  intros ops.
  assert (Hlen : List.length ops = List.length queries).
  { unfold ops, launched. rewrite length_map.
    generalize 0 as i. induction queries as [|q l IH]; intros i; simpl;
      [reflexivity | now rewrite IH]. }
  split.
  - intros Hff Hrej.
    destruct (first_rejection_exists ops Hrej) as (t & e & Hfirst).
    destruct (first_rejection_Some ops t e Hfirst)
      as (i & p & Hi & Hp & Ht & Hmin).
    exists i, p, e. repeat split; auto.
    + intros j q Hj Hq. rewrite Ht. eauto.
    + rewrite parallel_unfold. fold ops. unfold flag. rewrite Hff.
      unfold Promise_all. rewrite first_rejection_catch_true, Hfirst.
      reflexivity.
  - intros Hff. eexists. split.
    + apply parallel_aggregate. rewrite Hff. apply all_succeeded_catch_false.
    + fold ops. cbn [results p_successful p_failed].
      pose proof (filter_split_length succeeded ops) as Hsplit.
      repeat split.
      * rewrite length_map. exact Hlen.
      * unfold rejected. lia.
      * intros i p e Hi He. rewrite nth_error_map, Hi. simpl.
        unfold reported. rewrite He. reflexivity.
Qed.

End ParallelFacts.

(** ** Bulk writes: groups *)

Lemma chunk_from_nth {A} (size : nat) :
  (0 < size)%nat ->
  forall fuel (l : list A) b,
    (List.length l <= fuel)%nat ->
    nth_error (chunk_from fuel size l) b
    = if (b * size <? List.length l)%nat
      then Some (firstn size (skipn (b * size) l))
      else None.
Proof.
  intros Hsize. induction fuel as [|fuel IH]; intros l b Hfuel.
  - destruct l; [|simpl in Hfuel; lia]. simpl.
    destruct (Nat.ltb_spec (b * size) 0); [lia|]. now destruct b.
  - destruct l as [|x l].
    + simpl. destruct (Nat.ltb_spec (b * size) 0); [lia|]. now destruct b.
    + cbn [chunk_from]. destruct b as [|b].
      * simpl. reflexivity.
      * cbn [nth_error]. rewrite IH.
        2:{ rewrite length_skipn. cbn [List.length] in *. lia. }
        rewrite length_skipn, skipn_skipn.
        replace (b * size + size)%nat with (S b * size)%nat by lia.
        destruct (Nat.ltb_spec (b * size) (List.length (x :: l) - size));
          destruct (Nat.ltb_spec (S b * size) (List.length (x :: l)));
          try reflexivity; cbn [List.length] in *; lia.
Qed.

Lemma chunk_nth (items : list JSON) (size : Z) (b : nat) :
  1 <= size ->
  nth_error (chunk items size) b
  = if Z.of_nat b * size <? Z.of_nat (List.length items)
    then Some (firstn (Z.to_nat size)
                 (skipn (Z.to_nat (Z.of_nat b * size)) items))
    else None.
Proof.
  intros Hsize. unfold chunk.
  destruct (Z.ltb_spec (Z.max size 0) 1); [lia|].
  rewrite chunk_from_nth by lia.
  replace (Z.to_nat (Z.of_nat b * size)) with (b * Z.to_nat size)%nat by nia.
  destruct (Nat.ltb_spec (b * Z.to_nat size) (List.length items));
    destruct (Z.ltb_spec (Z.of_nat b * size) (Z.of_nat (List.length items)));
    try reflexivity; nia.
Qed.

Lemma indexed_In {A} (l : list A) :
  forall i b x,
    In (b, x) (indexed i l)
    <-> exists n, b = i + Z.of_nat n /\ nth_error l n = Some x.
Proof.
  induction l as [|y l IH]; intros i b x; simpl.
  - split; [tauto|]. intros ([|n] & _ & H); discriminate.
  - rewrite IH. split.
    + intros [H|(n & Hb & Hn)].
      * injection H as <- <-. exists O. split; [lia | reflexivity].
      * exists (S n). split; [lia | exact Hn].
    + intros ([|n] & Hb & Hn); simpl in Hn.
      * left. injection Hn as <-. f_equal. lia.
      * right. exists n. split; [lia | exact Hn].
Qed.

(** The groups of a bulk write are the consecutive slices of the input:
    group [b] holds the positions [b * size .. b * size + size - 1] that
    exist. *)
Lemma groups_In (items : list JSON) (size : Z) b batch :
  1 <= size ->
  In (b, batch) (indexed 0 (chunk items size))
  <-> 0 <= b /\ b * size < Z.of_nat (List.length items)
      /\ batch = firstn (Z.to_nat size) (skipn (Z.to_nat (b * size)) items).
Proof.
  intros Hsize. rewrite indexed_In. split.
  - intros (n & -> & Hn). rewrite chunk_nth in Hn by assumption.
    simpl. destruct (Z.ltb_spec (Z.of_nat n * size)
                       (Z.of_nat (List.length items))); [|discriminate].
    injection Hn as <-. repeat split; try lia.
  - intros (Hb & Hlt & ->). exists (Z.to_nat b).
    split; [lia|]. rewrite chunk_nth by assumption.
    rewrite Z2Nat.id by assumption.
    destruct (Z.ltb_spec (b * size) (Z.of_nat (List.length items)));
      [reflexivity | lia].
Qed.

Lemma group_length (items : list JSON) (size b : Z) :
  1 <= size -> 0 <= b -> b * size < Z.of_nat (List.length items) ->
  Z.of_nat (List.length
              (firstn (Z.to_nat size) (skipn (Z.to_nat (b * size)) items)))
  = Z.min size (Z.of_nat (List.length items) - b * size).
Proof.
  intros. rewrite length_firstn, length_skipn. lia.
Qed.

Lemma batch_errors_In {A} (start : Z) (batch : list A) msg i m :
  In {| index := i; error := m |} (batch_errors start batch msg)
  <-> m = msg /\ start <= i < start + Z.of_nat (List.length batch).
Proof.
  unfold batch_errors. rewrite in_map_iff. split.
  - intros ([j x] & H & Hin). injection H as <- <-.
    apply indexed_In in Hin. destruct Hin as (n & -> & Hn).
    apply nth_error_Some_lt in Hn || idtac.
    split; [reflexivity|]. simpl.
    assert (n < List.length batch)%nat
      by (apply nth_error_Some; congruence).
    lia.
  - intros [-> Hi].
    destruct (nth_error batch (Z.to_nat (i - start))) as [x|] eqn:Hx.
    + exists (i - start, x). split; [simpl; f_equal; lia|].
      apply indexed_In. exists (Z.to_nat (i - start)). split; [lia | exact Hx].
    + apply nth_error_None in Hx. lia.
Qed.

(** ** Bulk writes: one group *)

Lemma executeQuery_write cfg cache call operation body options :
  write_operation operation ->
  executeQuery cfg cache call operation body options
  = {| outcome :=
         from_network call (send call (outbound cfg operation body options));
       cache_after := cache;
       sent := Some (outbound cfg operation body options);
       returned_at := finished call |}.
Proof.
  intros Hw. unfold executeQuery, executeQuery_begin.
  assert (Hkey : generateCacheKey operation body = "").
  { unfold generateCacheKey. unfold write_operation in Hw. now rewrite Hw. }
  rewrite Hkey.
  destruct (match useCache options with
            | Some b => b
            | None => flag (enableCache cfg)
            end);
    simpl; unfold executeQuery_settle, from_network;
    now destruct (send call (outbound cfg operation body options)).
Qed.

(** Before its [await], the call made for a group of a bulk write neither
    reads nor changes the store. *)
Lemma write_begin_ignores_cache cfg cache now operation body options :
  write_operation operation ->
  executeQuery_begin cfg cache now operation body options
  = (Awaiting (outbound cfg operation body options) ""
       match useCache options with
       | Some b => b
       | None => flag (enableCache cfg)
       end,
     cache).
Proof.
  intros Hw. unfold executeQuery_begin.
  assert (Hkey : generateCacheKey operation body = "").
  { unfold generateCacheKey. unfold write_operation in Hw. now rewrite Hw. }
  rewrite Hkey.
  destruct (match useCache options with
            | Some b => b
            | None => flag (enableCache cfg)
            end); reflexivity.
Qed.

Lemma query_failed_message e :
  str_or (Some (error_message (query_failed e))) "Unknown error"
  = error_message (query_failed e).
Proof. reflexivity. Qed.

Section BulkFacts.
Variable decodeKey : string -> option JSON.
Variable cfg : HarperDBConfig.
Variable calls : nat -> Call.
Variables operation field table : string.
Variable options : BulkOptions.
Hypothesis Hwrite : write_operation operation.

Let fate := verdict cfg calls operation field table options.

Lemma parallel_step_counts batchSize t group :
  counts (parallel_step cfg calls operation field table options batchSize
            t group)
  = count_group batchSize fate (counts t) group
  /\ t_cache (parallel_step cfg calls operation field table options batchSize
                t group) = t_cache t.
Proof.
  destruct group as [b batch]. unfold parallel_step.
  rewrite executeQuery_write by assumption. cbn [outcome cache_after].
  unfold counts, count_group, group_errors, fate, verdict, from_network,
    group_request, size.
  cbn [fst snd].
  destruct (send _ _); cbn [t_successful t_failed t_errors t_cache]; auto.
Qed.

Lemma sequential_step_counts batchSize batches t group :
  counts (sequential_step decodeKey cfg calls operation field table options
            batchSize batches t group)
  = count_group batchSize fate (counts t) group
  /\ t_cache (sequential_step decodeKey cfg calls operation field table
                options batchSize batches t group)
     = if negb (failed_group fate group) && (fst group =? batches - 1)
       then invalidateTableCache decodeKey cfg (t_cache t) table
              (Some (write_schema cfg (hashAttribute options)))
       else t_cache t.
Proof.
  destruct group as [b batch]. unfold sequential_step.
  rewrite executeQuery_write by assumption. cbn [outcome cache_after].
  unfold counts, count_group, group_errors, failed_group, fate, verdict,
    from_network, group_request, size.
  cbn [fst snd].
  destruct (send _ _); cbn [t_successful t_failed t_errors t_cache]; auto.
Qed.

Lemma parallel_fold batchSize groups :
  forall t,
    counts (fold_left
              (parallel_step cfg calls operation field table options batchSize)
              groups t)
    = fold_left (count_group batchSize fate) groups (counts t)
    /\ t_cache (fold_left
                  (parallel_step cfg calls operation field table options
                     batchSize) groups t) = t_cache t.
Proof.
  induction groups as [|g l IH]; intros t; simpl; [auto|].
  destruct (IH (parallel_step cfg calls operation field table options
                  batchSize t g)) as [H1 H2].
  destruct (parallel_step_counts batchSize t g) as [H3 H4].
  rewrite H1, H2, H3, H4. auto.
Qed.

Lemma sequential_fold batchSize batches groups :
  forall t,
    counts (fold_left
              (sequential_step decodeKey cfg calls operation field table
                 options batchSize batches) groups t)
    = fold_left (count_group batchSize fate) groups (counts t).
Proof.
  induction groups as [|g l IH]; intros t; simpl; [auto|].
  rewrite IH.
  now destruct (sequential_step_counts batchSize batches t g) as [-> _].
Qed.

End BulkFacts.

(** ** Bulk writes: the counters *)

Lemma indexed_length {A} (l : list A) i : List.length (indexed i l) = List.length l.
Proof. revert i. induction l; intros i; simpl; auto. Qed.

Section Counting.
Variable batchSize : Z.
Variable fate : Z * list JSON -> option string.

Lemma total_cons f g l : total f (g :: l) = f g + total f l.
Proof. reflexivity. Qed.

Lemma count_fold groups :
  forall s f e,
    fold_left (count_group batchSize fate) groups (s, f, e)
    = (s + total (size_if (fun g => negb (failed_group fate g))) groups,
       f + total (size_if (failed_group fate)) groups,
       (e ++ flat_map (group_errors batchSize fate) groups)%list).
Proof.
  induction groups as [|g l IH]; intros s f e.
  - simpl. now rewrite !Z.add_0_r, app_nil_r.
  - cbn [fold_left flat_map]. rewrite !total_cons.
    replace (count_group batchSize fate (s, f, e) g)
      with (match fate g with
            | None => (s + size g, f, e)
            | Some msg =>
                (s, f + size g, (e ++ group_errors batchSize fate g)%list)
            end) by reflexivity.
    unfold size_if at 1 3, failed_group at 1 3.
    destruct (fate g) eqn:Eg; rewrite IH; cbn [negb].
    + rewrite <- app_assoc.
      apply f_equal2; [apply f_equal2; lia | reflexivity].
    + unfold group_errors at 2. rewrite Eg. cbn [app].
      apply f_equal2; [apply f_equal2; lia | reflexivity].
Qed.

Lemma total_perm f l l' : Permutation l l' -> total f l = total f l'.
Proof.
  induction 1; simpl; lia.
Qed.

Lemma total_split groups :
  total (size_if (fun g => negb (failed_group fate g))) groups
  + total (size_if (failed_group fate)) groups
  = total size groups.
Proof.
  induction groups as [|g l IH]; simpl; [reflexivity|].
  unfold size_if at 1 3. destruct (failed_group fate g); simpl; lia.
Qed.

Lemma errors_length groups :
  Z.of_nat (List.length (flat_map (group_errors batchSize fate) groups))
  = total (size_if (failed_group fate)) groups.
Proof.
  induction groups as [|g l IH]; simpl; [reflexivity|].
  rewrite length_app, Nat2Z.inj_add, IH. f_equal.
  unfold group_errors, size_if, failed_group, size.
  destruct (fate g); [|reflexivity].
  unfold batch_errors. now rewrite length_map, indexed_length.
Qed.


End Counting.

Lemma indexed_skipn {A} n : forall (l : list A) i,
  skipn n (indexed i l) = indexed (i + Z.of_nat n) (skipn n l).
Proof.
  induction n as [|n IH]; intros l i.
  - simpl. now rewrite Z.add_0_r.
  - destruct l as [|x l]; [reflexivity|]. simpl skipn. rewrite IH.
    f_equal. lia.
Qed.

Lemma indexed_firstn {A} n : forall (l : list A) i,
  firstn n (indexed i l) = indexed i (firstn n l).
Proof.
  induction n as [|n IH]; intros l i; [reflexivity|].
  destruct l as [|x l]; [reflexivity|]. simpl. now rewrite IH.
Qed.

Lemma total_size_indexed (l : list (list JSON)) i :
  total size (indexed i l) = Z.of_nat (List.length (List.concat l)).
Proof.
  revert i. induction l as [|x l IH]; intros i; simpl; [reflexivity|].
  rewrite IH, length_app. unfold size. simpl. lia.
Qed.

Lemma chunk_from_concat {A} (size : nat) :
  (0 < size)%nat ->
  forall fuel (l : list A),
    (List.length l <= fuel)%nat -> List.concat (chunk_from fuel size l) = l.
Proof.
  intros Hsize. induction fuel as [|fuel IH]; intros l Hfuel.
  - destruct l; [reflexivity | simpl in Hfuel; lia].
  - destruct l as [|x l]; [reflexivity|].
    cbn [chunk_from List.concat]. rewrite IH.
    + apply firstn_skipn.
    + rewrite length_skipn. cbn [List.length] in *. lia.
Qed.

Lemma chunk_concat (items : list JSON) (size : Z) :
  1 <= size -> List.concat (chunk items size) = items.
Proof.
  intros H. unfold chunk. destruct (Z.ltb_spec (Z.max size 0) 1); [lia|].
  apply chunk_from_concat; lia.
Qed.

(** ** Bulk writes: waves *)

Lemma js_slice_window {A} (l : list A) (i c : Z) :
  0 <= i < Z.of_nat (List.length l) -> 1 <= c ->
  js_slice l i (i + c) = firstn (Z.to_nat c) (skipn (Z.to_nat i) l).
Proof.
  intros Hi Hc. unfold js_slice.
  destruct (Z.ltb_spec i 0); [lia|].
  destruct (Z.ltb_spec (i + c) 0); [lia|].
  rewrite (Z.min_l i) by lia.
  destruct (Z.le_ge_cases (i + c) (Z.of_nat (List.length l))).
  - rewrite Z.min_l by lia. f_equal. lia.
  - rewrite Z.min_r by lia.
    rewrite !firstn_all2; try reflexivity; rewrite length_skipn; lia.
Qed.

Section Waves.
Variable cfg : HarperDBConfig.
Variable calls : nat -> Call.

Lemma settle_insert_perm g l : Permutation (settle_insert calls g l) (g :: l).
Proof.
  induction l as [|h r IH]; simpl; [reflexivity|].
  destruct (_ <=? _); [reflexivity|].
  rewrite IH. apply perm_swap.
Qed.

Lemma settle_order_perm wave : Permutation (settle_order calls wave) wave.
Proof.
  induction wave as [|g l IH]; simpl; [reflexivity|].
  rewrite settle_insert_perm. now constructor.
Qed.

Variables operation field table : string.
Variable options : BulkOptions.

(** The loop over the waves ends, having settled every group once. *)
Lemma waves_spec batchSize concurrency batches :
  1 <= concurrency ->
  forall fuel i t,
    0 <= i ->
    Z.of_nat (List.length batches) - i <= Z.of_nat fuel ->
    exists settled_groups,
      Permutation settled_groups (skipn (Z.to_nat i) (indexed 0 batches))
      /\ waves cfg calls fuel operation field table options batchSize
           concurrency batches i t
         = Some (fold_left
                   (parallel_step cfg calls operation field table options
                      batchSize) settled_groups t).
Proof.
  intros Hc. induction fuel as [|fuel IH]; intros i t Hi Hfuel.
  - exists []. simpl.
    destruct (Z.ltb_spec i (Z.of_nat (List.length batches))); [lia|].
    split; [|reflexivity].
    rewrite skipn_all2; [reflexivity|]. rewrite indexed_length. lia.
  - cbn [waves].
    destruct (Z.ltb_spec i (Z.of_nat (List.length batches))) as [Hlt|Hge].
    + set (wave := settle_order calls
                     (indexed i (js_slice batches i (i + concurrency)))).
      destruct (IH (i + concurrency)
                  (fold_left
                     (parallel_step cfg calls operation field table options
                        batchSize) wave t))
        as (rest & Hperm & Hrun); [lia | lia |].
      exists (wave ++ rest)%list. split.
      * unfold wave. rewrite settle_order_perm, Hperm.
        rewrite js_slice_window by lia.
        apply Permutation_trans
          with (firstn (Z.to_nat concurrency)
                  (skipn (Z.to_nat i) (indexed 0 batches))
                ++ skipn (Z.to_nat concurrency)
                     (skipn (Z.to_nat i) (indexed 0 batches)))%list.
        -- apply Permutation_app.
           ++ rewrite indexed_skipn, indexed_firstn.
              replace (0 + Z.of_nat (Z.to_nat i)) with i by lia. reflexivity.
           ++ rewrite skipn_skipn.
              replace (Z.to_nat concurrency + Z.to_nat i)%nat
                with (Z.to_nat (i + concurrency)) by lia.
              reflexivity.
        -- now rewrite firstn_skipn.
      * rewrite Hrun, fold_left_app. reflexivity.
    + exists []. split; [|reflexivity].
      rewrite skipn_all2; [reflexivity|]. rewrite indexed_length. lia.
Qed.

End Waves.

(** ** Bulk writes: the result *)

Lemma error_list_bulk_result t startTime now :
  error_list (bulk_result t startTime now) = t_errors t.
Proof. unfold error_list, bulk_result. simpl. now destruct (t_errors t). Qed.

Lemma group_at_In (items : list JSON) (size : Z) b batch i :
  1 <= size ->
  In (b, batch) (indexed 0 (chunk items size)) ->
  b * size <= i < b * size + Z.of_nat (List.length batch) ->
  0 <= i < Z.of_nat (List.length items)
  /\ group_at items size i = (b, batch).
Proof.
  intros Hsize Hin Hi. apply groups_In in Hin; [|assumption].
  destruct Hin as (Hb & Hlt & ->).
  rewrite group_length in Hi by assumption.
  assert (Hdiv : i / size = b).
  { symmetry. apply Z.div_unique with (r := i - b * size); lia. }
  split; [nia|]. unfold group_at. now rewrite Hdiv.
Qed.

Lemma In_group_at (items : list JSON) (size : Z) i :
  1 <= size -> 0 <= i < Z.of_nat (List.length items) ->
  In (group_at items size i) (indexed 0 (chunk items size))
  /\ fst (group_at items size i) * size <= i
     < fst (group_at items size i) * size
       + Z.of_nat (List.length (snd (group_at items size i))).
Proof.
  intros Hsize Hi. unfold group_at. cbn [fst snd].
  pose proof (Z.div_mod i size ltac:(lia)) as Hdm.
  pose proof (Z.mod_pos_bound i size ltac:(lia)) as Hmod.
  assert (Hb : 0 <= i / size) by (apply Z.div_pos; lia).
  split.
  - apply groups_In; [assumption|]. repeat split; try lia; try nia.
  - rewrite group_length by (try assumption; nia). nia.
Qed.

Lemma accounted_of_counts (items : list JSON) (batchSize : Z) fate t
    settled_groups startTime now :
  1 <= batchSize ->
  Permutation settled_groups (indexed 0 (chunk items batchSize)) ->
  counts t = fold_left (count_group batchSize fate) settled_groups (0, 0, []) ->
  accounted items batchSize fate (bulk_result t startTime now).
Proof.
  intros Hsize Hperm Hcounts. rewrite count_fold in Hcounts.
  unfold counts in Hcounts. injection Hcounts as Hs Hf He.
  simpl in Hs, Hf, He.
  unfold accounted. rewrite error_list_bulk_result. cbn [successful failed errors bulk_result].
  rewrite Hs, Hf, He.
  split; [|split; [|split; [|split]]].
  - rewrite total_split, (total_perm _ _ _ Hperm), total_size_indexed.
    now rewrite chunk_concat.
  - apply total_perm, Hperm.
  - symmetry. apply errors_length.
  - intros i msg. rewrite in_flat_map. split.
    + intros ([b batch] & Hin & Herr).
      apply (Permutation_in _ Hperm) in Hin.
      unfold group_errors in Herr.
      destruct (fate (b, batch)) as [m|] eqn:Hfate; [|contradiction].
      apply batch_errors_In in Herr. cbn [fst snd] in Herr.
      destruct Herr as [-> Hi].
      destruct (group_at_In items batchSize b batch i Hsize Hin Hi)
        as [Hrange ->].
      auto.
    + intros [Hi Hfate].
      destruct (In_group_at items batchSize i Hsize Hi) as [Hin Hpos].
      exists (group_at items batchSize i). split.
      * apply (Permutation_in _ (Permutation_sym Hperm)), Hin.
      * unfold group_errors. rewrite Hfate. apply batch_errors_In. auto.
  - destruct (flat_map _ _); split; congruence.
Qed.

Section BulkResults.
Variable decodeKey : string -> option JSON.
Variable cfg : HarperDBConfig.
Variable calls : nat -> Call.
Variables operation field table : string.
Variable options : BulkOptions.
Hypothesis Hwrite : write_operation operation.

Lemma bulk_sequential_accounted cache startTime now items :
  1 <= group_size options ->
  accounted items (group_size options)
    (verdict cfg calls operation field table options)
    (fst (bulk_sequential decodeKey cfg calls operation field cache
            startTime now table items options)).
Proof.
  intros Hsize. unfold bulk_sequential. fold (group_size options).
  cbn [fst].
  eapply accounted_of_counts; [assumption | reflexivity |].
  now rewrite sequential_fold.
Qed.

(** A bulk write in waves returns, and its result accounts for every
    record. *)
Lemma bulk_parallel_accounted invalidate cache startTime now items :
  1 <= group_size options -> 1 <= wave_width cfg options ->
  exists r cache',
    bulk_parallel decodeKey cfg calls operation field invalidate cache
      startTime now table items options = Some (r, cache')
    /\ accounted items (group_size options)
         (verdict cfg calls operation field table options) r
    /\ cache'
       = if invalidate
         then invalidateTableCache decodeKey cfg cache table
                (Some (write_schema cfg (hashAttribute options)))
         else cache.
Proof.
  intros Hsize Hwidth. unfold bulk_parallel.
  fold (group_size options). fold (wave_width cfg options).
  destruct (waves_spec cfg calls operation field table options
              (group_size options) (wave_width cfg options)
              (chunk items (group_size options)) Hwidth
              (List.length (chunk items (group_size options))) 0
              {| t_successful := 0; t_failed := 0; t_errors := [];
                 t_cache := cache |})
    as (settled_groups & Hperm & Hrun); [lia | lia |].
  rewrite Hrun. simpl skipn in Hperm.
  destruct (parallel_fold cfg calls operation field table options Hwrite
              (group_size options) settled_groups
              {| t_successful := 0; t_failed := 0; t_errors := [];
                 t_cache := cache |}) as [Hcounts Hcache].
  eexists. eexists. split; [reflexivity|]. split.
  - eapply accounted_of_counts; [assumption | exact Hperm | exact Hcounts].
  - rewrite Hcache. reflexivity.
Qed.

(** Up to the last group, [bulk_sequential] leaves the store alone; the
    store is invalidated when, and only when, the last group succeeds. *)
Lemma sequential_cache_unchanged batchSize batches groups :
  (forall g, In g groups ->
     fst g = batches - 1 ->
     failed_group (verdict cfg calls operation field table options) g = true) ->
  forall t,
    t_cache (fold_left
               (sequential_step decodeKey cfg calls operation field table
                  options batchSize batches) groups t) = t_cache t.
Proof.
  induction groups as [|g l IH]; intros Hno t; simpl; [reflexivity|].
  rewrite IH by (intros; apply Hno; [now right | assumption]).
  destruct (sequential_step_counts decodeKey cfg calls operation field table
              options Hwrite batchSize batches t g) as [_ ->].
  destruct (Z.eqb_spec (fst g) (batches - 1)) as [Heq|Hne].
  - rewrite (Hno g (or_introl eq_refl) Heq). reflexivity.
  - now rewrite andb_false_r.
Qed.

End BulkResults.

(** C8. For every input sequence and every pattern of group failures, a
    bulk write returns a result (the sequential ones always, the ones in
    waves whenever the wave width is at least 1) whose counters add up to
    the number of input records, whose [successful] is the total size of
    the groups that succeeded, and whose error list holds, for every
    record of a failed group and for no other, the position of the record
    in the input with the error message of its group. The group size in
    force is assumed to be at least 1. *)
Theorem bulk_partial_failure (decodeKey : string -> option JSON)
    (cfg : HarperDBConfig) (calls : nat -> Call) (cache : Cache)
    (startTime now : Z) (table : string) (items : list JSON)
    (options : BulkOptions) :
  1 <= group_size options ->
  accounted items (group_size options)
    (verdict cfg calls "insert" "records" table options)
    (fst (insertMany decodeKey cfg calls cache startTime now table items
            options))
  /\ accounted items (group_size options)
       (verdict cfg calls "update" "records" table options)
       (fst (updateMany decodeKey cfg calls cache startTime now table items
               options))
  /\ accounted items (group_size options)
       (verdict cfg calls "delete" "hash_values" table options)
       (fst (deleteMany decodeKey cfg calls cache startTime now table items
               options))
  /\ (1 <= wave_width cfg options ->
      (exists r cache',
         insertManyParallel decodeKey cfg calls cache startTime now table
           items options = Some (r, cache')
         /\ accounted items (group_size options)
              (verdict cfg calls "insert" "records" table options) r)
      /\ (exists r cache',
            upsertMany decodeKey cfg calls cache startTime now table items
              options = Some (r, cache')
            /\ accounted items (group_size options)
                 (verdict cfg calls "upsert" "records" table options) r)).
Proof.
  intros Hsize.
  split; [|split; [|split]];
    try (apply bulk_sequential_accounted; [reflexivity | assumption]).
  intros Hwidth. split.
  - destruct (bulk_parallel_accounted decodeKey cfg calls "insert" "records"
                table options eq_refl false cache startTime now items
                Hsize Hwidth) as (r & c & H1 & H2 & _).
    exists r, c. auto.
  - destruct (bulk_parallel_accounted decodeKey cfg calls "upsert" "records"
                table options eq_refl true cache startTime now items
                Hsize Hwidth) as (r & c & H1 & H2 & _).
    exists r, c. auto.
Qed.

Lemma bulk_partial_failure_witness :
  let items := map record (seq 0 2500) in
  let options := with_batches (Some 1000) (Some 2) in
  accounted items 1000
    (verdict sample_config (calls_failing [1%nat]) "insert" "records" "t"
       options)
    (fst (insertMany Reference.decodeKey sample_config (calls_failing [1%nat])
            [] 0 99 "t" items options))
  /\ exists r cache',
       insertManyParallel Reference.decodeKey sample_config
         (calls_failing [1%nat]) [] 0 99 "t" items options = Some (r, cache')
       /\ accounted items 1000
            (verdict sample_config (calls_failing [1%nat]) "insert" "records"
               "t" options) r.
Proof.
  intros items options.
  assert (Hsize : 1 <= group_size options) by (vm_compute; discriminate).
  assert (Hwidth : 1 <= wave_width sample_config options)
    by (vm_compute; discriminate).
  destruct (bulk_partial_failure Reference.decodeKey sample_config
              (calls_failing [1%nat]) [] 0 99 "t" items options Hsize)
    as (Hseq & _ & _ & Hpar).
  split; [exact Hseq|]. apply (Hpar Hwidth).
Defined.

(** The worked case: 2500 records in groups of 1000, two groups at a
    time, the second group failing. *)
Lemma bulk_partial_failure_2500 :
  let items := map record (seq 0 2500) in
  let options := with_batches (Some 1000) (Some 2) in
  match insertManyParallel Reference.decodeKey sample_config
          (calls_failing [1%nat]) [] 0 99 "t" items options with
  | Some (r, _) =>
      successful r = 1500 /\ failed r = 1000
      /\ map index (error_list r) = map Z.of_nat (seq 1000 1000)
      /\ forallb (fun e => (error e =? "HarperDB query failed: Request failed with status code 503")%string)
           (error_list r) = true
  | None => False
  end.
Proof. vm_compute. repeat split. Qed.

(** ** Worked instances *)

Lemma sample_cache_NoDup : NoDup (map_keys sample_cache).
Proof.
  unfold sample_cache, map_keys. simpl.
  repeat constructor; simpl; intuition discriminate.
Qed.

Lemma invalidateTableCache_exact_witness :
  (forall key entry,
     In (key, entry)
       (invalidateTableCache Reference.decodeKey sample_config sample_cache
          "orders" (Some "dev"))
     <-> In (key, entry) sample_cache
         /\ ~ targets Reference.decodeKey "orders"
                (scope sample_config (Some "dev")) key)
  /\ map_keys
       (invalidateTableCache Reference.decodeKey sample_config sample_cache
          "orders" (Some "dev"))
     = map_keys (skipn 2 sample_cache).
Proof.
  split.
  - apply (invalidateTableCache_exact Reference.decodeKey sample_config
             sample_cache "orders" (Some "dev") sample_cache_NoDup).
  - vm_compute. reflexivity.
Defined.

Lemma retry_policy_witness :
  let always_400 (n : nat) := Rejected (http_error 400) in
  let always_timeout (n : nat) := Rejected timeout_error in
  (settled_of (post sample_config always_400)
   = Some (Rejected (http_error 400))
   /\ delays_of (post sample_config always_400) = Some [])
  /\ exists k x,
       post sample_config always_timeout = Some x
       /\ Z.of_nat k = 3
       /\ settled x = Rejected timeout_error
       /\ delays x = map (backoff sample_config) (seq 1 k).
Proof.
  intros always_400 always_timeout. split.
  - destruct (retry_policy sample_config always_400)
      as (k & x & Hx & _ & _ & _ & _ & H4 & _).
    destruct (H4 (http_error 400) eq_refl) as [Hs Hd].
    { split; [eexists; split; [reflexivity | simpl; lia] | discriminate]. }
    rewrite Hx. simpl. now rewrite Hs, Hd.
  - destruct (retry_policy sample_config always_timeout)
      as (k & x & Hx & Hs & Hd & _ & _ & _ & Hall).
    destruct Hall as [Hk (e & He & _)].
    { simpl. lia. }
    { intros i. exists timeout_error. split; [reflexivity|]. now right. }
    exists k, x. repeat split; auto.
Defined.

(** The retry schedule on three transports: two 503 answers then a
    success; a 400 answer; a timeout at every send. *)
Lemma retry_policy_examples :
  post sample_config
    (fun n => if (n <? 2)%nat then Rejected (http_error 503)
              else Fulfilled (http_ok JNull))
  = Some {| settled := Fulfilled (http_ok JNull); delays := [1000; 2000] |}
  /\ post sample_config (fun _ => Rejected (http_error 400))
     = Some {| settled := Rejected (http_error 400); delays := [] |}
  /\ post sample_config (fun _ => Rejected timeout_error)
     = Some {| settled := Rejected timeout_error;
               delays := [1000; 2000; 3000] |}.
Proof. repeat split. Qed.

Lemma parallel_policy_witness :
  (exists r,
     parallel sample_config second_fails three_queries
       {| p_concurrency := None; failFast := None |} 0 20 = Ok r
     /\ p_successful r = 2 /\ p_failed r = 1
     /\ nth_error (results r) 1
        = Some {| q_data :=
                    JObj [("data", JNull);
                          ("error", JStr "HarperDB query failed: boom")];
                  q_metadata := {| q_executionTime := 0;
                                   recordsAffected := None |} |})
  /\ parallel sample_config second_fails three_queries
       {| p_concurrency := None; failFast := Some true |} 0 20
     = Throw {| error_message := "HarperDB query failed: boom" |}.
Proof.
  split.
  - destruct (parallel_policy sample_config second_fails three_queries
                {| p_concurrency := None; failFast := None |} 0 20)
      as [_ H].
    destruct (H eq_refl) as (r & Hr & _ & _ & Hs & Hf & _ & Herr).
    exists r. split; [exact Hr|]. split; [exact Hs|]. split; [exact Hf|].
    apply (Herr 1%nat (second_fails 1 (call_insert (Some "logs")
                         (Some (JObj [("message", JStr "Query executed")]))
                         None))
             {| error_message := "HarperDB query failed: boom" |});
      reflexivity.
  - destruct (parallel_policy sample_config second_fails three_queries
                {| p_concurrency := None; failFast := Some true |} 0 20)
      as [H _].
    destruct (H eq_refl eq_refl) as (i & p & e & Hi & Hp & _ & Hthrow).
    rewrite Hthrow. f_equal.
    destruct i as [|[|[|i]]]; simpl in Hi;
      try (destruct i; discriminate);
      injection Hi as <-; simpl in Hp; try discriminate.
    now injection Hp as <-.
Defined.

(** C2 fails on the code. After a successful [insertManyParallel] on the
    table [orders] the cached search on [orders] is still in the store,
    although its key decodes to a body naming [orders] in the schema in
    scope; [insertMany] in two groups, the first succeeding and the last
    failing, leaves it there too. The sibling paths do invalidate:
    [insert], [upsertMany], and [insertMany] when its last group
    succeeds. *)
Theorem bulk_insert_keeps_stale_entry :
  let cache := [(orders_key, sample_entry 1 0 5000)] in
  let one := [record 1] in
  let two := [record 1; record 2] in
  (exists body,
     Reference.decodeKey orders_key
     = Some (JObj [("operation", JStr "search_by_value"); ("body", body)])
     /\ prop body "table" = Some (JStr "orders")
     /\ prop body "schema" = Some (JStr (scope sample_config None)))
  /\ insertManyParallel Reference.decodeKey sample_config (calls_failing [])
       cache 0 99 "orders" one no_bulk_options
     = Some ({| successful := 1; failed := 0; errors := None;
                bulk_executionTime := 99 |}, cache)
  /\ insertMany Reference.decodeKey sample_config (calls_failing [1%nat])
       cache 0 99 "orders" two (with_batches (Some 1) None)
     = ({| successful := 1; failed := 1;
           errors :=
             Some [{| index := 1;
                      error := "HarperDB query failed: Request failed with status code 503" |}];
           bulk_executionTime := 99 |}, cache)
  /\ snd (insertMany Reference.decodeKey sample_config (calls_failing [])
            cache 0 99 "orders" two (with_batches (Some 1) None)) = []
  /\ snd (insert Reference.decodeKey sample_config cache
            (calls_failing [] 0) "orders" (record 1) no_bulk_options) = []
  /\ option_map snd
       (upsertMany Reference.decodeKey sample_config (calls_failing [])
          cache 0 99 "orders" one no_bulk_options) = Some [].
Proof.
  vm_compute. split; [eexists; repeat split|]; repeat split.
Qed.

(** ** Sorting keys *)


Lemma insert_sorted_perm k l : Permutation (insert_sorted k l) (k :: l).
Proof.
  induction l as [|x l IH]; simpl; [reflexivity|].
  destruct (String.leb k x); [reflexivity|].
  rewrite IH. apply perm_swap.
Qed.

Lemma sort_strings_perm l : Permutation (sort_strings l) l.
Proof.
  induction l as [|k l IH]; simpl; [reflexivity|].
  rewrite insert_sorted_perm. now constructor.
Qed.





(** ** Objects *)

Lemma obj_has_In k m : obj_has k m = true <-> In k (obj_keys m).
Proof.
  unfold obj_has. induction m as [|[k' v'] r IH]; simpl.
  - split; [discriminate | tauto].
  - destruct (String.eqb_spec k k') as [->|Hne].
    + split; auto.
    + rewrite IH. split; [auto | intros [H|H]; [congruence | exact H]].
Qed.

Lemma obj_get_None k m : obj_get k m = None <-> ~ In k (obj_keys m).
Proof.
  rewrite <- obj_has_In. unfold obj_has.
  destruct (obj_get k m); split; congruence.
Qed.

Lemma obj_get_In k v m : obj_get k m = Some v -> In (k, v) m.
Proof.
  induction m as [|[k' v'] r IH]; simpl; [discriminate|].
  destruct (String.eqb_spec k k') as [->|Hne].
  - intros [= ->]. now left.
  - intros H. right. auto.
Qed.


Lemma obj_get_replace k k' v m :
  obj_get k (obj_replace k' v m) =
  if (k =? k')%string
  then (if obj_has k' m then Some v else None)
  else obj_get k m.
Proof.
  unfold obj_has. induction m as [|[k0 v0] r IH]; simpl.
  - now destruct (k =? k')%string.
  - destruct (String.eqb_spec k' k0) as [->|Hne]; simpl.
    + destruct (String.eqb_spec k k0); reflexivity.
    + destruct (String.eqb_spec k k0) as [->|Hne'].
      * destruct (String.eqb_spec k0 k'); congruence.
      * apply IH.
Qed.

Lemma obj_get_insert_index n k k' v m :
  obj_get k' m = None ->
  obj_get k (insert_index n k' v m) =
  if (k =? k')%string then Some v else obj_get k m.
Proof.
  induction m as [|[k0 v0] r IH]; simpl; intros Hnone.
  - reflexivity.
  - destruct (String.eqb_spec k' k0) as [->|Hne]; [discriminate|].
    destruct (array_index k0) as [n'|].
    + destruct (n' <? n)%N; simpl.
      * rewrite IH by assumption.
        destruct (String.eqb_spec k k0) as [->|Hne'];
          destruct (String.eqb_spec k0 k'); congruence || reflexivity.
      * reflexivity.
    + simpl. reflexivity.
Qed.

Lemma obj_get_app k m m' :
  obj_get k (m ++ m')%list =
  match obj_get k m with Some v => Some v | None => obj_get k m' end.
Proof.
  induction m as [|[k0 v0] r IH]; simpl; [reflexivity|].
  destruct (k =? k0)%string; auto.
Qed.

(** Reading after an assignment. *)
Lemma obj_get_set k k' v m :
  obj_get k (obj_set k' v m) =
  if (k =? k')%string then Some v else obj_get k m.
Proof.
  unfold obj_set. destruct (obj_has k' m) eqn:E.
  - rewrite obj_get_replace, E. reflexivity.
  - assert (Hnone : obj_get k' m = None).
    { unfold obj_has in E. now destruct (obj_get k' m). }
    destruct (array_index k') as [n|].
    + now apply obj_get_insert_index.
    + rewrite obj_get_app. simpl.
      destruct (String.eqb_spec k k') as [->|Hne].
      * now rewrite Hnone.
      * now destruct (obj_get k m).
Qed.

Lemma obj_get_map_values (f : JSON -> JSON) k m :
  obj_get k (map (fun kv => (fst kv, f (snd kv))) m)
  = option_map f (obj_get k m).
Proof.
  induction m as [|[k0 v0] r IH]; simpl; [reflexivity|].
  destruct (k =? k0)%string; auto.
Qed.

Lemma obj_keys_map_values (f : JSON -> JSON) m :
  obj_keys (map (fun kv => (fst kv, f (snd kv))) m) = obj_keys m.
Proof. unfold obj_keys. rewrite map_map. reflexivity. Qed.

(** ** [normalizeBody] builds a canonical object *)

Lemma assemble_loop_get fields k :
  forall ks acc,
    obj_get k
      (fold_left
         (fun normalized key =>
            match obj_get key fields with
            | Some v => obj_set key v normalized
            | None => normalized
            end) ks acc)
    = if existsb (String.eqb k) ks
      then match obj_get k fields with
           | Some v => Some v
           | None => obj_get k acc
           end
      else obj_get k acc.
Proof.
  induction ks as [|k0 ks IH]; intros acc; simpl; [reflexivity|].
  rewrite IH.
  destruct (String.eqb_spec k k0) as [->|Hne]; simpl.
  - destruct (obj_get k0 fields) as [v|] eqn:Ev.
    + rewrite obj_get_set, String.eqb_refl.
      now destruct (existsb _ ks).
    + now destruct (existsb _ ks).
  - destruct (obj_get k0 fields) as [v|] eqn:Ev; [|reflexivity].
    rewrite obj_get_set.
    destruct (String.eqb_spec k k0); [contradiction|reflexivity].
Qed.

(** The assembled object has the fields it was given. *)
Lemma assemble_get fields k : obj_get k (assemble fields) = obj_get k fields.
Proof.
  unfold assemble. rewrite assemble_loop_get. simpl.
  destruct (existsb (String.eqb k) (sort_strings (obj_keys fields))) eqn:E.
  - now destruct (obj_get k fields).
  - destruct (obj_get k fields) as [v|] eqn:Ev; [|reflexivity].
    exfalso. apply obj_get_In in Ev.
    assert (Hin : In k (sort_strings (obj_keys fields))).
    { apply (Permutation_in _ (Permutation_sym (sort_strings_perm _))).
      unfold obj_keys. change k with (fst (k, v)). now apply in_map. }
    assert (existsb (String.eqb k) (sort_strings (obj_keys fields)) = true).
    { apply existsb_exists. exists k. split; [exact Hin|].
      apply String.eqb_refl. }
    congruence.
Qed.


Lemma normalizeBody_obj m :
  normalizeBody (JObj m)
  = JObj (assemble (map (fun kv => (fst kv, normalizeField (snd kv))) m)).
Proof. reflexivity. Qed.

(** The loop as the source writes it: for each sorted key, the field of
    the body read and normalized. *)
Lemma normalizeBody_loop m :
  normalizeBody (JObj m)
  = JObj (fold_left
            (fun normalized key =>
               match obj_get key m with
               | Some v => obj_set key (normalizeField v) normalized
               | None => normalized
               end)
            (sort_strings (obj_keys m)) []).
Proof.
  rewrite normalizeBody_obj. unfold assemble.
  rewrite obj_keys_map_values. f_equal.
  generalize (sort_strings (obj_keys m)) as ks.
  generalize (@nil (string * JSON)) as acc.
  intros acc ks. revert acc.
  induction ks as [|k ks IH]; intros acc; simpl; [reflexivity|].
  rewrite obj_get_map_values. destruct (obj_get k m); simpl; apply IH.
Qed.







(** ** The reference decoder inverts the encoder *)

Import Reference.

#[local] Ltac Zify.zify_post_hook ::= Z.to_euclidean_division_equations.

Lemma b64_value_char n :
  (n < 64)%N -> b64_value (b64_char n) = Some n /\ is_pad (b64_char n) = false.
Proof.
  intros Hn.
  assert (H : forallb
                (fun n =>
                   match b64_value (b64_char n) with
                   | Some m => (m =? n)%N
                   | None => false
                   end && negb (is_pad (b64_char n)))
                (map N.of_nat (seq 0 64)) = true) by (vm_compute; reflexivity).
  rewrite forallb_forall in H. specialize (H n).
  assert (Hin : In n (map N.of_nat (seq 0 64))).
  { apply in_map_iff. exists (N.to_nat n). split; [lia|].
    apply in_seq. lia. }
  apply H in Hin. apply andb_true_iff in Hin. destruct Hin as [H1 H2].
  destruct (b64_value (b64_char n)) as [m|]; [|discriminate].
  apply N.eqb_eq in H1. subst. split; [reflexivity|].
  now apply negb_true_iff.
Qed.

Lemma base64_decode_step a b c r rest :
  (a < 256)%N -> (b < 256)%N -> (c < 256)%N ->
  base64_decode r = Some rest ->
  base64_decode
    (String (b64_char (a / 4))
       (String (b64_char (a mod 4 * 16 + b / 16))
          (String (b64_char (b mod 16 * 4 + c / 64))
             (String (b64_char (c mod 64)) r))))
  = Some (a :: b :: c :: rest).
Proof.
  intros Ha Hb Hc Hr. cbn [base64_decode].
  destruct (b64_value_char (a / 4)) as [-> _]; [lia|].
  destruct (b64_value_char (a mod 4 * 16 + b / 16)) as [-> _]; [lia|].
  destruct (b64_value_char (b mod 16 * 4 + c / 64)) as [-> ->]; [lia|].
  destruct (b64_value_char (c mod 64)) as [-> ->]; [lia|].
  rewrite Hr. apply f_equal.
  apply (f_equal2 cons); [lia|].
  apply (f_equal2 cons); [lia|].
  apply (f_equal2 cons); [lia | reflexivity].
Qed.

Lemma base64_decode_encode_aux n :
  forall l, (List.length l <= n)%nat -> octets l ->
            base64_decode (base64 l) = Some l.
Proof.
  induction n as [|n IH]; intros l Hlen Hl.
  - destruct l; [reflexivity | simpl in Hlen; lia].
  - destruct l as [|a [|b [|c r]]].
    + reflexivity.
    + inversion Hl as [|? ? Ha _]; subst.
      cbn [base64 base64_decode].
      destruct (b64_value_char (a / 4)) as [-> _]; [lia|].
      destruct (b64_value_char (a mod 4 * 16)) as [-> _]; [lia|].
      replace (is_pad "=") with true by reflexivity. simpl andb.
      replace ((a mod 4 * 16) mod 16 =? 0)%N with true
        by (symmetry; apply N.eqb_eq; lia).
      apply f_equal. apply (f_equal2 cons); [lia | reflexivity].
    + inversion Hl as [|? ? Ha Hl']; subst.
      inversion Hl' as [|? ? Hb _]; subst.
      cbn [base64 base64_decode].
      destruct (b64_value_char (a / 4)) as [-> _]; [lia|].
      destruct (b64_value_char (a mod 4 * 16 + b / 16)) as [-> _]; [lia|].
      destruct (b64_value_char (b mod 16 * 4)) as [-> ->]; [lia|].
      replace (is_pad "=") with true by reflexivity.
      replace ((b mod 16 * 4) mod 4 =? 0)%N with true
        by (symmetry; apply N.eqb_eq; lia).
      simpl andb. cbv iota. apply f_equal.
      apply (f_equal2 cons); [lia|].
      apply (f_equal2 cons); [lia | reflexivity].
    + inversion Hl as [|? ? Ha Hl']; subst.
      inversion Hl' as [|? ? Hb Hl'']; subst.
      inversion Hl'' as [|? ? Hc Hr]; subst.
      change (base64 (a :: b :: c :: r))
        with (String (b64_char (a / 4))
                (String (b64_char (a mod 4 * 16 + b / 16))
                   (String (b64_char (b mod 16 * 4 + c / 64))
                      (String (b64_char (c mod 64)) (base64 r))))).
      apply base64_decode_step; auto.
      apply IH; [simpl in Hlen; lia | exact Hr].
Qed.

Lemma base64_decode_encode l : octets l -> base64_decode (base64 l) = Some l.
Proof. apply (base64_decode_encode_aux (List.length l)). lia. Qed.

Lemma N_of_ascii_bound c : (N_of_ascii c < 256)%N.
Proof. apply N_ascii_bounded. Qed.

Lemma utf8_octets s : octets (utf8 s).
Proof.
  induction s as [|c s IH]; simpl; [constructor|].
  apply Forall_app. split; [|exact IH].
  unfold utf8_char. pose proof (N_of_ascii_bound c).
  destruct (N.ltb_spec (N_of_ascii c) 128); repeat constructor; lia.
Qed.

Lemma utf8_decode_cons b r :
  utf8_decode (b :: r)
  = if (b <? 128)%N then option_map (String (ascii_of_N b)) (utf8_decode r)
    else match r with
         | b' :: r' =>
             if ((194 <=? b) && (b <=? 195) && (128 <=? b') && (b' <? 192))%N
             then option_map
                    (String (ascii_of_N ((b - 192) * 64 + (b' - 128))))
                    (utf8_decode r')
             else None
         | [] => None
         end.
Proof. reflexivity. Qed.

Lemma utf8_decode_encode s : utf8_decode (utf8 s) = Some s.
Proof.
  induction s as [|c s IH]; [reflexivity|].
  cbn [utf8]. unfold utf8_char. pose proof (N_of_ascii_bound c) as Hc.
  destruct (N.ltb_spec (N_of_ascii c) 128) as [Hlt|Hge].
  - change ([N_of_ascii c] ++ utf8 s)%list with (N_of_ascii c :: utf8 s).
    rewrite utf8_decode_cons.
    destruct (N.ltb_spec (N_of_ascii c) 128); [|lia].
    rewrite IH. cbn [option_map]. now rewrite ascii_N_embedding.
  - change ([192 + N_of_ascii c / 64; 128 + N_of_ascii c mod 64]%N
            ++ utf8 s)%list
      with ((192 + N_of_ascii c / 64)%N
            :: (128 + N_of_ascii c mod 64)%N :: utf8 s).
    rewrite utf8_decode_cons.
    destruct (N.ltb_spec (192 + N_of_ascii c / 64) 128); [lia|].
    replace ((194 <=? 192 + N_of_ascii c / 64)
             && (192 + N_of_ascii c / 64 <=? 195)
             && (128 <=? 128 + N_of_ascii c mod 64)
             && (128 + N_of_ascii c mod 64 <? 192))%N with true.
    + rewrite IH. cbn [option_map].
      replace ((192 + N_of_ascii c / 64 - 192) * 64
               + (128 + N_of_ascii c mod 64 - 128))%N
        with (N_of_ascii c) by lia.
      now rewrite ascii_N_embedding.
    + symmetry. rewrite !andb_true_iff.
      rewrite !N.leb_le, N.ltb_lt. lia.
Qed.

(** *** Texts *)

Lemma append_assoc (a b c : string) : (a ++ b) ++ c = a ++ (b ++ c).
Proof. induction a as [|x a IH]; simpl; congruence. Qed.

Lemma append_nil_r (a : string) : a ++ "" = a.
Proof. induction a as [|x a IH]; simpl; congruence. Qed.

Lemma length_append (a b : string) :
  String.length (a ++ b) = (String.length a + String.length b)%nat.
Proof. induction a as [|x a IH]; simpl; congruence. Qed.

(** *** String literals *)

Lemma parse_escape_char c tail :
  parse_string (escape_char c ++ tail)
  = match parse_string tail with
    | Some (t, rest) => Some (String c t, rest)
    | None => None
    end.
Proof.
  destruct c as [b0 b1 b2 b3 b4 b5 b6 b7].
  destruct b0, b1, b2, b3, b4, b5, b6, b7; reflexivity.
Qed.

Lemma parse_string_escape s rest :
  parse_string (escape s ++ String dquote rest) = Some (s, rest).
Proof.
  induction s as [|c s IH].
  - reflexivity.
  - cbn [escape]. rewrite append_assoc, parse_escape_char, IH. reflexivity.
Qed.

Lemma parse_string_quote s rest :
  exists body,
    quote s ++ rest = String dquote body
    /\ parse_string body = Some (s, rest).
Proof.
  unfold quote. exists (escape s ++ String dquote rest). split.
  - cbn [append]. now rewrite append_assoc.
  - apply parse_string_escape.
Qed.

(** *** Numbers *)

Lemma span_digits_uint d rest :
  no_digit_head rest ->
  span_digits (NilEmpty.string_of_uint d ++ rest)
  = (NilEmpty.string_of_uint d, rest).
Proof.
  intros Hrest. induction d; cbn [NilEmpty.string_of_uint append];
    try (cbn [span_digits];
         match goal with
         | |- context [is_digit ?c] =>
             replace (is_digit c) with true by reflexivity
         end;
         rewrite IHd; reflexivity).
  destruct rest as [|c r]; [reflexivity|].
  simpl in Hrest. cbn [span_digits]. now rewrite Hrest.
Qed.

Lemma uint_head d :
  d <> Nil ->
  exists c r, NilEmpty.string_of_uint d = String c r /\ is_digit c = true.
Proof.
  destruct d; [congruence|..]; intros _; simpl; eauto.
Qed.

Lemma parse_number_digit c r :
  is_digit c = true ->
  parse_number (String c r)
  = let (d, rest) := span_digits (String c r) in
    match NilZero.uint_of_string d with
    | Some u => Some (Z.of_int (Pos u), rest)
    | None => None
    end.
Proof.
  destruct c as [b0 b1 b2 b3 b4 b5 b6 b7].
  destruct b0, b1, b2, b3, b4, b5, b6, b7;
    try discriminate; reflexivity.
Qed.

Lemma parse_unsigned d rest :
  d <> Nil -> no_digit_head rest ->
  parse_number (NilEmpty.string_of_uint d ++ rest)
  = Some (Z.of_int (Pos d), rest).
Proof.
  intros Hd Hrest.
  destruct (uint_head d Hd) as (c & r & Hs & Hc).
  pose proof (span_digits_uint d rest Hrest) as Hspan.
  rewrite Hs in *. cbn [append] in *.
  rewrite parse_number_digit by assumption.
  rewrite Hspan, <- Hs.
  replace (NilZero.uint_of_string (NilEmpty.string_of_uint d))
    with (Some d); [reflexivity|].
  symmetry. rewrite <- (NilZero.usu d Hd).
  unfold NilZero.string_of_uint. now destruct d.
Qed.

Lemma string_of_Z_cases z :
  (exists d, d <> Nil /\ string_of_Z z = NilEmpty.string_of_uint d
             /\ Z.of_int (Pos d) = z)
  \/ (exists d, d <> Nil
                /\ string_of_Z z = String "-" (NilEmpty.string_of_uint d)
                /\ Z.of_int (Neg d) = z).
Proof.
  unfold string_of_Z.
  destruct z as [|p|p].
  - left. exists (D0 Nil). repeat split. discriminate.
  - left. exists (Pos.to_uint p).
    pose proof (DecimalPos.Unsigned.to_uint_nonnil p) as Hp.
    repeat split; [exact Hp | |].
    + simpl. unfold NilZero.string_of_uint. now destruct (Pos.to_uint p).
    + change (Z.of_int (Z.to_int (Z.pos p)) = Z.pos p).
      apply DecimalZ.of_to.
  - right. exists (Pos.to_uint p).
    pose proof (DecimalPos.Unsigned.to_uint_nonnil p) as Hp.
    repeat split; [exact Hp | |].
    + simpl. unfold NilZero.string_of_uint. now destruct (Pos.to_uint p).
    + change (Z.of_int (Z.to_int (Z.neg p)) = Z.neg p).
      apply DecimalZ.of_to.
Qed.

Lemma parse_number_stringify z rest :
  no_digit_head rest ->
  parse_number (string_of_Z z ++ rest) = Some (z, rest).
Proof.
  intros Hrest.
  destruct (string_of_Z_cases z) as [(d & Hd & -> & Hz)|(d & Hd & -> & Hz)].
  - rewrite parse_unsigned by assumption. now rewrite Hz.
  - cbn [append]. unfold parse_number.
    rewrite span_digits_uint by assumption.
    replace (NilZero.uint_of_string (NilEmpty.string_of_uint d))
      with (Some d); [now rewrite Hz|].
    symmetry. rewrite <- (NilZero.usu d Hd).
    unfold NilZero.string_of_uint. now destruct d.
Qed.

Lemma string_of_Z_head z :
  exists c r, string_of_Z z = String c r
              /\ (is_digit c = true \/ c = "-"%char).
Proof.
  destruct (string_of_Z_cases z) as [(d & Hd & -> & _)|(d & Hd & -> & _)].
  - destruct (uint_head d Hd) as (c & r & -> & Hc). eauto.
  - eauto.
Qed.

(** *** Values *)

Lemma parse_value_number fuel c r :
  is_digit c = true \/ c = "-"%char ->
  parse_value (S fuel) (String c r)
  = match parse_number (String c r) with
    | Some (n, rest) => Some (JNum n, rest)
    | None => None
    end.
Proof.
  intros [H| ->]; [|reflexivity].
  destruct c as [b0 b1 b2 b3 b4 b5 b6 b7].
  destruct b0, b1, b2, b3, b4, b5, b6, b7;
    try discriminate; reflexivity.
Qed.

Lemma parse_value_string fuel body :
  parse_value (S fuel) (String dquote body)
  = match parse_string body with
    | Some (t, rest) => Some (JStr t, rest)
    | None => None
    end.
Proof. reflexivity. Qed.

Lemma parse_value_array fuel c r :
  c <> "]"%char ->
  parse_value (S fuel) (String "[" (String c r))
  = match parse_elements fuel (String c r) with
    | Some (l, rest) => Some (JArr l, rest)
    | None => None
    end.
Proof.
  intros Hc.
  destruct c as [b0 b1 b2 b3 b4 b5 b6 b7].
  destruct b0, b1, b2, b3, b4, b5, b6, b7;
    try reflexivity; now contradiction Hc.
Qed.

Lemma parse_value_object fuel r :
  parse_value (S fuel) (String "{" (String dquote r))
  = match parse_members fuel (String dquote r) with
    | Some (m, rest) => Some (JObj m, rest)
    | None => None
    end.
Proof. reflexivity. Qed.

Lemma parse_elements_S fuel s :
  parse_elements (S fuel) s
  = match parse_value fuel s with
    | Some (v, String "," r) =>
        match parse_elements fuel r with
        | Some (l, rest) => Some (v :: l, rest)
        | None => None
        end
    | Some (v, String "]" r) => Some ([v], r)
    | _ => None
    end.
Proof. reflexivity. Qed.

Lemma parse_members_S fuel body :
  parse_members (S fuel) (String dquote body)
  = match parse_string body with
    | Some (k, String ":" r1) =>
        match parse_value fuel r1 with
        | Some (v, String "," r2) =>
            match parse_members fuel r2 with
            | Some (m, rest) => Some ((k, v) :: m, rest)
            | None => None
            end
        | Some (v, String "}" r2) => Some ([(k, v)], r2)
        | _ => None
        end
    | _ => None
    end.
Proof. reflexivity. Qed.

(** The first character of a value is not a closing bracket. *)
Lemma JSON_stringify_head v :
  exists c r, JSON_stringify v = String c r /\ c <> "]"%char.
Proof.
  destruct v as [|[|]|n|s|l|m]; simpl; try (do 2 eexists; split;
                                            [reflexivity | discriminate]).
  destruct (string_of_Z_head n) as (c & r & -> & [Hc| ->]).
  - exists c, r. split; [reflexivity|]. intros ->. discriminate.
  - do 2 eexists. split; [reflexivity | discriminate].
Qed.

Lemma concat_cons2 sep (a b : string) l :
  String.concat sep (a :: b :: l) = a ++ sep ++ String.concat sep (b :: l).
Proof. reflexivity. Qed.

Lemma parse_elements_stringify l :
  Forall reads_back l -> l <> [] ->
  forall fuel rest,
    (fold_right (fun x a => S (weight x) + a) 0 l <= fuel)%nat ->
    parse_elements fuel
      (String.concat "," (map JSON_stringify l) ++ String "]" rest)
    = Some (l, rest).
Proof.
  induction 1 as [|x l Hx Hl IH]; intros Hne fuel rest Hfuel;
    [congruence|].
  cbn [fold_right] in Hfuel.
  destruct fuel as [|fuel]; [lia|]. rewrite parse_elements_S.
  destruct l as [|y l].
  - cbn [map String.concat]. rewrite Hx; [reflexivity | lia | reflexivity].
  - cbn [map]. rewrite concat_cons2, !append_assoc. cbn [append].
    rewrite Hx; [| lia | reflexivity].
    change (JSON_stringify y :: map JSON_stringify l)
      with (map JSON_stringify (y :: l)).
    rewrite IH; [reflexivity | discriminate | lia].
Qed.

Lemma parse_members_stringify m :
  Forall (fun kv => reads_back (snd kv)) m -> m <> [] ->
  forall fuel rest,
    (fold_right (fun kv a => S (weight (snd kv)) + a) 0 m <= fuel)%nat ->
    exists body,
      String.concat ","
        (map (fun kv => quote (fst kv) ++ ":" ++ JSON_stringify (snd kv)) m)
      ++ String "}" rest = String dquote body
      /\ parse_members fuel (String dquote body) = Some (m, rest).
Proof.
  induction 1 as [|[k v] m Hv Hm IH]; intros Hne fuel rest Hfuel;
    [congruence|].
  cbn [fold_right snd] in Hfuel. cbn [snd] in Hv.
  destruct fuel as [|fuel]; [lia|].
  destruct m as [|kv' m].
  - cbn [map String.concat fst snd].
    destruct (parse_string_quote k
                (String ":" (JSON_stringify v ++ String "}" rest)))
      as (body & Hbody & Hparse).
    exists body. split.
    + rewrite <- Hbody. now rewrite !append_assoc.
    + rewrite parse_members_S, Hparse. cbv beta iota.
      rewrite Hv; [reflexivity | lia | reflexivity].
  - destruct (IH ltac:(discriminate) fuel rest ltac:(lia))
      as (body' & Hbody' & Hparse').
    destruct (parse_string_quote k
                (String ":"
                   (JSON_stringify v
                    ++ String ","
                         (String.concat ","
                            (map (fun kv => quote (fst kv) ++ ":"
                                            ++ JSON_stringify (snd kv))
                               (kv' :: m))
                          ++ String "}" rest))))
      as (body & Hbody & Hparse).
    exists body. split.
    + rewrite <- Hbody. cbn [map]. rewrite concat_cons2. cbn [fst snd].
      rewrite !append_assoc. reflexivity.
    + rewrite parse_members_S, Hparse. cbv beta iota.
      rewrite Hv; [| lia | reflexivity]. cbv beta iota.
      rewrite Hbody', Hparse'. reflexivity.
Qed.

Lemma bracket_assoc (a b : ascii) (s rest : string) :
  (String a "" ++ s ++ String b "") ++ rest = String a (s ++ String b rest).
Proof. cbn [append]. now rewrite append_assoc. Qed.

(** Reading back the text of a value gives the value. *)
Lemma parse_value_stringify v : reads_back v.
Proof.
  induction v as [| b | n | s | l IH | m IH] using JSON_ind;
    intros fuel rest Hfuel Hrest; cbn [weight] in Hfuel;
    (destruct fuel as [|fuel]; [lia|]).
  - reflexivity.
  - destruct b; reflexivity.
  - cbn [JSON_stringify].
    destruct (string_of_Z_head n) as (c & r & Hs & Hc).
    pose proof (parse_number_stringify n rest Hrest) as Hnum.
    rewrite Hs in *. cbn [append] in *.
    now rewrite parse_value_number, Hnum.
  - cbn [JSON_stringify].
    destruct (parse_string_quote s rest) as (body & -> & Hparse).
    now rewrite parse_value_string, Hparse.
  - destruct l as [|x l]; [reflexivity|].
    cbn [JSON_stringify]. rewrite bracket_assoc.
    pose proof (parse_elements_stringify (x :: l) IH ltac:(discriminate)
                  fuel rest ltac:(lia)) as Hel.
    assert (Hhead : exists c r,
               String.concat "," (map JSON_stringify (x :: l))
               ++ String "]" rest = String c r /\ c <> "]"%char).
    { destruct (JSON_stringify_head x) as (c & r & Hx & Hc).
      destruct l as [|y l].
      + cbn [map String.concat]. rewrite Hx. cbn [append]. eauto.
      + cbn [map]. rewrite concat_cons2, Hx. cbn [append]. eauto. }
    destruct Hhead as (c & r & Hs & Hc).
    rewrite Hs in *. now rewrite parse_value_array, Hel.
  - destruct m as [|kv m]; [reflexivity|].
    cbn [JSON_stringify]. rewrite bracket_assoc.
    destruct (parse_members_stringify (kv :: m) IH ltac:(discriminate)
                fuel rest ltac:(lia)) as (body & Hbody & Hparse).
    rewrite Hbody. now rewrite parse_value_object, Hparse.
Qed.

(** *** Fuel *)

Lemma concat_weight {A} (f : A -> string) (w : A -> nat) (l : list A) :
  Forall (fun x => (w x <= String.length (f x))%nat) l ->
  (fold_right (fun x a => S (w x) + a) 0 l
   <= String.length (String.concat "," (map f l)) + 1)%nat.
Proof.
  induction 1 as [|x l Hx Hl IH]; [simpl; lia|].
  cbn [fold_right]. destruct l as [|y l].
  - cbn [map String.concat fold_right]. lia.
  - cbn [map]. rewrite concat_cons2, !length_append.
    cbn [map] in IH. cbn [String.length]. lia.
Qed.

Lemma weight_le_length v : (weight v <= String.length (JSON_stringify v))%nat.
Proof.
  induction v as [| b | n | s | l IH | m IH] using JSON_ind;
    cbn [weight JSON_stringify].
  - simpl. lia.
  - destruct b; simpl; lia.
  - destruct (string_of_Z_head n) as (c & r & -> & _). simpl. lia.
  - unfold quote. simpl. lia.
  - rewrite !length_append. cbn [String.length].
    pose proof (concat_weight JSON_stringify weight l IH). lia.
  - rewrite !length_append. cbn [String.length].
    pose proof (concat_weight
                  (fun kv => quote (fst kv) ++ ":" ++ JSON_stringify (snd kv))
                  (fun kv => weight (snd kv)) m) as H.
    assert (Hm : Forall
                   (fun kv : string * JSON =>
                      (weight (snd kv)
                       <= String.length
                            (quote (fst kv) ++ ":" ++ JSON_stringify (snd kv)))%nat)
                   m).
    { eapply Forall_impl; [|exact IH]. intros kv Hkv. cbv beta in Hkv.
      rewrite !length_append. lia. }
    specialize (H Hm). lia.
Qed.

(** [JSON.parse(JSON.stringify(v))] gives [v] back. *)
Lemma JSON_parse_stringify v : JSON_parse (JSON_stringify v) = Some v.
Proof.
  unfold JSON_parse.
  pose proof (parse_value_stringify v
                (S (String.length (JSON_stringify v))) "") as H.
  rewrite append_nil_r in H. rewrite H; [reflexivity | | exact I].
  pose proof (weight_le_length v). lia.
Qed.

(** The reference decoder reads back what the encoder wrote. *)
Lemma decodeKey_stringify v :
  Reference.decodeKey (Buffer_base64 (JSON_stringify v)) = Some v.
Proof.
  unfold Reference.decodeKey, Buffer_base64.
  rewrite base64_decode_encode by apply utf8_octets.
  rewrite utf8_decode_encode. apply JSON_parse_stringify.
Qed.

(** The encoding of a fingerprint loses nothing. *)
Lemma Buffer_base64_stringify_inj v v' :
  Buffer_base64 (JSON_stringify v) = Buffer_base64 (JSON_stringify v') ->
  v = v'.
Proof.
  intros H. apply (f_equal Reference.decodeKey) in H.
  rewrite !decodeKey_stringify in H. congruence.
Qed.

(** A key computed for an eligible operation decodes to the operation
    and the normalized body. *)
Lemma decodeKey_generateCacheKey operation body :
  eligible operation ->
  Reference.decodeKey (generateCacheKey operation body)
  = Some (JObj [("operation", JStr operation);
                ("body", normalizeBody body)]).
Proof.
  unfold eligible, generateCacheKey. intros ->. apply decodeKey_stringify.
Qed.

(** ** Fingerprints *)









(** ** Stored reads and invalidation *)

Lemma normalizeField_string v s : normalizeField v = JStr s <-> v = JStr s.
Proof.
  unfold normalizeField. destruct v; try tauto.
  rewrite normalizeBody_obj. split; discriminate.
Qed.

Lemma normalizeField_truthy v : truthy (Some (normalizeField v)) = truthy (Some v).
Proof. destruct v; reflexivity. Qed.

Lemma prop_normalizeBody m k :
  prop (normalizeBody (JObj m)) k = option_map normalizeField (obj_get k m).
Proof.
  rewrite normalizeBody_obj. cbn [prop].
  now rewrite assemble_get, obj_get_map_values.
Qed.

(** The entry [executeQuery] stores for a read is one [invalidateTableCache]
    removes exactly when the body of the read has the table in its [table]
    field and the schema in scope, or none, in its [schema] field. *)
Lemma targets_generateCacheKey operation m table schemaName :
  eligible operation ->
  (targets Reference.decodeKey table schemaName
     (generateCacheKey operation (JObj m))
   <-> obj_get "table" m = Some (JStr table)
       /\ (obj_get "schema" m = Some (JStr schemaName)
           \/ truthy (obj_get "schema" m) = false)).
Proof.
  intros Hel. unfold targets.
  rewrite decodeKey_generateCacheKey by assumption.
  assert (Htable : prop (normalizeBody (JObj m)) "table" = Some (JStr table)
                   <-> obj_get "table" m = Some (JStr table)).
  { rewrite prop_normalizeBody. destruct (obj_get "table" m) as [v|]; simpl.
    - split; intros [= H]; f_equal.
      + now apply normalizeField_string.
      + now apply normalizeField_string.
    - split; discriminate. }
  assert (Hschema : prop (normalizeBody (JObj m)) "schema"
                    = Some (JStr schemaName)
                    <-> obj_get "schema" m = Some (JStr schemaName)).
  { rewrite prop_normalizeBody. destruct (obj_get "schema" m) as [v|]; simpl.
    - split; intros [= H]; f_equal.
      + now apply normalizeField_string.
      + now apply normalizeField_string.
    - split; discriminate. }
  assert (Hfalsy : truthy (prop (normalizeBody (JObj m)) "schema")
                   = truthy (obj_get "schema" m)).
  { rewrite prop_normalizeBody. destruct (obj_get "schema" m) as [v|]; simpl.
    - apply normalizeField_truthy.
    - reflexivity. }
  split.
  - intros (decoded & body & [= <-] & Hbody & Ht & Hs).
    change (Some (normalizeBody (JObj m)) = Some body) in Hbody.
    remember (normalizeBody (JObj m)) as normal eqn:Hnormal.
    injection Hbody as <-. subst normal.
    rewrite Htable in Ht. rewrite Hschema, Hfalsy in Hs. auto.
  - intros [Ht Hs]. do 2 eexists. split; [reflexivity|].
    split; [reflexivity|].
    rewrite Htable, Hschema, Hfalsy. auto.
Qed.

Import Terms.

(* ================================================================== *)
(** * Part VIII. Further properties of the cache and the executor     *)
(* ================================================================== *)

(** ** Puts and lookups *)

Lemma map_get_filter {V} (keep : string * V -> bool) k (m : list (string * V)) :
  NoDup (map_keys m) ->
  map_get k (filter keep m)
  = match map_get k m with
    | Some v => if keep (k, v) then Some v else None
    | None => None
    end.
Proof.
  induction m as [|[k' v] m IH]; intros Hnd; [reflexivity|].
  inversion Hnd as [|? ? Hnotin Hnd']; subst.
  cbn [filter map_get]. destruct (String.eqb_spec k k') as [->|Hne].
  - destruct (keep (k', v)) eqn:Hk.
    + cbn [map_get]. now rewrite String.eqb_refl.
    + rewrite IH by assumption.
      destruct (map_get k' m) as [v'|] eqn:Hget; [|reflexivity].
      exfalso. apply Hnotin. apply map_get_In in Hget.
      change k' with (fst (k', v')). now apply in_map.
  - destruct (keep (k', v)).
    + cbn [map_get]. destruct (String.eqb_spec k k'); [contradiction|].
      now apply IH.
    + now apply IH.
Qed.

Lemma make_room_get cfg cache k :
  NoDup (map_keys cache) ->
  map_get k (make_room cfg cache)
  = if (map_size cache >=? num_or (maxCacheSize cfg) 0)
       && match map_first_key cache with
          | Some oldest => truthy_string oldest && (k =? oldest)%string
          | None => false
          end
    then None else map_get k cache.
Proof.
  intros Hnd. unfold make_room.
  destruct (map_size cache >=? num_or (maxCacheSize cfg) 0); [|reflexivity].
  destruct (map_first_key cache) as [oldest|]; [|reflexivity].
  cbn [andb]. destruct (truthy_string oldest); [|reflexivity].
  cbn [andb]. now apply map_get_delete.
Qed.

(** X1. What [setCache] stores is what [getCached] gives back: after a
    put that takes effect (non-empty key, caching enabled) a lookup of
    the key returns the data put, and leaves the store alone, at every
    time up to the time of the put plus the TTL in force, which is the
    TTL given, else the configured one, else 0; any later lookup answers
    absent. *)
Theorem setCache_getCached (cfg : HarperDBConfig) (cache : Cache)
    (now later : Z) (key : string) (data : HarperDBResponse)
    (ttl : option Z) :
  key <> "" -> flag (enableCache cfg) = true ->
  let kept := setCache cfg cache now key data ttl in
  let lifetime := num_or ttl (num_or (cacheTTL cfg) 0) in
  (later <= now + lifetime ->
   getCached cfg kept later key = (Some data, kept))
  /\ (now + lifetime < later ->
      getCached cfg kept later key = (None, map_delete key kept)).
Proof.
  intros Hkey Hon kept lifetime.
  assert (Hget : map_get key kept
                 = Some {| entry_data := data; timestamp := now;
                           Client.ttl := lifetime |}).
  { subst kept. rewrite setCache_unfold by assumption.
    now rewrite map_get_set, String.eqb_refl. }
  split; intros H.
  - now rewrite (getCached_fresh _ _ _ _ _ Hkey Hon Hget).
  - now rewrite (getCached_stale _ _ _ _ _ Hkey Hon Hget).
Qed.

Lemma setCache_getCached_witness :
  getCached sample_config
    (setCache sample_config [] 100 "k" (sample_response 1) (Some 0))
    5100 "k"
  = (Some (sample_response 1),
     setCache sample_config [] 100 "k" (sample_response 1) (Some 0)).
Proof.
  assert (Hk : "k" <> "") by discriminate.
  destruct (setCache_getCached sample_config [] 100 5100 "k"
              (sample_response 1) (Some 0) Hk eq_refl) as [H _].
  apply H. vm_compute. discriminate.
Defined.

(** X2. A put touches no other key than its own and the one it evicts:
    below capacity every other key reads as before; at capacity the
    first key of the store is gone (unless it is the key put) and every
    other key reads as before. *)
Theorem setCache_frame (cfg : HarperDBConfig) (cache : Cache) (now : Z)
    (key other : string) (data : HarperDBResponse) (ttl : option Z) :
  cache_wf cache -> key <> "" -> flag (enableCache cfg) = true ->
  other <> key ->
  let kept := setCache cfg cache now key data ttl in
  (map_size cache < num_or (maxCacheSize cfg) 0 ->
   map_get other kept = map_get other cache)
  /\ (num_or (maxCacheSize cfg) 0 <= map_size cache ->
      (map_first_key cache = Some other -> map_get other kept = None)
      /\ (map_first_key cache <> Some other ->
          map_get other kept = map_get other cache)).
Proof.
  intros [Hnd Hne] Hkey Hon Hother kept.
  assert (Hkept : map_get other kept = map_get other (make_room cfg cache)).
  { subst kept. rewrite setCache_unfold by assumption.
    rewrite map_get_set. now destruct (String.eqb_spec other key). }
  rewrite Hkept, make_room_get by assumption.
  split.
  - intros Hlt. destruct (Z.geb_spec (map_size cache)
                            (num_or (maxCacheSize cfg) 0)); [lia|].
    reflexivity.
  - intros Hge. destruct (Z.geb_spec (map_size cache)
                            (num_or (maxCacheSize cfg) 0)); [|lia].
    cbn [andb]. split.
    + intros Hfirst. rewrite Hfirst, String.eqb_refl, andb_true_r.
      assert (Hin : In other (map_keys cache)).
      { destruct cache as [|[k v] r]; [discriminate|].
        injection Hfirst as ->. now left. }
      rewrite Forall_forall in Hne. apply Hne in Hin.
      apply truthy_string_nonempty in Hin. now rewrite Hin.
    + intros Hfirst. destruct (map_first_key cache) as [oldest|];
        [|reflexivity].
      destruct (String.eqb_spec other oldest) as [->|_];
        [congruence|]. now rewrite andb_false_r.
Qed.

Lemma setCache_frame_witness :
  let cache := [("a", sample_entry 1 0 5000); ("b", sample_entry 2 0 5000)] in
  map_get "a" (setCache sample_config cache 10 "c" (sample_response 3) None)
  = None
  /\ map_get "b" (setCache sample_config cache 10 "c" (sample_response 3) None)
     = map_get "b" cache.
Proof.
  intros cache.
  assert (Hwf : cache_wf cache).
  { split; [repeat constructor; simpl; intuition discriminate|].
    repeat constructor; discriminate. }
  assert (Hc : "c" <> "") by discriminate.
  split.
  - destruct (setCache_frame sample_config cache 10 "c" "a"
                (sample_response 3) None Hwf Hc eq_refl) as [_ H];
      [discriminate|].
    apply H; [vm_compute; discriminate | reflexivity].
  - destruct (setCache_frame sample_config cache 10 "c" "b"
                (sample_response 3) None Hwf Hc eq_refl) as [_ H];
      [discriminate|].
    apply H; [vm_compute; discriminate | discriminate].
Defined.

(** ** The background sweep *)

(** X3. One run of the sweep started by [startCacheCleanup] removes the
    expired entries and only those; and it is invisible to lookups: at
    the time of the sweep and at any later time, [getCached] answers the
    same with the swept store as with the store left unswept. *)
Theorem cacheCleanup_sweep (cache : Cache) (now : Z) :
  (forall key entry,
     In (key, entry) (cacheCleanup cache now)
     <-> In (key, entry) cache /\ fresh now entry)
  /\ forall cfg later key,
       NoDup (map_keys cache) -> now <= later ->
       fst (getCached cfg (cacheCleanup cache now) later key)
       = fst (getCached cfg cache later key).
Proof.
  split.
  - intros key entry. unfold cacheCleanup. rewrite filter_In.
    cbn [snd]. rewrite negb_true_iff, not_expired_iff. reflexivity.
  - intros cfg later key Hnd Hle. unfold getCached, cacheCleanup.
    destruct (negb (truthy_string key) || negb (flag (enableCache cfg)));
      [reflexivity|].
    rewrite map_get_filter by assumption.
    destruct (map_get key cache) as [entry|]; [|reflexivity].
    cbn [snd]. destruct (expired now entry) eqn:Hnow; cbn [negb].
    + apply expired_iff in Hnow.
      assert (Hlater : expired later entry = true)
        by (apply expired_iff; lia).
      now rewrite Hlater.
    + now destruct (expired later entry).
Qed.

Lemma cacheCleanup_sweep_witness :
  let cache := [("a", sample_entry 1 0 50); ("b", sample_entry 2 0 5000)] in
  fst (getCached sample_config (cacheCleanup cache 100) 200 "a")
  = fst (getCached sample_config cache 200 "a").
Proof.
  intros cache.
  destruct (cacheCleanup_sweep cache 100) as [_ H].
  apply H; [|lia].
  repeat constructor; simpl; intuition discriminate.
Defined.

(** ** The executor and the store *)

Lemma executeQuery_cases cfg cache call operation body options :
  let uc := match useCache options with
            | Some b => b
            | None => flag (enableCache cfg)
            end in
  let key := if uc then generateCacheKey operation body else "" in
  let req := outbound cfg operation body options in
  executeQuery cfg cache call operation body options
  = match (if truthy_string key then getCached cfg cache (started call) key
           else (None, cache)) with
    | (Some cached, c) =>
        {| outcome := Ok (from_cache cached); cache_after := c;
           sent := None; returned_at := started call |}
    | (None, c) =>
        {| outcome := from_network call (send call req);
           cache_after :=
             match send call req with
             | Fulfilled r =>
                 if truthy_string key && uc
                 then setCache cfg c (finished call) key
                        (envelope r (finished call - started call))
                        (opt_num_or (opt_cacheTTL options) (cacheTTL cfg))
                 else c
             | Rejected _ => c
             end;
           sent := Some req; returned_at := finished call |}
    end.
Proof.
  intros uc key req. unfold executeQuery, executeQuery_begin.
  fold uc. fold key. fold req.
  destruct (if truthy_string key then getCached cfg cache (started call) key
            else (None, cache)) as [[cached|] c]; [reflexivity|].
  unfold executeQuery_settle, from_network.
  destruct (send call req); reflexivity.
Qed.

Lemma getCached_store cfg cache now key :
  snd (getCached cfg cache now key) = cache
  \/ snd (getCached cfg cache now key) = map_delete key cache.
Proof.
  unfold getCached.
  destruct (negb (truthy_string key) || negb (flag (enableCache cfg)));
    [now left|].
  destruct (map_get key cache) as [entry|]; [|now left].
  destruct (expired now entry); [now right | now left].
Qed.

(** The store after a call: the store before, less perhaps the stale
    entry of the key, plus perhaps the response put under the key. *)
Lemma executeQuery_store cfg cache call operation body options :
  let x := executeQuery cfg cache call operation body options in
  let key := generateCacheKey operation body in
  exists c,
    (c = cache \/ c = map_delete key cache)
    /\ (cache_after x = c
        \/ exists response,
             send call (outbound cfg operation body options)
             = Fulfilled response
             /\ key <> "" /\ caching cfg options
             /\ outcome x
                = Ok (envelope response (finished call - started call))
             /\ cache_after x
                = setCache cfg c (finished call) key
                    (envelope response (finished call - started call))
                    (opt_num_or (opt_cacheTTL options) (cacheTTL cfg))).
Proof.
  intros x key. subst x. rewrite executeQuery_cases.
  set (uc := match useCache options with
             | Some b => b
             | None => flag (enableCache cfg)
             end).
  destruct uc eqn:Huc.
  2:{ exists cache. split; [now left|]. cbn [truthy_string].
      left. now destruct (send call _). }
  fold key. destruct (truthy_string key) eqn:Hkey.
  2:{ exists cache. split; [now left|]. left. now destruct (send call _). }
  exists (snd (getCached cfg cache (started call) key)).
  split; [apply getCached_store|].
  destruct (getCached cfg cache (started call) key) as [[cached|] c] eqn:Hg;
    cbn [snd cache_after outcome]; [now left|].
  destruct (send call _) as [r|e] eqn:Hsend; [|now left].
  cbn [andb].
  destruct (flag (enableCache cfg)) eqn:Hon.
  - right. exists r. split; [reflexivity|].
    split; [now apply truthy_string_nonempty|].
    split; [|split; reflexivity]. split; [assumption|].
    intros Hoff. subst uc. rewrite Hoff in Huc. discriminate.
  - left. apply setCache_noop. now right.
Qed.

(** X4. The executor keeps the store well formed and within capacity:
    for a configured capacity of at least 1, whatever calls are made one
    after the other from an empty store, reads or writes, succeeding or
    failing, the store never holds two entries under one key, never an
    entry under the empty key, and never more entries than
    [maxCacheSize]. *)
Theorem session_capacity (cfg : HarperDBConfig) (capacity : Z)
    (l : list Query) :
  num_or (maxCacheSize cfg) 0 = capacity -> 1 <= capacity ->
  cache_wf (session cfg [] l) /\ map_size (session cfg [] l) <= capacity.
Proof.
  intros Hcap Hpos. unfold session.
  assert (Hgen : forall cache,
            cache_wf cache /\ map_size cache <= capacity ->
            cache_wf (fold_left (fun c q => cache_after (run_query cfg c q))
                        l cache)
            /\ map_size (fold_left
                           (fun c q => cache_after (run_query cfg c q))
                           l cache) <= capacity).
  { induction l as [|q l IH]; intros cache Hc; [exact Hc|].
    cbn [fold_left]. apply IH. destruct Hc as [Hwf Hsize].
    unfold run_query.
    destruct (executeQuery_store cfg cache (query_call q)
                (query_operation q) (query_body q) (query_options q))
      as (c & Hc & Hafter).
    assert (Hc' : cache_wf c /\ map_size c <= capacity).
    { destruct Hc as [->| ->]; [now split|].
      split; [now apply cache_wf_delete|].
      unfold map_size in *. rewrite map_delete_length.
      destruct (map_has _ cache); lia. }
    destruct Hafter as [->|(r & _ & _ & _ & _ & ->)]; [exact Hc'|].
    split; [now apply setCache_wf|].
    now apply (setCache_size cfg c capacity). }
  apply Hgen. split; [apply cache_wf_nil | unfold map_size; simpl; lia].
Qed.

Lemma session_capacity_witness :
  map_size
    (session sample_config []
       [sample_query 1 0; sample_query 2 100; sample_query 3 200;
        sample_query 1 300]) <= 2.
Proof.
  apply (session_capacity sample_config 2); [reflexivity | lia].
Defined.

(** X5. The only entry a call can add to the store is the response of a
    successful, cache-eligible request made with caching in force, under
    the fingerprint of the request. A failed request, a write, or a call
    made with caching off adds nothing: every key present after the call
    was present before it. *)
Theorem executeQuery_adds_only_reads (cfg : HarperDBConfig) (cache : Cache)
    (call : Call) (operation : string) (body : JSON)
    (options : QueryOptions) (k : string) :
  NoDup (map_keys cache) ->
  let x := executeQuery cfg cache call operation body options in
  map_get k (cache_after x) <> None ->
  map_get k cache <> None
  \/ (k = generateCacheKey operation body
      /\ eligible operation /\ caching cfg options
      /\ exists response,
           send call (outbound cfg operation body options)
           = Fulfilled response
           /\ outcome x
              = Ok (envelope response (finished call - started call))).
Proof.
  intros Hnd x Hk.
  destruct (executeQuery_store cfg cache call operation body options)
    as (c & Hc & Hafter). fold x in Hafter.
  assert (Hsub : map_get k c <> None -> map_get k cache <> None).
  { destruct Hc as [->| ->]; [auto|].
    rewrite map_get_delete by assumption.
    now destruct (k =? generateCacheKey operation body)%string. }
  destruct Hafter as [Heq|(r & Hsend & Hkey & Hcaching & Hout & Heq)].
  - left. apply Hsub. now rewrite <- Heq.
  - rewrite Heq, setCache_unfold, map_get_set in Hk
      by (assumption || apply Hcaching).
    destruct (String.eqb_spec k (generateCacheKey operation body))
      as [->|Hne].
    + right. split; [reflexivity|]. split.
      * destruct (includes cacheableOperations (toLowerCase operation))
          eqn:Hel; [exact Hel|].
        exfalso. apply Hkey. apply generateCacheKey_not_eligible.
        unfold eligible. now rewrite Hel.
      * split; [assumption|]. exists r. now split.
    + left. apply Hsub. rewrite make_room_get in Hk.
      * destruct (_ && _); [congruence | assumption].
      * destruct Hc as [->| ->]; [assumption | now apply map_delete_NoDup].
Qed.

Lemma executeQuery_adds_only_reads_witness :
  let call := sample_call 0 50 (Fulfilled (http_ok (JArr [JNum 1]))) in
  let k := generateCacheKey "sql" select_one in
  map_get k (@nil (string * CacheEntry)) <> None
  \/ (k = generateCacheKey "sql" select_one
      /\ eligible "sql" /\ caching sample_config no_options
      /\ exists response,
           send call (outbound sample_config "sql" select_one no_options)
           = Fulfilled response
           /\ outcome (executeQuery sample_config [] call "sql" select_one
                         no_options)
              = Ok (envelope response (finished call - started call))).
Proof.
  intros call k.
  apply (executeQuery_adds_only_reads sample_config [] call "sql" select_one
           no_options k); [constructor | vm_compute; discriminate].
Defined.

Lemma executeQuery_wf cfg cache call operation body options :
  cache_wf cache ->
  cache_wf (cache_after (executeQuery cfg cache call operation body options)).
Proof.
  intros Hwf.
  destruct (executeQuery_store cfg cache call operation body options)
    as (c & Hc & Hafter).
  assert (Hc' : cache_wf c).
  { destruct Hc as [->| ->]; [assumption | now apply cache_wf_delete]. }
  destruct Hafter as [->|(r & _ & _ & _ & _ & ->)]; [exact Hc'|].
  now apply setCache_wf.
Qed.

Lemma caching_in_force cfg options :
  caching cfg options ->
  useCache options = Some true
  \/ (useCache options = None /\ flag (enableCache cfg) = true).
Proof.
  intros [Hon Huse]. destruct (useCache options) as [[|]|];
    [now left | congruence | now right].
Qed.

(** X6. A read repeated within the lifetime of its entry is answered
    from the store. When a cache-eligible request is sent with caching in
    force and succeeds, the same request made again no later than the
    time the response arrived plus the TTL in force is not sent: it
    returns the data and message of the first response, flagged
    [cached], and leaves the store as it is. Made after that time, it is
    sent again. *)
Theorem executeQuery_read_twice (cfg : HarperDBConfig) (cache : Cache)
    (first second : Call) (operation : string) (body : JSON)
    (options : QueryOptions) (response : AxiosResponse) :
  caching cfg options -> eligible operation -> cache_wf cache ->
  (forall entry,
     map_get (generateCacheKey operation body) cache = Some entry ->
     ~ fresh (started first) entry) ->
  send first (outbound cfg operation body options) = Fulfilled response ->
  let x1 := executeQuery cfg cache first operation body options in
  let x2 := executeQuery cfg (cache_after x1) second operation body options in
  let answer := envelope response (finished first - started first) in
  let lifetime := ttl (stored cfg first options response) in
  outcome x1 = Ok answer
  /\ (started second <= finished first + lifetime ->
      sent x2 = None
      /\ outcome x2 = Ok (from_cache answer)
      /\ data (from_cache answer) = data answer
      /\ cached (metadata (from_cache answer)) = true
      /\ cache_after x2 = cache_after x1)
  /\ (finished first + lifetime < started second ->
      sent x2 = Some (outbound cfg operation body options)).
Proof.
  intros Hcaching Hel Hwf Hstale Hsend x1 x2 answer lifetime.
  pose proof (caching_in_force _ _ Hcaching) as Huse.
  destruct Hcaching as [Hon _].
  assert (Hmiss : map_get (generateCacheKey operation body) cache = None
                  \/ exists entry,
                       map_get (generateCacheKey operation body) cache
                       = Some entry /\ ~ fresh (started first) entry).
  { destruct (map_get (generateCacheKey operation body) cache) as [entry|]
      eqn:Hget; [right | now left].
    exists entry. split; [reflexivity|]. now apply Hstale. }
  destruct (executeQuery_miss cfg cache first operation body options
              Huse Hon Hel (proj1 Hwf) Hmiss) as (_ & Hout & Hput).
  fold x1 in Hout, Hput. specialize (Hput response Hsend).
  assert (Hwf1 : cache_wf (cache_after x1)) by now apply executeQuery_wf.
  split; [now rewrite Hout, Hsend|]. split.
  - intros Hin.
    assert (Hfresh : fresh (started second)
                       (stored cfg first options response)).
    { unfold fresh. cbn [timestamp stored]. exact Hin. }
    subst x2.
    rewrite (executeQuery_hit cfg (cache_after x1) second operation body
               options _ Huse Hon Hel (proj1 Hwf1) Hput Hfresh).
    cbn [sent outcome cache_after stored entry_data].
    repeat split.
  - intros Hout2.
    assert (Hmiss2 :
              map_get (generateCacheKey operation body) (cache_after x1)
              = None
              \/ exists entry,
                   map_get (generateCacheKey operation body) (cache_after x1)
                   = Some entry /\ ~ fresh (started second) entry).
    { right. eexists. split; [exact Hput|].
      unfold fresh. cbn [timestamp stored]. fold lifetime. lia. }
    now destruct (executeQuery_miss cfg (cache_after x1) second operation
                    body options Huse Hon Hel (proj1 Hwf1) Hmiss2)
      as (Hs & _).
Qed.

Lemma executeQuery_read_twice_witness :
  let ok := Fulfilled (http_ok (JArr [JNum 1])) in
  let x1 :=
    executeQuery sample_config [] (sample_call 0 50 ok) "sql" select_one
      no_options in
  sent (executeQuery sample_config (cache_after x1)
          (sample_call 5050 5060 (Rejected timeout_error)) "sql" select_one
          no_options) = None.
Proof.
  intros ok x1.
  assert (Hc : caching sample_config no_options)
    by (split; [reflexivity | discriminate]).
  destruct (executeQuery_read_twice sample_config []
              (sample_call 0 50 ok)
              (sample_call 5050 5060 (Rejected timeout_error))
              "sql" select_one no_options (http_ok (JArr [JNum 1]))
              Hc eq_refl cache_wf_nil) as (_ & H & _).
  - intros entry [=].
  - reflexivity.
  - apply H. vm_compute. discriminate.
Defined.

(** ** Retries *)

Lemma post_spec cfg attempt :
  exists (k : nat) (x : Exchange),
    post cfg attempt = Some x
    /\ settled x = attempt k
    /\ delays x = map (backoff cfg) (seq 1 k)
    /\ (forall i, (i < k)%nat ->
          Z.of_nat i < num_or (maxRetries cfg) 0
          /\ exists e, attempt i = Rejected e /\ transient e = true)
    /\ match attempt k with
       | Fulfilled _ => True
       | Rejected e =>
           ~ (Z.of_nat k < num_or (maxRetries cfg) 0 /\ transient e = true)
       end.
Proof.
  destruct (dispatch_spec cfg attempt
              (Z.to_nat (num_or (maxRetries cfg) 0)) 0 0)
    as (k & x & Hx & Hs & Hd & Hbefore & Hlast); [lia | lia |].
  exists k, x. split; [exact Hx|]. split; [exact Hs|].
  split; [|split].
  - rewrite Hd. apply map_ext. intros j. unfold backoff.
    now rewrite Z.add_0_l.
  - intros i Hi. destruct (Hbefore i Hi) as [H1 H2].
    split; [lia | exact H2].
  - cbn [Nat.add] in Hlast. destruct (attempt k); [exact I|].
    intros [H1 H2]. apply Hlast. split; [lia | exact H2].
Qed.

(** X7. A request that fails transiently and then succeeds reaches the
    caller as a success: when the first [k] sends fail with a transient
    failure, [k] being at most [maxRetries], and the next send is
    answered, [axiosInstance.post] resolves with that answer, after
    sleeping [retryDelay * 1], ..., [retryDelay * k]. *)
Theorem retry_reaches_success (cfg : HarperDBConfig)
    (attempt : nat -> Settled) (k : nat) (r : AxiosResponse) :
  Z.of_nat k <= num_or (maxRetries cfg) 0 ->
  (forall i, (i < k)%nat ->
     exists e, attempt i = Rejected e /\ transient_failure e) ->
  attempt k = Fulfilled r ->
  post cfg attempt
  = Some {| settled := Fulfilled r;
            delays := map (backoff cfg) (seq 1 k) |}
  /\ axios_post cfg attempt = Fulfilled r.
Proof.
  intros Hk Hfail Hok.
  destruct (post_spec cfg attempt)
    as (k' & x & Hx & Hs & Hd & Hbefore & Hlast).
  assert (Hkk : k' = k).
  { destruct (Nat.lt_trichotomy k' k) as [Hlt|[Heq|Hgt]]; [|exact Heq|].
    - exfalso. destruct (Hfail k' Hlt) as (e & He & Ht).
      rewrite He in Hlast. apply Hlast. split; [lia|].
      now apply transient_iff.
    - exfalso. destruct (Hbefore k Hgt) as (_ & e & He & _). congruence. }
  subst k'. unfold axios_post. rewrite Hx. split; [|congruence].
  f_equal. destruct x as [s d]. cbn in Hs, Hd. subst. now rewrite Hok.
Qed.

Lemma retry_reaches_success_witness :
  post sample_config (flaky 2)
  = Some {| settled := Fulfilled (http_ok (JArr [JNum 1]));
            delays := [1000; 2000] |}.
Proof.
  destruct (retry_reaches_success sample_config (flaky 2) 2
              (http_ok (JArr [JNum 1]))) as [H _].
  - vm_compute. discriminate.
  - intros i Hi. exists timeout_error. split.
    + unfold flaky. destruct (Nat.ltb_spec i 2); [reflexivity | lia].
    + now right.
  - reflexivity.
  - exact H.
Defined.

Lemma total_delay_backoff cfg k :
  total_delay (map (backoff cfg) (seq 1 k))
  = num_or (retryDelay cfg) 0 * (Z.of_nat k * (Z.of_nat k + 1) / 2).
Proof.
  induction k as [|k IH]; [cbn; lia|].
  rewrite seq_S, map_app. unfold total_delay in *.
  rewrite fold_right_app. cbn [map fold_right].
  assert (Hshift : forall l a,
            fold_right Z.add a l = fold_right Z.add 0 l + a).
  { induction l as [|y l IHl]; intros a; cbn [fold_right]; [lia|].
    rewrite IHl. lia. }
  rewrite Hshift, IH. unfold backoff.
  replace (Z.of_nat (S k) * (Z.of_nat (S k) + 1))
    with (Z.of_nat k * (Z.of_nat k + 1) + (1 + Z.of_nat k) * 2) by lia.
  rewrite Z.div_add by lia.
  replace (Z.of_nat (1 + k)) with (1 + Z.of_nat k) by lia. lia.
Qed.

(** X8. The retry budget. Whatever the transport does, a request is
    sent at most [maxRetries + 1] times, and the time slept between the
    sends is [retryDelay * k * (k + 1) / 2] for the number [k] of
    retries made: at most [retryDelay * maxRetries * (maxRetries + 1) / 2]
    when the delay is not negative. *)
Theorem retry_budget (cfg : HarperDBConfig) (attempt : nat -> Settled) :
  exists (k : nat) (x : Exchange),
    post cfg attempt = Some x
    /\ List.length (delays x) = k
    /\ Z.of_nat k <= Z.max 0 (num_or (maxRetries cfg) 0)
    /\ total_delay (delays x)
       = num_or (retryDelay cfg) 0 * (Z.of_nat k * (Z.of_nat k + 1) / 2)
    /\ (0 <= num_or (retryDelay cfg) 0 ->
        total_delay (delays x)
        <= num_or (retryDelay cfg) 0
           * (Z.max 0 (num_or (maxRetries cfg) 0)
              * (Z.max 0 (num_or (maxRetries cfg) 0) + 1) / 2)).
Proof.
  destruct (post_spec cfg attempt)
    as (k & x & Hx & Hs & Hd & Hbefore & Hlast).
  exists k, x. split; [exact Hx|].
  assert (Hk : Z.of_nat k <= Z.max 0 (num_or (maxRetries cfg) 0)).
  { destruct k as [|k]; [lia|].
    destruct (Hbefore k (Nat.lt_succ_diag_r k)) as [H _]. lia. }
  split; [now rewrite Hd, length_map, length_seq|].
  split; [exact Hk|].
  rewrite Hd, total_delay_backoff. split; [reflexivity|].
  intros Hpos. apply Z.mul_le_mono_nonneg_l; [exact Hpos|].
  apply Z.div_le_mono; [lia|]. nia.
Qed.

Lemma retry_budget_witness :
  exists x,
    post sample_config (flaky 5) = Some x
    /\ total_delay (delays x) <= 6000.
Proof.
  destruct (retry_budget sample_config (flaky 5))
    as (k & x & Hx & _ & _ & _ & H).
  exists x. split; [exact Hx|].
  apply H. vm_compute. discriminate.
Defined.

(** ** Fingerprints *)

(** X9. Fingerprints keep operations apart. Two cache-eligible requests
    with the same fingerprint have the same operation name, letter for
    letter, and the same normalized body; so although eligibility is
    decided on the lower-cased name, requests whose names differ only in
    case never share an entry. *)
Theorem generateCacheKey_separates (operation operation' : string)
    (body body' : JSON) :
  eligible operation -> eligible operation' ->
  generateCacheKey operation body = generateCacheKey operation' body' ->
  operation = operation' /\ normalizeBody body = normalizeBody body'.
Proof.
  unfold eligible, generateCacheKey. intros -> -> H. cbn [negb] in H.
  apply Buffer_base64_stringify_inj in H. now injection H.
Qed.

Lemma generateCacheKey_separates_witness :
  eligible "SQL" /\ eligible "sql"
  /\ generateCacheKey "SQL" select_one <> generateCacheKey "sql" select_one.
Proof.
  split; [reflexivity|]. split; [reflexivity|]. intros H.
  destruct (generateCacheKey_separates "SQL" "sql" select_one select_one
              eq_refl eq_refl H) as [Hop _].
  discriminate Hop.
Defined.

(** ** Invalidation *)

Lemma invalidateTableCache_get decodeKey cfg cache table schema key :
  NoDup (map_keys cache) ->
  map_get key (invalidateTableCache decodeKey cfg cache table schema)
  = if deletes decodeKey table (scope cfg schema) key then None
    else map_get key cache.
Proof.
  intros Hnd. rewrite invalidateTableCache_filter by assumption.
  rewrite map_get_filter by assumption. cbn [fst].
  destruct (map_get key cache);
    now destruct (deletes decodeKey table (scope cfg schema) key).
Qed.

(** X10. Invalidation only removes, and it can be repeated and
    reordered freely: the entries left are entries of the store;
    invalidating a table twice leaves what invalidating it once leaves;
    and two invalidations, of the same or of different tables and
    schemas, leave the same store in either order. *)
Theorem invalidateTableCache_idempotent
    (decodeKey : string -> option JSON) (cfg : HarperDBConfig)
    (cache : Cache) (table table' : string) (schema schema' : option string) :
  NoDup (map_keys cache) ->
  let once := invalidateTableCache decodeKey cfg cache table schema in
  incl once cache
  /\ invalidateTableCache decodeKey cfg once table schema = once
  /\ invalidateTableCache decodeKey cfg once table' schema'
     = invalidateTableCache decodeKey cfg
         (invalidateTableCache decodeKey cfg cache table' schema')
         table schema.
Proof.
  intros Hnd once. subst once.
  rewrite !invalidateTableCache_filter
    by (try apply filter_keys_NoDup; assumption).
  rewrite (invalidateTableCache_filter decodeKey cfg cache table' schema')
    by assumption.
  rewrite !invalidateTableCache_filter
    by (try apply filter_keys_NoDup; assumption).
  split; [|split].
  - intros x Hx. now apply filter_In in Hx.
  - rewrite filter_filter_and. apply filter_ext. intros x.
    now destruct (negb _).
  - rewrite !filter_filter_and. apply filter_ext. intros x.
    apply andb_comm.
Qed.

Lemma invalidateTableCache_idempotent_witness :
  invalidateTableCache Reference.decodeKey sample_config
    (invalidateTableCache Reference.decodeKey sample_config sample_cache
       "orders" None) "orders" None
  = invalidateTableCache Reference.decodeKey sample_config sample_cache
      "orders" None.
Proof.
  apply (invalidateTableCache_idempotent Reference.decodeKey sample_config
           sample_cache "orders" "users" None None sample_cache_NoDup).
Defined.

Import Methods.

(* ================================================================== *)
(** * Part IX. Properties of the further methods                      *)
(* ================================================================== *)

(** ** Writes and the reads they invalidate *)

Lemma write_schema_getSchema cfg h : write_schema cfg h = getSchema cfg.
Proof.
  unfold write_schema. destruct (truthy_string (str_or h "")); cbn [str_or].
  - reflexivity.
  - now destruct (truthy_string (getSchema cfg)).
Qed.

Lemma scope_getSchema cfg h :
  scope cfg (Some (write_schema cfg h)) = getSchema cfg.
Proof.
  rewrite write_schema_getSchema. unfold scope, getSchema. cbn [str_or].
  now destruct (truthy_string (str_or (schema cfg) "")).
Qed.

Lemma targets_of_read decodeKey operation m table schemaName :
  reads_keys decodeKey -> eligible operation ->
  (targets decodeKey table schemaName (generateCacheKey operation (JObj m))
   <-> obj_get "table" m = Some (JStr table)
       /\ (obj_get "schema" m = Some (JStr schemaName)
           \/ truthy (obj_get "schema" m) = false)).
Proof.
  intros Hdec Hel. unfold targets. rewrite (Hdec _ _ Hel).
  assert (Hfield : forall k s,
            prop (normalizeBody (JObj m)) k = Some (JStr s)
            <-> obj_get k m = Some (JStr s)).
  { intros k s. rewrite prop_normalizeBody.
    destruct (obj_get k m) as [v|]; simpl.
    - split; intros [= H]; f_equal; now apply normalizeField_string.
    - split; discriminate. }
  assert (Hfalsy : truthy (prop (normalizeBody (JObj m)) "schema")
                   = truthy (obj_get "schema" m)).
  { rewrite prop_normalizeBody. destruct (obj_get "schema" m) as [v|]; simpl.
    - apply normalizeField_truthy.
    - reflexivity. }
  split.
  - intros (decoded & body & [= <-] & Hbody & Ht & Hs).
    change (Some (normalizeBody (JObj m)) = Some body) in Hbody.
    remember (normalizeBody (JObj m)) as normal eqn:Hnormal.
    injection Hbody as <-. subst normal.
    rewrite Hfield in Ht. rewrite Hfield, Hfalsy in Hs. auto.
  - intros [Ht Hs]. do 2 eexists. split; [reflexivity|].
    split; [reflexivity|].
    rewrite !Hfield, Hfalsy. auto.
Qed.

Lemma invalidated_read decodeKey cfg cache table h read m :
  reads_keys decodeKey -> NoDup (map_keys cache) ->
  eligible read -> names_table cfg table m ->
  map_get (generateCacheKey read (JObj m))
    (invalidateTableCache decodeKey cfg cache table
       (Some (write_schema cfg h))) = None.
Proof.
  intros Hdec Hnd Hel Hnames.
  rewrite invalidateTableCache_get by assumption.
  rewrite scope_getSchema.
  assert (Hdel : deletes decodeKey table (getSchema cfg)
                   (generateCacheKey read (JObj m)) = true).
  { apply deletes_iff. now apply targets_of_read. }
  now rewrite Hdel.
Qed.

Lemma kept_entry decodeKey cfg cache table h key :
  NoDup (map_keys cache) ->
  ~ targets decodeKey table (getSchema cfg) key ->
  map_get key
    (invalidateTableCache decodeKey cfg cache table
       (Some (write_schema cfg h))) = map_get key cache.
Proof.
  intros Hnd Hnot. rewrite invalidateTableCache_get by assumption.
  rewrite scope_getSchema.
  destruct (deletes decodeKey table (getSchema cfg) key) eqn:Hdel;
    [|reflexivity].
  exfalso. apply Hnot. now apply deletes_iff.
Qed.

(** X11. A single write that succeeds ends every cached read of its
    table. After an [insert], [update], [upsert] or [delete] on a table
    has succeeded, no entry is left for any cache-eligible request whose
    body names that table in the schema of the client, or in no schema,
    so the next such read is sent; the entries of other tables and
    schemas are as before. When the write fails, its error is thrown and
    the store is not touched. The decoder is any one that reads the keys
    of [generateCacheKey] back. *)
Theorem write_invalidates_reads (decodeKey : string -> option JSON)
    (cfg : HarperDBConfig) (cache : Cache) (call : Call)
    (table hashValue : string) (record : JSON) (options : BulkOptions)
    (read : string) (m : list (string * JSON)) :
  reads_keys decodeKey -> NoDup (map_keys cache) ->
  eligible read -> names_table cfg table m ->
  let key := generateCacheKey read (JObj m) in
  let settles (run : Result QueryResult * Cache) :=
    match fst run with
    | Ok _ =>
        map_get key (snd run) = None
        /\ forall other,
             ~ targets decodeKey table (getSchema cfg) other ->
             map_get other (snd run) = map_get other cache
    | Throw _ => snd run = cache
    end in
  settles (insert decodeKey cfg cache call table record options)
  /\ settles (update decodeKey cfg cache call table record options)
  /\ settles (upsert decodeKey cfg cache call table record options)
  /\ settles (delete decodeKey cfg cache call table hashValue options).
Proof.
  intros Hdec Hnd Hel Hnames key settles. subst settles key.
  unfold insert, update, upsert, write_one, delete.
  rewrite !executeQuery_write by reflexivity.
  cbn [outcome cache_after returned_at].
  repeat split;
    (destruct (from_network call _); cbn [fst snd];
     [split; [now apply invalidated_read
             | intros other Hother; now apply kept_entry]
     | reflexivity]).
Qed.

Lemma write_invalidates_reads_witness :
  map_get orders_key
    (snd (insert Reference.decodeKey sample_config
            [(orders_key, sample_entry 1 0 5000)] (calls_failing [] 0)
            "orders" (record 1) no_bulk_options)) = None.
Proof.
  assert (Hnd : NoDup (map_keys [(orders_key, sample_entry 1 0 5000)])).
  { repeat constructor. simpl. tauto. }
  assert (Hnames : names_table sample_config "orders"
                     [("schema", JStr "dev"); ("table", JStr "orders");
                      ("search_attribute", JStr "status");
                      ("search_value", JStr "open");
                      ("get_attributes", JArr [JStr "*"])]).
  { split; [reflexivity | now left]. }
  destruct (write_invalidates_reads Reference.decodeKey sample_config
              [(orders_key, sample_entry 1 0 5000)] (calls_failing [] 0)
              "orders" "1" (record 1) no_bulk_options "search_by_value" _
              decodeKey_generateCacheKey Hnd eq_refl Hnames) as [H _].
  exact (proj1 H).
Defined.

(** ** Reads by hash *)

(** X12. Reads by hash never use the cache. [getByHash] and
    [getByHashes] send the operation [search_by_hash], which is not one
    of the cacheable operations, so whatever the configuration and the
    options say and whatever the store holds, the request is made, the
    result is made of the reply alone and the store is left as it is.
    [getByHash] returns the first row of the reply, counted as one
    record, or [null] counted as none; given no hash value at all,
    [getByHashes] makes no request and returns no rows. *)
Theorem by_hash_never_cached (cfg : HarperDBConfig) (cache : Cache)
    (call : Call) (table hashValue : string) (hashValues : list string)
    (options : QueryOptions) :
  let one :=
    send call (outbound cfg "search_by_hash"
                 (hash_body cfg table [hashValue]) options) in
  let many :=
    send call (outbound cfg "search_by_hash"
                 (hash_body cfg table hashValues) options) in
  getByHash cfg cache call table hashValue options
  = (reply_of one call
       (fun response =>
          {| q_data := first_or_null (data response);
             q_metadata :=
               {| q_executionTime := finished call - started call;
                  recordsAffected :=
                    Some (JNum (if truthy
                                     (Some (first_or_null (data response)))
                                then 1 else 0)) |} |}),
     cache)
  /\ (hashValues <> [] ->
      getByHashes cfg cache call table hashValues options
      = (reply_of many call
           (fun response => rows response (started call) (finished call)),
         cache))
  /\ getByHashes cfg cache call table [] options
     = (Ok {| q_data := JArr [];
              q_metadata := {| q_executionTime := 0;
                               recordsAffected := Some (JNum 0) |} |},
        cache).
Proof.
  intros one many. split; [|split].
  - unfold getByHash. rewrite executeQuery_write by reflexivity.
    cbn [outcome cache_after returned_at]. fold one. unfold reply_of.
    now destruct (from_network call one).
  - intros Hne. unfold getByHashes. destruct hashValues; [congruence|].
    rewrite executeQuery_write by reflexivity.
    cbn [outcome cache_after returned_at]. fold many. unfold reply_of.
    now destruct (from_network call many).
  - reflexivity.
Qed.

Lemma by_hash_never_cached_witness :
  let call := sample_call 0 50 (Fulfilled (http_ok (JArr [record 7]))) in
  fst (getByHashes sample_config sample_cache call "orders" ["7"]
         (with_cache (Some true)))
  = Ok (rows (envelope (http_ok (JArr [record 7])) 50) 0 50).
Proof.
  intros call.
  destruct (by_hash_never_cached sample_config sample_cache call "orders"
              "7" ["7"] (with_cache (Some true))) as (_ & H & _).
  rewrite H by discriminate. reflexivity.
Defined.

(** ** Probes *)

Lemma request_write cfg operation body cache call options :
  write_operation operation ->
  request cfg operation body cache call options
  = (reply_of (send call (outbound cfg operation body options)) call
       (fun response =>
          {| q_data := data response;
             q_metadata :=
               {| q_executionTime := finished call - started call;
                  recordsAffected := None |} |}),
     cache).
Proof.
  intros Hw. unfold request. rewrite executeQuery_write by assumption.
  cbn [outcome cache_after returned_at]. unfold reply_of.
  now destruct (from_network call _).
Qed.

(** X13. The connection probes report the network as it is now.
    [testConnection] and [healthCheck] never throw and are never answered
    from the cache: they send [system_information] each time, and answer
    [true], or [healthy], exactly when that request is answered, [false],
    or [unhealthy], when it fails, with whatever error; the store is left
    as it is. *)
Theorem probes_report_network (cfg : HarperDBConfig) (cache : Cache)
    (call : Call) (options : QueryOptions) :
  let reply :=
    send call (outbound cfg "system_information" (JObj []) options) in
  let answered :=
    match reply with Fulfilled _ => true | Rejected _ => false end in
  testConnection cfg cache call options = (Ok answered, cache)
  /\ healthCheck cfg cache call options
     = (Ok {| q_data :=
                JObj [("status",
                       JStr (if answered then "healthy" else "unhealthy"));
                      ("timestamp", JNum (finished call))];
              q_metadata :=
                {| q_executionTime := finished call - started call;
                   recordsAffected := None |} |},
        cache).
Proof.
  intros reply answered. subst answered.
  unfold testConnection, healthCheck, systemInformation.
  rewrite request_write by reflexivity.
  rewrite executeQuery_write by reflexivity.
  cbn [fst snd returned_at]. fold reply. unfold reply_of, from_network.
  now destruct reply.
Qed.

(** X14. The existence checks never throw. [tableExists],
    [schemaExists] and [exists] always return a boolean, and it is
    [false] whenever their request fails. [tableExists] is [true] as
    soon as [describe_table] is answered, from the server or from the
    cache; [schemaExists] is [true] when the list returned is an array
    that holds the name; [exists] when the first row returned is not
    [null]. *)
Theorem existence_checks_total (cfg : HarperDBConfig) (cache : Cache)
    (call : Call) (table schema hashValue : string)
    (unused : option string) (options : QueryOptions) :
  (exists b,
     fst (tableExists cfg cache call table unused options) = Ok b
     /\ (b = true <->
         exists r, fst (describeTable cfg cache call table options) = Ok r))
  /\ (exists b,
        fst (schemaExists cfg cache call schema options) = Ok b
        /\ (b = true <->
            exists r,
              fst (listSchemas cfg cache call options) = Ok r
              /\ includes_string (q_data r) schema = true))
  /\ (exists b,
        fst (exists_ cfg cache call table hashValue options) = Ok b
        /\ (b = true <->
            exists r,
              fst (getByHash cfg cache call table hashValue options) = Ok r
              /\ q_data r <> JNull)).
Proof.
  split; [|split].
  - unfold tableExists.
    destruct (describeTable cfg cache call table options) as [[r|e] c];
      cbn [fst]; eexists; (split; [reflexivity|]).
    + split; [eauto | reflexivity].
    + split; [discriminate | intros [r [=]]].
  - unfold schemaExists.
    destruct (listSchemas cfg cache call options) as [[r|e] c];
      cbn [fst]; eexists; (split; [reflexivity|]).
    + split; [intros H; eauto | now intros (r' & [= <-] & H)].
    + split; [discriminate | intros (r & [=] & _)].
  - unfold exists_.
    destruct (getByHash cfg cache call table hashValue options)
      as [[r|e] c]; cbn [fst]; eexists; (split; [reflexivity|]).
    + split.
      * intros H. exists r. split; [reflexivity|].
        destruct (q_data r); discriminate.
      * intros (r' & [= <-] & H). destruct (q_data r); congruence.
    + split; [discriminate | intros (r & [=] & _)].
Qed.

(** ** Schema changes and the cache *)

Lemma second_read_hit cfg cache first second operation body options response :
  caching cfg options -> eligible operation -> cache_wf cache ->
  (forall entry,
     map_get (generateCacheKey operation body) cache = Some entry ->
     ~ fresh (started first) entry) ->
  send first (outbound cfg operation body options) = Fulfilled response ->
  let x1 := executeQuery cfg cache first operation body options in
  started second
  <= finished first + ttl (stored cfg first options response) ->
  outcome x1 = Ok (envelope response (finished first - started first))
  /\ executeQuery cfg (cache_after x1) second operation body options
     = {| outcome :=
            Ok (from_cache
                  (envelope response (finished first - started first)));
          cache_after := cache_after x1;
          sent := None;
          returned_at := started second |}.
Proof.
  intros Hcaching Hel Hwf Hstale Hsend x1 Hin.
  pose proof (caching_in_force _ _ Hcaching) as Huse.
  destruct Hcaching as [Hon _].
  assert (Hmiss : map_get (generateCacheKey operation body) cache = None
                  \/ exists entry,
                       map_get (generateCacheKey operation body) cache
                       = Some entry /\ ~ fresh (started first) entry).
  { destruct (map_get (generateCacheKey operation body) cache) as [entry|]
      eqn:Hget; [right | now left].
    exists entry. split; [reflexivity|]. now apply Hstale. }
  destruct (executeQuery_miss cfg cache first operation body options
              Huse Hon Hel (proj1 Hwf) Hmiss) as (_ & Hout & Hput).
  fold x1 in Hout, Hput. specialize (Hput response Hsend).
  assert (Hwf1 : cache_wf (cache_after x1)) by now apply executeQuery_wf.
  split; [now rewrite Hout, Hsend|].
  assert (Hfresh : fresh (started second)
                     (stored cfg first options response)).
  { unfold fresh. cbn [timestamp stored]. exact Hin. }
  now rewrite (executeQuery_hit cfg (cache_after x1) second operation body
                 options _ Huse Hon Hel (proj1 Hwf1) Hput Hfresh).
Qed.

(** X15. Dropping a table does not invalidate what the cache holds about
    it. [dropTable] leaves the store as it is (so do [createTable],
    [createSchema] and [dropSchema]); hence once [describeTable] has been
    answered with caching in force, [tableExists] keeps answering [true]
    for that table, without asking the server, until the entry expires,
    a [dropTable] in between notwithstanding. *)
Theorem dropTable_keeps_cache (cfg : HarperDBConfig) (cache : Cache)
    (described dropped probed : Call) (table schemaName : string)
    (hashAttribute unused : option string) (options : QueryOptions)
    (response : AxiosResponse) :
  let body := JObj [("schema", JStr (getSchema cfg)); ("table", JStr table)] in
  (forall c call,
     snd (dropTable cfg c call table options) = c
     /\ snd (createTable cfg c call table hashAttribute options) = c
     /\ snd (createSchema cfg c call schemaName options) = c
     /\ snd (dropSchema cfg c call schemaName options) = c)
  /\ (caching cfg options -> cache_wf cache ->
      (forall entry,
         map_get (generateCacheKey "describe_table" body) cache = Some entry ->
         ~ fresh (started described) entry) ->
      send described (outbound cfg "describe_table" body options)
      = Fulfilled response ->
      started probed
      <= finished described + ttl (stored cfg described options response) ->
      let c1 := snd (describeTable cfg cache described table options) in
      let c2 := snd (dropTable cfg c1 dropped table options) in
      tableExists cfg c2 probed table unused options = (Ok true, c2)).
Proof.
  intros body. split.
  - intros c call. unfold dropTable, createTable, createSchema, dropSchema.
    now rewrite !request_write by reflexivity.
  - intros Hcaching Hwf Hstale Hsend Hin c1 c2.
    assert (Hc2 : c2 = c1).
    { subst c2. unfold dropTable. now rewrite request_write by reflexivity. }
    rewrite Hc2. subst c1.
    destruct (second_read_hit cfg cache described probed "describe_table"
                body options response Hcaching eq_refl Hwf Hstale Hsend Hin)
      as [Hout Hhit].
    unfold tableExists, describeTable, request. fold body.
    destruct (outcome (executeQuery cfg cache described "describe_table"
                         body options)) eqn:Hfirst; [|discriminate].
    cbn [snd]. rewrite Hhit. reflexivity.
Qed.

Lemma dropTable_keeps_cache_witness :
  let answer := Fulfilled (http_ok (JObj [("name", JStr "orders")])) in
  let gone := Rejected (http_error 404) in
  let c1 :=
    snd (describeTable sample_config [] (sample_call 0 50 answer) "orders"
           no_options) in
  let c2 :=
    snd (dropTable sample_config c1 (sample_call 60 70 answer) "orders"
           no_options) in
  tableExists sample_config c2 (sample_call 100 150 gone) "orders" None
    no_options = (Ok true, c2).
Proof.
  intros answer gone c1 c2.
  assert (Hc : caching sample_config no_options)
    by (split; [reflexivity | discriminate]).
  destruct (dropTable_keeps_cache sample_config [] (sample_call 0 50 answer)
              (sample_call 60 70 answer) (sample_call 100 150 gone)
              "orders" "dev" None None no_options
              (http_ok (JObj [("name", JStr "orders")]))) as [_ H].
  apply H.
  - exact Hc.
  - exact cache_wf_nil.
  - intros entry [=].
  - reflexivity.
  - vm_compute. discriminate.
Defined.

(** ** [count], [findOne] and the filtered [select] *)

Lemma select_plain cfg sort_rows cache call table options :
  let x :=
    executeQuery cfg cache call "sql"
      (JObj [("sql", JStr ("SELECT * FROM " ++ getSchema cfg ++ "." ++ table))])
      options in
  select cfg sort_rows cache call table (as_select options)
  = (Ok match outcome x with
        | Ok response => rows response (started call) (returned_at x)
        | Throw _ =>
            {| q_data := JArr [];
               q_metadata :=
                 {| q_executionTime := returned_at x - started call;
                    recordsAffected := Some (JNum 0) |} |}
        end,
     cache_after x).
Proof.
  intros x. unfold select, as_select, select_statement.
  cbn [s_sql s_where s_query limit offset orderBy str_or truthy_string
       num_or Z.eqb negb].
  fold x. now destruct (outcome x).
Qed.

(** X16. [count] without a condition never throws and falls back
    twice. With no condition, or an empty one, it asks [describe_table]
    and returns its [record_count], or 0 when there is none; when that
    request fails it runs [SELECT * FROM schema.table] and counts the
    rows, and when that fails too it returns 0. With a condition it
    searches on the first pair of the condition only, and a failure of
    that search is thrown. The [schema] argument changes nothing. *)
Theorem count_falls_back (cfg : HarperDBConfig)
    (sort_rows : string -> bool -> JSON -> Result JSON) (cache : Cache)
    (first second : Call) (table : string)
    (condition : option (list (string * JSON))) (schema : option string)
    (options : QueryOptions) :
  let described :=
    executeQuery cfg cache first "describe_table"
      (JObj [("schema", JStr (getSchema cfg)); ("table", JStr table)])
      options in
  let selected :=
    executeQuery cfg (cache_after described) second "sql"
      (JObj [("sql", JStr ("SELECT * FROM " ++ getSchema cfg ++ "." ++ table))])
      options in
  let counted := count cfg sort_rows cache first second table condition
                   schema options in
  counted = count cfg sort_rows cache first second table condition None options
  /\ (condition = None \/ condition = Some [] ->
      exists r,
        fst counted = Ok r
        /\ (forall response,
              outcome described = Ok response ->
              Some (q_data r)
              = js_or (prop (data response) "record_count") (Some (JNum 0)))
        /\ (forall e response,
              outcome described = Throw e ->
              outcome selected = Ok response ->
              q_data r = JNum (array_length (or_empty (data response))))
        /\ (forall e e',
              outcome described = Throw e -> outcome selected = Throw e' ->
              q_data r = JNum 0))
  /\ (forall k v rest,
        condition = Some ((k, v) :: rest) ->
        counted
        = count cfg sort_rows cache first second table (Some [(k, v)])
            schema options
        /\ forall e,
             fst (searchByValue cfg cache first table k v (Some ["*"])
                    options) = Throw e ->
             fst counted = Throw e).
Proof.
  intros described selected counted. split; [reflexivity|]. split.
  - intros Hcond.
    assert (Hcount :
              counted
              = match describeTable cfg cache first table options with
                | (Ok desc, cache') =>
                    (Ok (Methods.counted
                           match js_or (prop (q_data desc) "record_count")
                                   (Some (JNum 0)) with
                           | Some n => n
                           | None => JNum 0
                           end
                           (q_executionTime (q_metadata desc))), cache')
                | (Throw _, cache') =>
                    match select cfg sort_rows cache' second table
                            (as_select options) with
                    | (Ok result, cache'') =>
                        (Ok (Methods.counted
                               (JNum (array_length (q_data result)))
                               (q_executionTime (q_metadata result)
                                + (started second - started first))),
                         cache'')
                    | (Throw e, cache'') => (Throw e, cache'')
                    end
                end).
    { subst counted. unfold count. now destruct Hcond as [->| ->]. }
    rewrite Hcount. unfold describeTable, request. fold described.
    destruct (outcome described) as [response|e] eqn:Hd.
    + eexists. split; [reflexivity|]. cbn [q_data Methods.counted].
      split; [|split]; try discriminate.
      intros response' [= <-]. unfold js_or.
      destruct (prop (data response) "record_count") as [n|];
        [|reflexivity].
      now destruct (truthy (Some n)).
    + rewrite select_plain. fold selected.
      eexists. split; [reflexivity|]. cbn [q_data Methods.counted].
      split; [discriminate|]. split.
      * intros e0 response _ ->. cbn [rows q_data].
        unfold or_empty. destruct (data response) as [| | | |l|];
          try reflexivity; cbn [truthy];
          repeat match goal with |- context [if ?b then _ else _] =>
                   destruct b end; reflexivity.
      * intros e0 e' _ ->. reflexivity.
  - intros k v rest ->. split; [reflexivity|].
    intros e He. subst counted. unfold count.
    destruct (searchByValue cfg cache first table k v (Some ["*"]) options)
      as [[r|e'] c]; cbn [fst] in *; congruence.
Qed.

Lemma count_falls_back_witness :
  let down := Rejected timeout_error in
  exists r,
    fst (count sample_config unsorted [] (sample_call 0 50 down)
           (sample_call 50 90 down) "orders" None None no_options) = Ok r
    /\ q_data r = JNum 0.
Proof.
  intros down.
  destruct (count_falls_back sample_config unsorted [] (sample_call 0 50 down)
              (sample_call 50 90 down) "orders" None None no_options)
    as (_ & H & _).
  destruct H as (r & Hr & _ & _ & H0); [now left|].
  exists r. split; [exact Hr|].
  apply (H0 (query_failed timeout_error) (query_failed timeout_error));
    reflexivity.
Defined.

Lemma select_truthy cfg sort_rows cache call table options r c :
  returns_array sort_rows ->
  select cfg sort_rows cache call table options = (Ok r, c) ->
  truthy (Some (q_data r)) = true.
Proof.
  intros Hsort. unfold select.
  assert (Hrows : forall response a b,
            truthy (Some (q_data (rows response a b))) = true).
  { intros response a b. cbn [rows q_data]. unfold or_empty.
    destruct (truthy (Some (data response))) eqn:H; [exact H | reflexivity]. }
  destruct (truthy_string (str_or (s_sql options) "")).
  { destruct (outcome _); intros [= <- _]. apply Hrows. }
  destruct (s_where options) as [condition|].
  - destruct (outcome _) as [response|e]; [|discriminate].
    destruct (truthy_string (str_or (orderBy options) "")).
    + destruct (sort_rows _ _ _) as [sorted|e] eqn:Hs; [|discriminate].
      intros [= <- _]. cbn [q_data].
      destruct (Hsort _ _ _ _ Hs) as [l ->]. reflexivity.
    + intros [= <- _]. cbn [q_data]. unfold or_empty.
      destruct (truthy (Some (data response))) eqn:H;
        [exact H | reflexivity].
  - destruct (outcome _); intros [= <- _]; [apply Hrows | reflexivity].
Qed.

(** X17. [findOne] reports one record affected whenever it returns: the
    count is taken from the truthiness of the rows [select] returns,
    which are always an array or another truthy value, so it is 1 also
    when no row matched and the data returned is [null]. The data is the
    first row when the rows are a non-empty array, [null] otherwise; a
    failure of the search is thrown. *)
Theorem findOne_recordsAffected (cfg : HarperDBConfig)
    (sort_rows : string -> bool -> JSON -> Result JSON) (cache : Cache)
    (call : Call) (table : string) (condition : list (string * JSON))
    (options : SelectOptions) :
  returns_array sort_rows ->
  match select cfg sort_rows cache call table (one_where condition options) with
  | (Ok found, c) =>
      exists r,
        findOne cfg sort_rows cache call table condition options = (Ok r, c)
        /\ recordsAffected (q_metadata r) = Some (JNum 1)
        /\ q_data r = first_or_null (q_data found)
  | (Throw e, c) =>
      findOne cfg sort_rows cache call table condition options = (Throw e, c)
  end.
Proof.
  intros Hsort. unfold findOne.
  destruct (select cfg sort_rows cache call table (one_where condition options))
    as [[found|e] c] eqn:Hsel; [|reflexivity].
  eexists. split; [reflexivity|]. cbn [q_metadata recordsAffected q_data].
  now rewrite (select_truthy _ _ _ _ _ _ _ _ Hsort Hsel).
Qed.

Lemma findOne_recordsAffected_witness :
  exists r c,
    findOne sample_config unsorted []
      (sample_call 0 50 (Fulfilled (http_ok (JArr []))))
      "orders" [("status", JStr "open")] no_select_options = (Ok r, c)
    /\ q_data r = JNull
    /\ recordsAffected (q_metadata r) = Some (JNum 1).
Proof.
  assert (Hsort : returns_array unsorted).
  { intros f d data sorted. unfold unsorted.
    destruct data; try discriminate. intros [= <-]. eauto. }
  pose proof (findOne_recordsAffected sample_config unsorted []
                (sample_call 0 50 (Fulfilled (http_ok (JArr []))))
                "orders" [("status", JStr "open")] no_select_options Hsort)
    as H.
  vm_compute in H. destruct H as (r & Hr & Hn & Hd).
  exists r. eexists. split; [exact Hr|]. split; [exact Hd | exact Hn].
Defined.

(** X18. A filtered [select] searches on one condition only. When no
    raw [sql] is given and [where] holds at least one pair, [select]
    sends [search_by_value] for the first pair: the other pairs of the
    condition and the [offset] have no effect on what is sent or
    returned. Unlike the unfiltered branch, a failure of this request is
    thrown. A raw [sql] option takes precedence over [where]. *)
Theorem select_where_first_pair (cfg : HarperDBConfig)
    (sort_rows : string -> bool -> JSON -> Result JSON) (cache : Cache)
    (call : Call) (table : string) (options : SelectOptions)
    (k : string) (v : JSON) (rest : list (string * JSON)) :
  let narrowed :=
    {| s_query := s_query options; limit := limit options; offset := None;
       s_where := Some [(k, v)]; orderBy := orderBy options;
       orderDirection := orderDirection options; s_sql := s_sql options |} in
  s_where options = Some ((k, v) :: rest) ->
  select cfg sort_rows cache call table options
  = select cfg sort_rows cache call table narrowed
  /\ (truthy_string (str_or (s_sql options) "") = false ->
      let x :=
        executeQuery cfg cache call "search_by_value"
          (JObj
             (spread_into
                [("schema", JStr (getSchema cfg)); ("table", JStr table);
                 ("search_attribute", JStr k); ("search_value", v);
                 ("get_attributes", JArr [JStr "*"])]
                (if negb (num_or (limit options) 0 =? 0)
                 then JObj [("limit", JNum (num_or (limit options) 0))]
                 else JNull)))
          (s_query options) in
      forall e,
        outcome x = Throw e ->
        select cfg sort_rows cache call table options
        = (Throw e, cache_after x))
  /\ (truthy_string (str_or (s_sql options) "") = true ->
      select cfg sort_rows cache call table options
      = sql cfg cache call (str_or (s_sql options) "") (s_query options)).
Proof.
  intros narrowed Hwhere. subst narrowed. unfold select, sql.
  cbn [s_sql s_where s_query limit offset orderBy orderDirection].
  rewrite Hwhere. split; [reflexivity|]. split.
  - intros Hsql e He. rewrite Hsql.
    change (([("schema", JStr (getSchema cfg)); ("table", JStr table)]
             ++ [("search_attribute", JStr k); ("search_value", v)]
             ++ [("get_attributes", JArr [JStr "*"])])%list)
      with [("schema", JStr (getSchema cfg)); ("table", JStr table);
            ("search_attribute", JStr k); ("search_value", v);
            ("get_attributes", JArr [JStr "*"])].
    now rewrite He.
  - intros Hsql. rewrite Hsql. now destruct (outcome _).
Qed.

Lemma select_where_first_pair_witness :
  let call := sample_call 0 50 (Fulfilled (http_ok (JArr [record 1]))) in
  select sample_config unsorted [] call "orders"
    (filtered [("status", JStr "open"); ("total", JNum 10)] None (Some 20))
  = select sample_config unsorted [] call "orders"
      (filtered [("status", JStr "open")] None None).
Proof.
  intros call.
  destruct (select_where_first_pair sample_config unsorted [] call "orders"
              (filtered [("status", JStr "open"); ("total", JNum 10)] None
                 (Some 20))
              "status" (JStr "open") [("total", JNum 10)] eq_refl)
    as [H _].
  exact H.
Defined.

(** ** [transaction] *)

Section TransactionFacts.
Variable S : Type.
Variable clock : S -> Z.



End TransactionFacts.


(** ** [batch] and [promiseAll] *)

Lemma indexed_app {A} (a b : list A) :
  forall i,
    indexed i (a ++ b)
    = (indexed i a ++ indexed (i + Z.of_nat (List.length a)) b)%list.
Proof.
  induction a as [|x a IH]; intros i.
  - cbn [app indexed List.length]. now rewrite Z.add_0_r.
  - change (indexed i ((x :: a) ++ b))
      with ((i, x) :: indexed (i + 1) (a ++ b)).
    rewrite IH. cbn [indexed app List.length].
    now replace (i + Z.of_nat (S (List.length a)))
      with (i + 1 + Z.of_nat (List.length a)) by lia.
Qed.





Lemma forallb_fulfilled {A} (ps : list (Promise A)) :
  Promise_all ps
  = match first_rejection ps with
    | Some (_, e) => Throw e
    | None => Ok (fulfilled ps)
    end.
Proof. reflexivity. Qed.


Section BatchFacts.
Variable operations : list (Promise JSON).
Variable width : nat.
Hypothesis Hwidth : (1 <= width)%nat.

Let n := List.length operations.





End BatchFacts.



(** X21. [promiseAll] either collects or wraps. Without [failFast] it
    does not throw and returns one entry per promise, in order:
    [{ success: true, data }] for a fulfilled one,
    [{ success: false, error }] for a rejected one, with
    ['Unknown error'] for an empty message. With [failFast] it returns
    the values when every promise is fulfilled, and otherwise throws an
    error whose message is ['Promise.all failed: '] followed by the
    message of a rejected promise that no rejected promise precedes in
    time. *)
Theorem promiseAll_policy (promises : list (Promise JSON))
    (failFast : option bool) :
  (flag failFast = false ->
   exists outcomes,
     promiseAll promises failFast = Ok outcomes
     /\ List.length outcomes = List.length promises
     /\ forall i p,
          nth_error promises i = Some p ->
          exists o,
            nth_error outcomes i = Some o
            /\ success o = succeeded p
            /\ match settlement p with
               | Ok v => o_data o = Some v /\ o_error o = None
               | Throw e =>
                   o_data o = None
                   /\ o_error o
                      = Some (str_or (Some (error_message e)) "Unknown error")
               end)
  /\ (flag failFast = true ->
      (forallb succeeded promises = true ->
       promiseAll promises failFast
       = Ok (map fulfilled_outcome (fulfilled promises)))
      /\ (existsb rejected promises = true ->
          exists i p e,
            nth_error promises i = Some p /\ settlement p = Throw e
            /\ (forall j q,
                  nth_error promises j = Some q -> rejected q = true ->
                  settled_at p <= settled_at q)
            /\ promiseAll promises failFast
               = Throw {| error_message :=
                            "Promise.all failed: " ++ error_message e |})).
Proof.
  unfold promiseAll. split.
  - intros ->. eexists. split; [reflexivity|].
    split; [apply length_map|].
    intros i p Hp. exists (settled_outcome p).
    split; [now apply map_nth_error|].
    unfold settled_outcome, succeeded.
    destruct (settlement p); cbn; auto.
  - intros ->. rewrite forallb_fulfilled. split.
    + intros Hall. apply first_rejection_None in Hall. now rewrite Hall.
    + intros Hsome.
      destruct (first_rejection_exists promises Hsome) as (t & e & Hfirst).
      rewrite Hfirst.
      destruct (first_rejection_Some promises t e Hfirst)
        as (i & p & Hi & Hp & Ht & Hmin).
      exists i, p, e. subst t. auto.
Qed.

Lemma promiseAll_policy_witness :
  exists e,
    promiseAll [resolved 5 (JNum 1); failing 9 "late"; failing 7 "early"]
      (Some true)
    = Throw {| error_message := "Promise.all failed: " ++ error_message e |}.
Proof.
  destruct (promiseAll_policy
              [resolved 5 (JNum 1); failing 9 "late"; failing 7 "early"]
              (Some true)) as [_ H].
  destruct (H eq_refl) as [_ Hthrow].
  destruct (Hthrow eq_refl) as (i & p & e & _ & _ & _ & Heq).
  exists e. exact Heq.
Defined.

(** ** The query builder *)

Lemma chain_options (steps : list Step) :
  forall b,
    fold_left apply_step steps b
    = {| QueryBuilder.table := QueryBuilder.table b;
         QueryBuilder.options :=
           {| s_query := s_query (QueryBuilder.options b);
              limit := latest limit_of steps (limit (QueryBuilder.options b));
              offset :=
                latest offset_of steps (offset (QueryBuilder.options b));
              s_where :=
                latest where_of steps (s_where (QueryBuilder.options b));
              orderBy :=
                latest field_of steps (orderBy (QueryBuilder.options b));
              orderDirection :=
                latest direction_of steps
                  (orderDirection (QueryBuilder.options b));
              s_sql := s_sql (QueryBuilder.options b) |} |}.
Proof.
  unfold latest.
  induction steps as [|s steps IH]; intros b.
  - now destruct b as [t []].
  - cbn [fold_left]. rewrite IH. now destruct s.
Qed.

(** X22. A chain of builder calls amounts to one [select]. Whatever
    calls are chained on [new QueryBuilder(db, table)], in whatever
    order and however often, [execute] is [select] on that table with,
    for each setting, the value given by the last call that set it and
    nothing for a setting no call set; no per-call query options and no
    raw [sql] are ever passed. So a chain without [where] never throws:
    it runs the unfiltered [select], which returns no rows when its
    request fails. *)
Theorem builder_chain (cfg : HarperDBConfig)
    (sort_rows : string -> bool -> JSON -> Result JSON) (cache : Cache)
    (call : Call) (table : string) (steps : list Step) :
  QueryBuilder.execute cfg sort_rows cache call (chain table steps)
  = select cfg sort_rows cache call table
      {| s_query := no_options;
         limit := latest limit_of steps None;
         offset := latest offset_of steps None;
         s_where := latest where_of steps None;
         orderBy := latest field_of steps None;
         orderDirection := latest direction_of steps None;
         s_sql := None |}
  /\ ((forall s, In s steps -> where_of s = None) ->
      exists r,
        fst (QueryBuilder.execute cfg sort_rows cache call
               (chain table steps)) = Ok r).
Proof.
  unfold QueryBuilder.execute, chain. rewrite chain_options.
  cbn [QueryBuilder.table QueryBuilder.options QueryBuilder.new
       no_select_options s_query limit offset s_where orderBy
       orderDirection s_sql].
  split; [reflexivity|]. intros Hnone.
  assert (Hwhere : latest where_of steps None = None).
  { unfold latest. clear - Hnone.
    induction steps as [|s steps IH]; [reflexivity|].
    cbn [fold_left]. rewrite (Hnone s) by now left.
    apply IH. intros s' Hs'. apply Hnone. now right. }
  unfold select. cbn [s_sql s_where str_or truthy_string]. rewrite Hwhere.
  destruct (outcome _); eexists; reflexivity.
Qed.

Lemma builder_chain_witness :
  exists r,
    fst (QueryBuilder.execute sample_config unsorted []
           (sample_call 0 50 (Rejected timeout_error))
           (chain "orders" [set_limit 5; set_orderBy "id" None; set_limit 10]))
    = Ok r.
Proof.
  destruct (builder_chain sample_config unsorted []
              (sample_call 0 50 (Rejected timeout_error)) "orders"
              [set_limit 5; set_orderBy "id" None; set_limit 10]) as [_ H].
  apply H. intros s [<-|[<-|[<-|[]]]]; reflexivity.
Defined.

(** ** Bulk writes and the cache *)

Lemma indexed_last {A} (l : list A) (x : A) i d :
  last (indexed i (l ++ [x])) d = (i + Z.of_nat (List.length l), x)
  /\ indexed i (l ++ [x])
     = (indexed i l ++ [(i + Z.of_nat (List.length l), x)])%list.
Proof.
  rewrite indexed_app. cbn [indexed]. split; [|reflexivity].
  now rewrite last_last.
Qed.

Lemma indexed_fst_bound {A} (l : list A) i g :
  In g (indexed i l) -> i <= fst g < i + Z.of_nat (List.length l).
Proof.
  destruct g as [b x]. intros Hin. apply indexed_In in Hin.
  destruct Hin as (k & -> & Hk). cbn [fst].
  assert (Hlt : (k < List.length l)%nat)
    by (apply nth_error_Some; congruence).
  lia.
Qed.

Section SequentialCache.
Variable decodeKey : string -> option JSON.
Variable cfg : HarperDBConfig.
Variable calls : nat -> Call.
Variables operation field table : string.
Variable options : BulkOptions.
Hypothesis Hwrite : write_operation operation.

Lemma bulk_sequential_cache cache startTime now items :
  items <> [] -> 1 <= group_size options ->
  snd (bulk_sequential decodeKey cfg calls operation field cache startTime
         now table items options)
  = if failed_group (verdict cfg calls operation field table options)
         (last_group items (group_size options))
    then cache
    else invalidateTableCache decodeKey cfg cache table
           (Some (getSchema cfg)).
Proof.
  intros Hitems Hsize. unfold bulk_sequential, last_group.
  fold (group_size options). cbn [snd].
  set (batches := chunk items (group_size options)).
  assert (Hne : batches <> []).
  { subst batches. intros Hnil.
    pose proof (chunk_concat items (group_size options) Hsize) as Hc.
    rewrite Hnil in Hc. cbn in Hc. congruence. }
  destruct (exists_last Hne) as (front & final & Hsplit).
  rewrite Hsplit.
  destruct (indexed_last front final 0 (0, [])) as [Hlast Hidx].
  rewrite Hlast, Hidx, fold_left_app. cbn [fold_left].
  rewrite length_app. cbn [List.length].
  set (t0 := {| t_successful := 0; t_failed := 0; t_errors := [];
                t_cache := cache |}).
  destruct (sequential_step_counts decodeKey cfg calls operation field table
              options Hwrite (group_size options)
              (Z.of_nat (List.length front + 1))
              (fold_left
                 (sequential_step decodeKey cfg calls operation field table
                    options (group_size options)
                    (Z.of_nat (List.length front + 1)))
                 (indexed 0 front) t0)
              (0 + Z.of_nat (List.length front), final)) as [_ Hcache].
  rewrite Hcache. cbn [fst].
  rewrite (sequential_cache_unchanged decodeKey cfg calls operation field
             table options Hwrite).
  - cbn [t_cache t0].
    replace (0 + Z.of_nat (List.length front)
             =? Z.of_nat (List.length front + 1) - 1) with true
      by (symmetry; apply Z.eqb_eq; lia).
    rewrite andb_true_r, write_schema_getSchema.
    now destruct (failed_group _ _).
  - intros g Hin Hfst. apply indexed_fst_bound in Hin. lia.
Qed.
End SequentialCache.

(** X23. When a bulk write invalidates. [insertMany], [updateMany] and
    [deleteMany] over a non-empty input end with the cached reads of the
    table invalidated exactly when the request of the last group
    succeeds, and with the store untouched when it fails, whatever
    became of the groups before. [upsertMany] invalidates once its waves
    are over, whether its groups succeed or not. The group size is
    assumed to be at least 1, and for [upsertMany] the wave width
    too. *)
Theorem bulk_invalidation_rule (decodeKey : string -> option JSON)
    (cfg : HarperDBConfig) (calls : nat -> Call) (cache : Cache)
    (startTime now : Z) (table : string) (items : list JSON)
    (options : BulkOptions) :
  1 <= group_size options ->
  let final := last_group items (group_size options) in
  let invalidated :=
    invalidateTableCache decodeKey cfg cache table (Some (getSchema cfg)) in
  let rule operation field after :=
    after = if failed_group (verdict cfg calls operation field table options)
                 final
            then cache else invalidated in
  (items <> [] ->
   rule "insert" "records"
     (snd (insertMany decodeKey cfg calls cache startTime now table items
             options))
   /\ rule "update" "records"
        (snd (updateMany decodeKey cfg calls cache startTime now table items
                options))
   /\ rule "delete" "hash_values"
        (snd (deleteMany decodeKey cfg calls cache startTime now table items
                options)))
  /\ (1 <= wave_width cfg options ->
      option_map snd
        (upsertMany decodeKey cfg calls cache startTime now table items
           options) = Some invalidated).
Proof.
  intros Hsize final invalidated rule. split.
  - intros Hitems. subst rule final invalidated.
    unfold insertMany, updateMany, deleteMany.
    repeat split; now apply bulk_sequential_cache.
  - intros Hwidth. unfold upsertMany.
    destruct (bulk_parallel_accounted decodeKey cfg calls "upsert" "records"
                table options eq_refl true cache startTime now items
                Hsize Hwidth) as (r & cache' & Heq & _ & Hcache).
    rewrite Heq. cbn [option_map snd]. rewrite Hcache.
    subst invalidated. now rewrite write_schema_getSchema.
Qed.

Lemma bulk_invalidation_rule_witness :
  snd (insertMany Reference.decodeKey sample_config (calls_failing [0%nat])
         [(orders_key, sample_entry 1 0 5000)] 0 99 "orders"
         [record 1; record 2] (with_batches (Some 1) None))
  = invalidateTableCache Reference.decodeKey sample_config
      [(orders_key, sample_entry 1 0 5000)] "orders" (Some "dev").
Proof.
  destruct (bulk_invalidation_rule Reference.decodeKey sample_config
              (calls_failing [0%nat]) [(orders_key, sample_entry 1 0 5000)]
              0 99 "orders" [record 1; record 2]
              (with_batches (Some 1) None)) as [H _];
    [vm_compute; discriminate|].
  destruct H as [H _]; [discriminate|]. exact H.
Defined.

(** X24. A bulk write of no records sends nothing. Given an empty
    input, whatever the options and the transport, [insertMany],
    [updateMany], [deleteMany] and [insertManyParallel] return zero
    counts and no error list and leave the store as it is;
    [upsertMany] returns the same counts but still invalidates the
    cached reads of the table. *)
Theorem bulk_empty_input (decodeKey : string -> option JSON)
    (cfg : HarperDBConfig) (calls : nat -> Call) (cache : Cache)
    (startTime now : Z) (table : string) (options : BulkOptions) :
  let nothing :=
    {| successful := 0; failed := 0; errors := None;
       bulk_executionTime := now - startTime |} in
  insertMany decodeKey cfg calls cache startTime now table [] options
  = (nothing, cache)
  /\ updateMany decodeKey cfg calls cache startTime now table [] options
     = (nothing, cache)
  /\ deleteMany decodeKey cfg calls cache startTime now table [] options
     = (nothing, cache)
  /\ insertManyParallel decodeKey cfg calls cache startTime now table []
       options = Some (nothing, cache)
  /\ upsertMany decodeKey cfg calls cache startTime now table [] options
     = Some (nothing,
             invalidateTableCache decodeKey cfg cache table
               (Some (getSchema cfg))).
Proof.
  intros nothing.
  assert (Hchunk : forall size, chunk (@nil JSON) size = []).
  { intros size. unfold chunk. now destruct (Z.max size 0 <? 1). }
  unfold insertMany, updateMany, deleteMany, insertManyParallel, upsertMany,
    bulk_sequential, bulk_parallel.
  rewrite !Hchunk. cbn [indexed fold_left List.length waves Z.of_nat].
  rewrite write_schema_getSchema.
  repeat split.
Qed.

(** ** What the executor sends, serves and throws *)

Lemma spread_into_get k m :
  NoDup (obj_keys m) ->
  forall base,
    obj_get k (spread_into base (JObj m))
    = match obj_get k m with
      | Some v => Some v
      | None => obj_get k base
      end.
Proof.
  unfold spread_into. cbn [own_props].
  induction m as [|[k' v'] m IH]; intros Hnd base; [reflexivity|].
  inversion Hnd as [|? ? Hnotin Hnd']; subst.
  cbn [fold_left fst snd obj_get]. rewrite IH by assumption.
  rewrite obj_get_set.
  destruct (String.eqb_spec k k') as [->|Hne]; [|reflexivity].
  assert (Hnone : obj_get k' m = None) by now apply obj_get_None.
  now rewrite Hnone.
Qed.

(** X25. The request the executor posts is the body plus the operation
    name: every field of the body is sent as it is, and the field
    [operation] holds the operation name unless the body has a field of
    that name, which then wins. It goes to [apiPath + '/'] with the
    timeout of the call, or the configured one when the call gives none
    or 0. *)
Theorem outbound_request (cfg : HarperDBConfig) (operation : string)
    (m : list (string * JSON)) (options : QueryOptions) :
  NoDup (obj_keys m) ->
  let req := outbound cfg operation (JObj m) options in
  endpoint req = str_or (apiPath cfg) "" ++ "/"
  /\ request_timeout req
     = match opt_timeout options with
       | Some 0 | None => timeout cfg
       | Some t => Some t
       end
  /\ exists fields,
       requestBody req = JObj fields
       /\ (forall k, k <> "operation" -> obj_get k fields = obj_get k m)
       /\ obj_get "operation" fields
          = Some match obj_get "operation" m with
                 | Some v => v
                 | None => JStr operation
                 end.
Proof.
  intros Hnd req. split; [reflexivity|]. split.
  - cbn [req outbound request_timeout]. unfold opt_num_or.
    destruct (opt_timeout options) as [t|]; [|reflexivity].
    destruct (Z.eqb_spec t 0) as [->|Hne]; [reflexivity|].
    destruct t; congruence.
  - eexists. split; [reflexivity|]. split.
    + intros k Hk. rewrite spread_into_get by assumption.
      destruct (obj_get k m); [reflexivity|].
      cbn [obj_get]. now destruct (String.eqb_spec k "operation").
    + rewrite spread_into_get by assumption.
      now destruct (obj_get "operation" m).
Qed.

Lemma outbound_request_witness :
  exists fields,
    requestBody (outbound sample_config "sql" select_one no_options)
    = JObj fields
    /\ obj_get "operation" fields = Some (JStr "sql")
    /\ obj_get "sql" fields = Some (JStr "SELECT 1").
Proof.
  destruct (outbound_request sample_config "sql" [("sql", JStr "SELECT 1")]
              no_options) as (_ & _ & fields & Hf & Hother & Hop).
  - repeat constructor. simpl. tauto.
  - exists fields. split; [exact Hf|]. split; [exact Hop|].
    apply Hother. discriminate.
Defined.

(** X26. The executor never serves an expired entry. When a call
    returns without sending its request, caching is in force for it, the
    operation is cache-eligible and the store held, under the
    fingerprint of the request, an entry that had not expired when the
    call started; what is returned is the data of that entry, flagged
    [cached], and the store is left as it was. *)
Theorem executeQuery_never_stale (cfg : HarperDBConfig) (cache : Cache)
    (call : Call) (operation : string) (body : JSON)
    (options : QueryOptions) :
  let x := executeQuery cfg cache call operation body options in
  sent x = None ->
  caching cfg options /\ eligible operation
  /\ exists entry,
       map_get (generateCacheKey operation body) cache = Some entry
       /\ fresh (started call) entry
       /\ outcome x = Ok (from_cache (entry_data entry))
       /\ cached (metadata (from_cache (entry_data entry))) = true
       /\ cache_after x = cache.
Proof.
  intros x. subst x. rewrite executeQuery_cases.
  set (uc := match useCache options with
             | Some b => b
             | None => flag (enableCache cfg)
             end).
  destruct uc eqn:Huc; [|discriminate].
  destruct (truthy_string (generateCacheKey operation body)) eqn:Hkey;
    [|discriminate].
  unfold getCached. rewrite Hkey. cbn [negb orb].
  destruct (flag (enableCache cfg)) eqn:Hon; [|discriminate].
  cbn [negb].
  destruct (map_get (generateCacheKey operation body) cache) as [entry|]
    eqn:Hget; [|discriminate].
  destruct (expired (started call) entry) eqn:Hexp; [discriminate|].
  intros _. split; [|split].
  - split; [exact Hon|]. intros Hoff. subst uc. rewrite Hoff in Huc.
    discriminate.
  - destruct (includes cacheableOperations (toLowerCase operation)) eqn:Hel;
      [exact Hel|].
    rewrite generateCacheKey_not_eligible in Hkey; [discriminate|].
    unfold eligible. now rewrite Hel.
  - exists entry. split; [reflexivity|].
    split; [now apply not_expired_iff|]. repeat split.
Qed.

Lemma executeQuery_never_stale_witness :
  let key := generateCacheKey "sql" select_one in
  let x :=
    executeQuery sample_config [(key, sample_entry 1 0 5000)]
      (sample_call 100 150 (Rejected timeout_error)) "sql" select_one
      no_options in
  exists entry,
    map_get key [(key, sample_entry 1 0 5000)] = Some entry
    /\ fresh 100 entry.
Proof.
  intros key x.
  destruct (executeQuery_never_stale sample_config
              [(key, sample_entry 1 0 5000)]
              (sample_call 100 150 (Rejected timeout_error)) "sql"
              select_one no_options) as (_ & _ & entry & Hget & Hfresh & _).
  - reflexivity.
  - exists entry. split; [exact Hget | exact Hfresh].
Defined.

(** X27. Every error the executor throws is a wrapped transport error.
    When [executeQuery] throws, its request was sent and rejected, and
    the message thrown is ['HarperDB query failed: '] followed by a text
    taken, in this order of preference, from the [error] field of the
    response body, from its [message] field, from the message of the
    transport error, and else ['Unknown error']. *)
Theorem executeQuery_error (cfg : HarperDBConfig) (cache : Cache)
    (call : Call) (operation : string) (body : JSON)
    (options : QueryOptions) (err : JsError) :
  let x := executeQuery cfg cache call operation body options in
  outcome x = Throw err ->
  exists e text,
    send call (outbound cfg operation body options) = Rejected e
    /\ sent x = Some (outbound cfg operation body options)
    /\ error_message err = "HarperDB query failed: " ++ text
    /\ let payload := option_map response_data (response e) in
       (forall s,
          opt_prop payload "error" = Some (JStr s) -> s <> "" -> text = s)
       /\ (truthy (opt_prop payload "error") = false ->
           (forall s,
              opt_prop payload "message" = Some (JStr s) -> s <> "" ->
              text = s)
           /\ (truthy (opt_prop payload "message") = false ->
               text = str_or (Some (axios_message e)) "Unknown error")).
Proof.
  intros x. subst x. rewrite executeQuery_cases.
  destruct (if truthy_string _ then _ else _) as [[hit|] c];
    cbn [outcome sent]; [discriminate|].
  unfold from_network.
  destruct (send call (outbound cfg operation body options)) as [r|e];
    [discriminate|].
  intros [= <-]. exists e, (js_String (errorMessage e)).
  split; [reflexivity|]. split; [reflexivity|]. split; [reflexivity|].
  cbn zeta. unfold errorMessage.
  set (payload := option_map response_data (response e)).
  split; [|split].
  - intros s Hs Hne. rewrite Hs. unfold js_or. cbn [truthy].
    apply truthy_string_nonempty in Hne. now rewrite Hne.
  - intros s Hs Hne. unfold js_or at 1. rewrite H, Hs.
    unfold js_or. cbn [truthy].
    apply truthy_string_nonempty in Hne. now rewrite Hne.
  - intros Hm. unfold js_or at 1. rewrite H.
    unfold js_or at 1. rewrite Hm.
    unfold js_or, str_or. cbn [truthy].
    now destruct (truthy_string (axios_message e)).
Qed.

Lemma executeQuery_error_witness :
  let refused :=
    {| response :=
         Some {| status := 400;
                 response_data := JObj [("error", JStr "Table not found")] |};
       code := Some "ERR_BAD_REQUEST";
       axios_message := "Request failed with status code 400" |} in
  outcome (executeQuery sample_config [] (sample_call 0 50 (Rejected refused))
             "sql" select_one no_options)
  = Throw {| error_message := "HarperDB query failed: Table not found" |}.
Proof.
  intros refused.
  destruct (executeQuery_error sample_config []
              (sample_call 0 50 (Rejected refused)) "sql" select_one
              no_options (query_failed refused) eq_refl)
    as (e & text & He & _ & Hmsg & Hfirst & _).
  injection He as <-.
  rewrite (Hfirst "Table not found" eq_refl) in Hmsg by discriminate.
  reflexivity.
Defined.

(** ** Defaults *)

(** X28. What a client does by default. Built from a configuration
    that does not mention [enableCache], a client caches nothing: every
    call is sent and the store is left alone, whatever the options of
    the call. Built without [maxRetries] and [retryDelay], it retries a
    request at most 3 times, sleeping 1000, 2000 and 3000 ms. Built with
    [maxRetries: 0], it does not retry at all: the value given replaces
    the default even though it is falsy. *)
Theorem default_policy (config : HarperDBConfig) :
  let cfg := new_config config in
  (enableCache config = None ->
   forall cache call operation body options,
     executeQuery cfg cache call operation body options
     = {| outcome :=
            from_network call
              (send call (outbound cfg operation body options));
          cache_after := cache;
          sent := Some (outbound cfg operation body options);
          returned_at := finished call |})
  /\ (maxRetries config = None -> retryDelay config = None ->
      forall attempt,
        exists (k : nat) (x : Exchange),
          post cfg attempt = Some x
          /\ (k <= 3)%nat
          /\ settled x = attempt k
          /\ delays x = firstn k [1000; 2000; 3000])
  /\ (maxRetries config = Some 0 ->
      forall attempt,
        post cfg attempt = Some {| settled := attempt O; delays := [] |}).
Proof.
  intros cfg. split; [|split].
  - intros Hnone cache call operation body options.
    apply executeQuery_flag_unset. subst cfg. cbn. now rewrite Hnone.
  - intros Hretries Hdelay attempt.
    destruct (post_spec cfg attempt) as (k & x & Hx & Hs & Hd & Hbefore & _).
    assert (Hmax : num_or (maxRetries cfg) 0 = 3)
      by (subst cfg; cbn; now rewrite Hretries).
    assert (Hbase : num_or (retryDelay cfg) 0 = 1000)
      by (subst cfg; cbn; now rewrite Hdelay).
    exists k, x. split; [exact Hx|].
    assert (Hk : (k <= 3)%nat).
    { destruct k as [|k]; [lia|].
      destruct (Hbefore k (Nat.lt_succ_diag_r k)) as [H _]. lia. }
    split; [exact Hk|]. split; [exact Hs|].
    rewrite Hd. unfold backoff. rewrite Hbase.
    destruct k as [|[|[|[|k]]]]; try reflexivity. lia.
  - intros Hzero attempt.
    destruct (post_spec cfg attempt) as (k & x & Hx & Hs & Hd & Hbefore & _).
    assert (Hmax : num_or (maxRetries cfg) 0 = 0)
      by (subst cfg; cbn; now rewrite Hzero).
    assert (Hk : k = O).
    { destruct k as [|k]; [reflexivity|].
      destruct (Hbefore k (Nat.lt_succ_diag_r k)) as [H _]. lia. }
    subst k. rewrite Hx. f_equal. destruct x as [s d]. cbn in *.
    now subst.
Qed.

Lemma default_policy_witness :
  exists x,
    post (new_config bare_config) (flaky 9) = Some x
    /\ delays x = [1000; 2000; 3000].
Proof.
  destruct (default_policy bare_config) as (_ & H & _).
  destruct (H eq_refl eq_refl (flaky 9)) as (k & x & Hx & _ & _ & _).
  exists x. split; [exact Hx|].
  vm_compute in Hx. now injection Hx as <-.
Defined.

(** ** Normalized bodies *)








(** ** [clearTable] *)

Section ClearingFacts.
Variable null_read : JsError.


End ClearingFacts.


